(** * The chess engine core: move index, material evaluator, time manager,
    alpha-beta searcher and MCTS searcher.

    A shallow embedding of [chessai/engine/*.py].  Python floats are IEEE
    binary64 numbers and are embedded as Rocq's primitive floats; Python ints
    are [Z]; dicts are [gmap]s; exceptions are the [Raise] results of a small
    error monad.  The rules engine (python-chess) is an external collaborator
    and enters as a record of operations. *)

From Stdlib Require Import ZArith List Bool Lia Ascii String Floats Uint63.
From stdpp Require Import gmap strings list sorting.

Open Scope Z_scope.
Set Warnings "-inexact-float".

(** ** Python exceptions and the error monad *)

Inductive exn : Type :=
  | IndexError | KeyError | ValueError | AttributeError | TypeError
  | NameError | OverflowError | RecursionError | OracleError
  | ZeroDivisionError.

Inductive result (A : Type) : Type :=
  | Ok (a : A)
  | Raise (e : exn).
Arguments Ok {A} a.
Arguments Raise {A} e.

Definition rbind {A B} (r : result A) (k : A -> result B) : result B :=
  match r with
  | Ok a => k a
  | Raise e => Raise e
  end.

Declare Scope result_scope.
Delimit Scope result_scope with result.
Notation "'let*' x ':=' c 'in' k" := (rbind c (fun x => k))
  (at level 10, x pattern, c at level 100, k at level 200) : result_scope.
Open Scope result_scope.

Definition is_Ok {A} (r : result A) : Prop := exists a, r = Ok a.

Definition result_get {A} (d : A) (r : result A) : A :=
  match r with
  | Ok a => a
  | Raise _ => d
  end.

#[export] Instance exn_eq_dec : EqDecision exn.
Proof. solve_decision. Defined.

#[export] Instance result_eq_dec `{EqDecision A} : EqDecision (result A).
Proof. solve_decision. Defined.

(** [for x in xs: body] inside the error monad, threading the loop state. *)
Fixpoint for_each {A S} (xs : list A) (body : A -> S -> result S) (s : S)
  : result S :=
  match xs with
  | [] => Ok s
  | x :: xs' => let* s' := body x s in for_each xs' body s'
  end.

(** Decide a closed decidable proposition by evaluation. *)
Ltac by_compute := refine (bool_decide_unpack _ _); vm_compute; exact I.

(** ** Python sequences *)

(** [l[i]] on a Python list: negative indices count from the end. *)
Definition py_getitem {A} (l : list A) (i : Z) : result A :=
  let n := Z.of_nat (length l) in
  let j := if i <? 0 then i + n else i in
  if (0 <=? j) && (j <? n)
  then match l !! Z.to_nat j with Some a => Ok a | None => Raise IndexError end
  else Raise IndexError.

(** [l.index(x)]: the position of the first occurrence. *)
Fixpoint py_index `{EqDecision A} (l : list A) (x : A) : result Z :=
  match l with
  | [] => Raise ValueError
  | y :: l' =>
      if decide (y = x) then Ok 0
      else let* i := py_index l' x in Ok (i + 1)
  end.

(** [range(n)]. *)
Definition range (n : Z) : list Z := seqZ 0 n.

Definition upper_ascii (c : ascii) : ascii :=
  let n := nat_of_ascii c in
  if (97 <=? n)%nat && (n <=? 122)%nat then ascii_of_nat (n - 32) else c.

Definition lower_ascii (c : ascii) : ascii :=
  let n := nat_of_ascii c in
  if (65 <=? n)%nat && (n <=? 90)%nat then ascii_of_nat (n + 32) else c.

Fixpoint str_map (f : ascii -> ascii) (s : string) : string :=
  match s with
  | EmptyString => EmptyString
  | String c s' => String (f c) (str_map f s')
  end.

Definition str_upper : string -> string := str_map upper_ascii.
Definition str_lower : string -> string := str_map lower_ascii.

(** [s[i:j]] for [0 <= i <= j]. *)
Definition str_slice (i j : nat) (s : string) : string :=
  String.substring i (j - i) s.

(** [s[i:]]. *)
Definition str_from (i : nat) (s : string) : string :=
  String.substring i (String.length s - i) s.

(** [d[k]] on a dict. *)
Definition py_dict_get `{Countable K} {V} (d : gmap K V) (k : K) : result V :=
  match d !! k with
  | Some v => Ok v
  | None => Raise KeyError
  end.

(** ** Python floats *)

(** [float(z)] for an int: rounded to nearest-even, [OverflowError] when the
    int is too large for a binary64. *)
Definition float_of_Z (z : Z) : result float :=
  let f := SF2Prim (binary_normalize prec emax z 0 false) in
  if PrimFloat.is_infinity f then Raise OverflowError else Ok f.

(** [int(x)] for a float: truncation towards zero. *)
Definition py_int (x : float) : result Z :=
  match Prim2SF x with
  | S754_zero _ => Ok 0
  | S754_infinity _ => Raise OverflowError
  | S754_nan => Raise ValueError
  | S754_finite s m e =>
      let a := if 0 <=? e then Z.pos m * 2 ^ e else Z.pos m / 2 ^ (- e) in
      Ok (if s then - a else a)
  end.

(** [max(a, b)] and [min(a, b)] on floats keep the first argument unless the
    second compares strictly beyond it (so a NaN second argument is dropped). *)
Definition py_max (a b : float) : float := if (a <? b)%float then b else a.
Definition py_min (a b : float) : float := if (b <? a)%float then b else a.

(** ** The part of python-chess the engine reads *)

Module chess.

Definition PAWN : Z := 1.
Definition KNIGHT : Z := 2.
Definition BISHOP : Z := 3.
Definition ROOK : Z := 4.
Definition QUEEN : Z := 5.
Definition KING : Z := 6.

Definition PIECE_SYMBOLS : list (option string) :=
  [None; Some "p"; Some "n"; Some "b"; Some "r"; Some "q"; Some "k"]%string.

Definition FILE_NAMES : list string :=
  ["a"; "b"; "c"; "d"; "e"; "f"; "g"; "h"]%string.
Definition RANK_NAMES : list string :=
  ["1"; "2"; "3"; "4"; "5"; "6"; "7"; "8"]%string.

(** [SQUARE_NAMES = [f + r for r in RANK_NAMES for f in FILE_NAMES]]. *)
Definition SQUARE_NAMES : list string :=
  Eval cbv in
    flat_map (fun r => map (fun f => (f ++ r)%string) FILE_NAMES) RANK_NAMES.

Definition SQUARES : list Z := range 64.

Definition square_name (square : Z) : result string :=
  py_getitem SQUARE_NAMES square.

Definition parse_square (name : string) : result Z :=
  py_index SQUARE_NAMES name.

(** [piece_symbol(pt)] is [PIECE_SYMBOLS[pt]]; the caller applies a string
    method to it, which fails on the [None] stored at index 0. *)
Definition piece_symbol (piece_type : Z) : result string :=
  let* o := py_getitem PIECE_SYMBOLS piece_type in
  match o with
  | Some s => Ok s
  | None => Raise AttributeError
  end.

(** [chess.Move]: origin, destination and optional promotion piece type.
    (The [drop] field is never set by the engine or by standard chess.) *)
Record Move : Type := mkMove {
  from_square : Z;
  to_square : Z;
  promotion : option Z
}.

#[export] Instance Move_eq_dec : EqDecision Move.
Proof. solve_decision. Defined.

#[export] Instance Move_countable : Countable Move.
Proof.
  refine (inj_countable'
    (fun m => (from_square m, to_square m, promotion m))
    (fun '(f, t, p) => mkMove f t p) _).
  by intros [].
Defined.

(** A [chess.Piece]: piece type and colour ([true] is white). *)
Record Piece : Type := mkPiece {
  piece_type : Z;
  color : bool
}.

Definition WHITE : bool := true.
Definition BLACK : bool := false.

End chess.

Import chess.

(** ** The rules engine

    python-chess is consumed through this interface.  [copy] of a board is
    the identity on values; [push] and [pop] return the mutated board.

    [legal_moves] is what iterating [board.legal_moves] yields.  The test
    [move in board.legal_moves] is an operation of its own, [is_legal]
    ([LegalMoveGenerator.__contains__] calls [Board.is_legal]): it accepts
    every move the iteration yields, and besides them other spellings of
    such a move (castling written as king takes rook, [e1h1] for [e1g1]). *)

Class RulesEngine : Type := {
  Board : Type;
  legal_moves : Board -> list Move;
  is_legal : Board -> Move -> bool;
  is_legal_listed : forall b m, m ∈ legal_moves b -> is_legal b m = true;
  push : Board -> Move -> Board;
  pop : Board -> Board;
  move_stack_len : Board -> Z;
  piece_at : Board -> Z -> option Piece;
  turn : Board -> bool;
  is_capture : Board -> Move -> bool;
  is_checkmate : Board -> bool;
  is_stalemate : Board -> bool;
  is_insufficient_material : Board -> bool;
  is_game_over : Board -> bool;
  fen : Board -> string
}.

(** * Move index ([move_index.py]) *)

Module MoveIndex.

Record t : Type := mk {
  _move_to_id : gmap string Z;
  _id_to_move : gmap Z string;
  _next_id : Z
}.

Definition _move_to_string (from_square to_square : Z) (promotion : option Z)
  : result string :=
  let* from_sq := square_name from_square in
  let* to_sq := square_name to_square in
  match promotion with
  | Some p =>
      let* sym := piece_symbol p in
      let piece_char := str_upper sym in
      Ok (from_sq ++ to_sq ++ piece_char)%string
  | None => Ok (from_sq ++ to_sq)%string
  end.

(** The innermost loop body of [_generate_all_moves]. *)
Definition register_shape (from_square to_square : Z) (piece_type : option Z)
  (self : t) : result t :=
  let* move_str := _move_to_string from_square to_square piece_type in
  match _move_to_id self !! move_str with
  | Some _ => Ok self
  | None =>
      Ok {| _move_to_id := <[move_str := _next_id self]> (_move_to_id self);
            _id_to_move := <[_next_id self := move_str]> (_id_to_move self);
            _next_id := _next_id self + 1 |}
  end.

Definition promotion_choices : list (option Z) :=
  [None; Some QUEEN; Some ROOK; Some BISHOP; Some KNIGHT].

Definition _generate_all_moves (self : t) : result t :=
  for_each (range 64) (fun from_square self =>
    for_each (range 64) (fun to_square self =>
      if decide (from_square = to_square) then Ok self
      else
        for_each promotion_choices (fun piece_type self =>
          register_shape from_square to_square piece_type self) self) self)
    self.

Definition empty_index : t :=
  {| _move_to_id := ∅; _id_to_move := ∅; _next_id := 0 |}.

(** [MoveIndex.__init__]. *)
Definition __init__ : result t := _generate_all_moves empty_index.

Definition to_id (self : t) (move : Move) : result Z :=
  let* move_str :=
    _move_to_string (from_square move) (to_square move) (promotion move) in
  Ok (default (-1) (_move_to_id self !! move_str)).

(** The parsing half of [from_id]: the move a registered string denotes. *)
Definition parse_move (move_str : string) : result (option Move) :=
  if decide (String.length move_str = 4%nat) then
    let* from_sq := parse_square (str_slice 0 2 move_str) in
    let* to_sq := parse_square (str_from 2 move_str) in
    Ok (Some (mkMove from_sq to_sq None))
  else if decide (String.length move_str = 5%nat) then
    let* from_sq := parse_square (str_slice 0 2 move_str) in
    let* to_sq := parse_square (str_slice 2 4 move_str) in
    let* promotion :=
      py_index PIECE_SYMBOLS (Some (str_lower (str_slice 4 5 move_str))) in
    Ok (Some (mkMove from_sq to_sq (Some promotion)))
  else Ok None.

Section WithRules.
Context `{RE : RulesEngine}.

Definition from_id (self : t) (move_id : Z) (board : Board)
  : result (option Move) :=
  match _id_to_move self !! move_id with
  | None => Ok None
  | Some move_str =>
      let* parsed := parse_move move_str in
      match parsed with
      | None => Ok None
      | Some move =>
          if is_legal board move then Ok (Some move)
          else Ok None
      end
  end.

Definition action_space_size (self : t) : Z := _next_id self.

(** [mask[i] = True]; an index outside the list raises. *)
Definition set_true (mask : list bool) (i : Z) : result (list bool) :=
  if (0 <=? i) && (i <? Z.of_nat (length mask))
  then Ok (<[Z.to_nat i := true]> mask)
  else if (i <? 0) && (- Z.of_nat (length mask) <=? i)
  then Ok (<[Z.to_nat (i + Z.of_nat (length mask)) := true]> mask)
  else Raise IndexError.

Definition get_legal_move_mask (self : t) (board : Board)
  : result (list bool) :=
  let mask := replicate (Z.to_nat (action_space_size self)) false in
  for_each (legal_moves board) (fun move mask =>
    let* move_id := to_id self move in
    if 0 <=? move_id then set_true mask move_id else Ok mask) mask.

Definition get_legal_move_ids (self : t) (board : Board) : result (list Z) :=
  for_each (legal_moves board) (fun move legal_ids =>
    let* move_id := to_id self move in
    if 0 <=? move_id then Ok (legal_ids ++ [move_id]) else Ok legal_ids) [].

End WithRules.

(** [sum(mask)]: the number of [True] entries. *)
Definition popcount (mask : list bool) : nat :=
  length (filter (fun b => b = true) mask).

(** The module-level instance [move_index = MoveIndex()]. *)
Definition move_index : t := result_get empty_index __init__.
#[global] Opaque move_index.

(** *** Shapes *)

Definition all_promotions : list (option Z) :=
  [None; Some PAWN; Some KNIGHT; Some BISHOP; Some ROOK; Some QUEEN; Some KING].

(** A well-formed [chess.Move]: both squares on the board, the promotion
    absent or a piece type. *)
Definition wf_move (m : Move) : Prop :=
  0 <= from_square m < 64 /\ 0 <= to_square m < 64 /\
  promotion m ∈ all_promotions.

(** The shapes [_generate_all_moves] runs through: distinct squares, and no
    promotion or one to queen, rook, bishop or knight. *)
Definition registered_shape (m : Move) : Prop :=
  0 <= from_square m < 64 /\ 0 <= to_square m < 64 /\
  from_square m <> to_square m /\ promotion m ∈ promotion_choices.

(** What a conformant rules engine guarantees about its legal moves: each is
    a chess move (so its shape is registered) and none is listed twice. *)
Class ChessMoves `{RE : RulesEngine} : Prop := {
  legal_moves_shape : forall b m, m ∈ legal_moves b -> registered_shape m;
  legal_moves_NoDup : forall b, NoDup (legal_moves b)
}.

#[export] Instance registered_shape_dec m : Decision (registered_shape m).
Proof. unfold registered_shape. apply _. Defined.

Definition shape_roundtrip_check (f t : Z) (p : option Z) : bool :=
  match _move_to_string f t p with
  | Ok s => bool_decide (parse_move s = Ok (Some (mkMove f t p)))
  | Raise _ => false
  end.

(** The invariant of the two dictionaries during construction. *)
Record Inv (self : t) : Prop := {
  inv_inverse : forall s id,
    _move_to_id self !! s = Some id <-> _id_to_move self !! id = Some s;
  inv_next : 0 <= _next_id self;
  inv_ids : forall id,
    is_Some (_id_to_move self !! id) <-> 0 <= id < _next_id self;
  inv_shapes : forall s id, _move_to_id self !! s = Some id ->
    exists m, registered_shape m /\
      _move_to_string (from_square m) (to_square m) (promotion m) = Ok s
}.

(** [self'] keeps every entry of [self]. *)
Definition extends (self self' : t) : Prop :=
  forall s id, _move_to_id self !! s = Some id ->
               _move_to_id self' !! s = Some id.

Definition covers (self : t) (f t : Z) (p : option Z) : Prop :=
  exists s id, _move_to_string f t p = Ok s /\ _move_to_id self !! s = Some id.

(** What the mask holds once the moves [done] have been marked. *)
Definition mask_inv (self : t) (done : list Move) (mask : list bool) : Prop :=
  length mask = Z.to_nat (action_space_size self) /\
  popcount mask = length done /\
  forall i : nat, mask !! i = Some true <->
    exists m, m ∈ done /\ to_id self m = Ok (Z.of_nat i).

(** The loop body of [get_legal_move_mask]. *)
Definition mask_body (self : t) (move : Move) (mask : list bool)
  : result (list bool) :=
  let* move_id := to_id self move in
  if 0 <=? move_id then set_true mask move_id else Ok mask.

End MoveIndex.


(** ** Example positions

    A rules engine restricted to the positions the examples below visit:
    the starting position, and the position
    [7k/8/8/8/8/8/1q6/K7 w - - 0 1] (white king a1 in check from an
    unprotected black queen b2, black king h8) with its only continuation
    Kxb2, and the lone white king [8/8/8/8/8/8/8/4K3 w - - 0 1] of the test
    suite.  Positions past that horizon are [Unmodelled]. *)

Module Examples.

Inductive position : Type := Start | KQK | KK | LoneKing | Unmodelled.

#[export] Instance position_eq_dec : EqDecision position.
Proof. solve_decision. Defined.

Record example_board : Type := mkBoard {
  cur : position;
  move_stack : list (Move * position)
}.

Definition a1b2 : Move := mkMove 0 9 None.

(** The twenty opening moves: knight moves, then single and double pawn
    advances, each from the h-file down to the a-file. *)
Definition start_moves : list Move :=
  [mkMove 6 23 None; mkMove 6 21 None; mkMove 1 18 None; mkMove 1 16 None]
  ++ map (fun f => mkMove (8 + f) (16 + f) None) [7; 6; 5; 4; 3; 2; 1; 0]
  ++ map (fun f => mkMove (8 + f) (24 + f) None) [7; 6; 5; 4; 3; 2; 1; 0].

Definition position_moves (p : position) : list Move :=
  match p with
  | Start => start_moves
  | KQK => [a1b2]
  | KK => [mkMove 63 62 None; mkMove 63 55 None; mkMove 63 54 None]
  | LoneKing =>
      [mkMove 4 13 None; mkMove 4 12 None; mkMove 4 11 None; mkMove 4 5 None;
       mkMove 4 3 None]
  | Unmodelled => []
  end.

Definition after (p : position) (m : Move) : position :=
  match p with
  | KQK => if decide (m = a1b2) then KK else Unmodelled
  | _ => Unmodelled
  end.

Definition back_rank : list Z := [ROOK; KNIGHT; BISHOP; QUEEN; KING; BISHOP; KNIGHT; ROOK].

Definition start_piece_at (square : Z) : option Piece :=
  if (0 <=? square) && (square <? 8) then
    (fun pt => mkPiece pt WHITE) <$> back_rank !! Z.to_nat square
  else if (8 <=? square) && (square <? 16) then Some (mkPiece PAWN WHITE)
  else if (48 <=? square) && (square <? 56) then Some (mkPiece PAWN BLACK)
  else if (56 <=? square) && (square <? 64) then
    (fun pt => mkPiece pt BLACK) <$> back_rank !! Z.to_nat (square - 56)
  else None.

Definition position_piece_at (p : position) (square : Z) : option Piece :=
  match p with
  | Start => start_piece_at square
  | KQK =>
      if decide (square = 0) then Some (mkPiece KING WHITE)
      else if decide (square = 9) then Some (mkPiece QUEEN BLACK)
      else if decide (square = 63) then Some (mkPiece KING BLACK)
      else None
  | KK =>
      if decide (square = 9) then Some (mkPiece KING WHITE)
      else if decide (square = 63) then Some (mkPiece KING BLACK)
      else None
  | LoneKing =>
      if decide (square = 4) then Some (mkPiece KING WHITE) else None
  | Unmodelled => None
  end.

Definition position_fen (p : position) : string :=
  match p with
  | Start => "rnbqkbnr/pppppppp/8/8/8/8/PPPPPPPP/RNBQKBNR w KQkq - 0 1"
  | KQK => "7k/8/8/8/8/8/1q6/K7 w - - 0 1"
  | KK => "7k/8/8/8/8/8/1K6/8 b - - 0 1"
  | LoneKing => "8/8/8/8/8/8/8/4K3 w - - 0 1"
  | Unmodelled => "?"
  end.

(** Bare kings cannot mate. *)
Definition insufficient_material (p : position) : bool :=
  match p with
  | KK | LoneKing => true
  | _ => false
  end.

#[export] Instance example_rules : RulesEngine := {|
  Board := example_board;
  legal_moves b := position_moves (cur b);
  is_legal b m := bool_decide (m ∈ position_moves (cur b));
  is_legal_listed b m := bool_decide_eq_true_2 (m ∈ position_moves (cur b));
  push b m :=
    {| cur := after (cur b) m; move_stack := (m, cur b) :: move_stack b |};
  pop b :=
    match move_stack b with
    | (_, p) :: st => {| cur := p; move_stack := st |}
    | [] => b
    end;
  move_stack_len b := Z.of_nat (length (move_stack b));
  piece_at b := position_piece_at (cur b);
  turn b := match cur b with KK => BLACK | _ => WHITE end;
  is_capture b m := bool_decide (cur b = KQK /\ m = a1b2);
  is_checkmate _ := false;
  is_stalemate _ := false;
  is_insufficient_material b := insufficient_material (cur b);
  is_game_over b := insufficient_material (cur b);
  fen b := position_fen (cur b)
|}.

Definition start_board : example_board := {| cur := Start; move_stack := [] |}.
Definition kqk_board : example_board := {| cur := KQK; move_stack := [] |}.
Definition lone_king_board : example_board := {| cur := LoneKing; move_stack := [] |}.

End Examples.

(** ** A position with castling

    [4k3/8/8/8/8/8/8/4K2R w K - 0 1]: the rook moves, the king moves and
    castling [e1g1], as python-chess lists them.  The legality test accepts
    castling spelled [e1h1] as well.  The game is not continued from this
    board. *)

Module CastlingExample.

Definition e1g1 : Move := mkMove 4 6 None.
Definition e1h1 : Move := mkMove 4 7 None.

Definition castling_moves : list Move :=
  map (fun t => mkMove 7 t None) [63; 55; 47; 39; 31; 23; 15; 6; 5]
  ++ map (fun t => mkMove 4 t None) [13; 12; 11; 5; 3]
  ++ [e1g1].

Definition castling_piece_at (square : Z) : option Piece :=
  if decide (square = 4) then Some (mkPiece KING WHITE)
  else if decide (square = 7) then Some (mkPiece ROOK WHITE)
  else if decide (square = 60) then Some (mkPiece KING BLACK)
  else None.

Definition castling_rules : RulesEngine := {|
  Board := unit;
  legal_moves _ := castling_moves;
  is_legal _ m := bool_decide (m ∈ castling_moves) || bool_decide (m = e1h1);
  is_legal_listed _ m := fun H =>
    orb_true_intro _ _ (or_introl (bool_decide_eq_true_2 _ H));
  push b _ := b;
  pop b := b;
  move_stack_len _ := 0;
  piece_at _ := castling_piece_at;
  turn _ := WHITE;
  is_capture _ _ := false;
  is_checkmate _ := false;
  is_stalemate _ := false;
  is_insufficient_material _ := false;
  is_game_over _ := false;
  fen _ := "4k3/8/8/8/8/8/8/4K2R w K - 0 1"
|}.

End CastlingExample.

(** * Position evaluation ([evaluation.py]) *)

Module Evaluation.

Definition value_to_centipawns (value : float) : result Z :=
  py_int (value * 1000)%float.

Definition centipawns_to_value (cp : Z) : result float :=
  let cp := Z.max (-1000) (Z.min 1000 cp) in
  let* x := float_of_Z cp in
  Ok (x / 1000)%float.

Definition piece_values : gmap Z Z :=
  {[ PAWN := 100; KNIGHT := 320; BISHOP := 330; ROOK := 500; QUEEN := 900;
     KING := 20000 ]}.

Section WithRules.
Context `{RE : RulesEngine}.

Definition evaluate_position (board : Board) : result (float * Z) :=
  let* material_score :=
    for_each SQUARES (fun square material_score =>
      match piece_at board square with
      | Some piece =>
          let* value := py_dict_get piece_values (piece_type piece) in
          if color piece then Ok (material_score + value)
          else Ok (material_score - value)
      | None => Ok material_score
      end) 0 in
  let material_score :=
    if negb (turn board) then - material_score else material_score in
  let* value := centipawns_to_value material_score in
  Ok (value, material_score).

End WithRules.

(** The value of a centipawn score lies in [[-1, 1]]. *)
Definition value_in_range (cp : Z) : bool :=
  match centipawns_to_value cp with
  | Ok v => ((-1 <=? v) && (v <=? 1))%float
  | Raise _ => false
  end.

Definition is_winning_position (value threshold : float) : bool :=
  (threshold <? abs value)%float.

Definition is_drawish_position (value threshold : float) : bool :=
  (abs value <? threshold)%float.

End Evaluation.

(** * Time management ([time_manager.py]) *)

Module TimeManager.

(** The fields [get_time_budget] reads.  [__init__] leaves both [None];
    [_parse_time_control] sets both; [update_time] sets [time_left] only. *)
Record t : Type := mk {
  time_left : option float;
  increment : option float
}.

Definition __init__ : t := {| time_left := None; increment := None |}.

(** The state after [_parse_time_control] has read [base+inc] (the two
    floats are whatever [float()] made of the two parts). *)
Definition parsed (base inc : float) : t :=
  {| time_left := Some base; increment := Some inc |}.

Definition update_time (self : t) (time_left : float) : t :=
  {| time_left := Some time_left; increment := increment self |}.

Definition get_time_budget (self : t) (moves_remaining : option Z)
  : result float :=
  match time_left self with
  | None => Ok 5%float
  | Some time_left =>
      let moves_remaining := default 20 moves_remaining in
      let* divisor := float_of_Z (Z.max 1 moves_remaining) in
      let base_time := (time_left / divisor)%float in
      match increment self with
      | None => Raise TypeError
      | Some increment =>
          let total_time := (base_time + increment)%float in
          let reserve_factor := 0.8%float in
          let budget := (total_time * reserve_factor)%float in
          let budget := py_min budget (time_left * 0.1)%float in
          Ok (py_max 0.1%float budget)
      end
  end.

Definition get_emergency_time (self : t) : float :=
  match time_left self with
  | None => 0.1%float
  | Some time_left => py_min 0.1%float (time_left * 0.1)%float
  end.

(** A manager whose time control is absent or was parsed: a set [time_left]
    comes with a set [increment]. *)
Definition parsed_or_absent (self : t) : Prop :=
  time_left self = None \/ is_Some (increment self).

End TimeManager.

(** * Alpha-beta search ([search_alphabeta.py]) *)

Module AlphaBeta.

Inductive tt_type : Type := exact | lower | upper.

(** An entry of the transposition table. *)
Record tt_entry : Type := mkEntry {
  entry_value : float;
  entry_depth : Z;
  entry_type : tt_type;
  entry_move : option Move
}.

(** What [search] returns. *)
Record search_result : Type := mkResult {
  bestmove : option Move;
  pv : list Move;
  value : float;
  centipawns : Z;
  nodes : Z;
  depth : Z
}.

Section WithRules.
Context `{RE : RulesEngine}.

(** [self.evaluator], by default [evaluate_position]. *)
Variable evaluator : Board -> result (float * Z).

(** The wall clock: [now k] is what the [k]-th call of [time.time()]
    returns. *)
Variable now : nat -> float.

(** The searcher object, the board it mutates, and the clock. *)
Record state : Type := mkState {
  board : Board;
  ticks : nat;
  nodes_searched : Z;
  transposition_table : gmap string tt_entry;
  killer_moves : gmap Z (list Move);
  history_table : gmap Move Z
}.

(** State and exceptions: a raised exception keeps the mutations made so
    far. *)
Definition M (A : Type) : Type := state -> result A * state.

Definition ret {A} (a : A) : M A := fun st => (Ok a, st).
Definition raise {A} (e : exn) : M A := fun st => (Raise e, st).
Definition bind {A B} (c : M A) (k : A -> M B) : M B :=
  fun st =>
    match c st with
    | (Ok a, st') => k a st'
    | (Raise e, st') => (Raise e, st')
    end.
Definition lift {A} (r : result A) : M A := fun st => (r, st).
Definition get : M state := fun st => (Ok st, st).
Definition modify (f : state -> state) : M unit := fun st => (Ok tt, f st).

Notation "'let!' x ':=' c 'in' k" := (bind c (fun x => k))
  (at level 10, x pattern, c at level 100, k at level 200).

Definition set_board (b : Board) (st : state) : state :=
  mkState b (ticks st) (nodes_searched st) (transposition_table st)
    (killer_moves st) (history_table st).
Definition set_ticks (n : nat) (st : state) : state :=
  mkState (board st) n (nodes_searched st) (transposition_table st)
    (killer_moves st) (history_table st).
Definition set_nodes_searched (n : Z) (st : state) : state :=
  mkState (board st) (ticks st) n (transposition_table st)
    (killer_moves st) (history_table st).
Definition set_transposition_table (t : gmap string tt_entry) (st : state)
  : state :=
  mkState (board st) (ticks st) (nodes_searched st) t
    (killer_moves st) (history_table st).
Definition set_killer_moves (k : gmap Z (list Move)) (st : state) : state :=
  mkState (board st) (ticks st) (nodes_searched st) (transposition_table st)
    k (history_table st).

(** [time.time()]. *)
Definition time_time : M float :=
  fun st => (Ok (now (ticks st)), set_ticks (S (ticks st)) st).

(** [board.push(move)] and [board.pop()]. *)
Definition board_push (move : Move) : M unit :=
  modify (fun st => set_board (push (board st) move) st).
Definition board_pop : M unit :=
  modify (fun st => set_board (pop (board st)) st).

(** [self.evaluator(board)[0]]. *)
Definition evaluate : M float :=
  let! st := get in let! r := lift (evaluator (board st)) in ret (fst r).

Definition values : gmap Z Z :=
  {[ PAWN := 100; KNIGHT := 320; BISHOP := 330; ROOK := 500; QUEEN := 900;
     KING := 20000 ]}.

Definition _piece_value (piece_type : Z) : Z := default 0 (values !! piece_type).

(** The sort key of [_order_moves]. *)
Definition move_priority (st : state) (move : Move) : Z :=
  let board := board st in
  let priority := 0 in
  let priority :=
    if is_capture board move then
      match piece_at board (to_square move), piece_at board (from_square move) with
      | Some captured_piece, Some capturing_piece =>
          let victim_value := _piece_value (piece_type captured_piece) in
          let attacker_value := _piece_value (piece_type capturing_piece) in
          priority + (1000 + victim_value - attacker_value)
      | _, _ => priority
      end
    else priority in
  let priority :=
    match promotion move with
    | Some p => if decide (p = 0) then priority else priority + 900
    | None => priority
    end in
  let depth := move_stack_len board in
  let priority :=
    match killer_moves st !! depth with
    | Some killers =>
        if bool_decide (move ∈ killers) then priority + 800 else priority
    | None => priority
    end in
  priority + default 0 (history_table st !! move).

(** [sorted(moves, key=key, reverse=True)]: descending and stable. *)
Fixpoint insert_desc {A} (key : A -> Z) (x : A) (l : list A) : list A :=
  match l with
  | [] => [x]
  | y :: l' =>
      if key x <? key y then y :: insert_desc key x l' else x :: y :: l'
  end.

Definition sorted_desc {A} (key : A -> Z) (l : list A) : list A :=
  foldr (insert_desc key) [] l.

Definition _order_moves (moves : list Move) : M (list Move) :=
  let! st := get in ret (sorted_desc (move_priority st) moves).

(** The capture loop of [_quiescence_search]; [child alpha beta] is the
    recursive call on the pushed board. *)
Definition quiescence_loop (child : float -> float -> M float) (beta : float)
  : list Move -> float -> M float :=
  fix loop (captures : list Move) (alpha : float) : M float :=
    match captures with
    | [] => ret alpha
    | move :: captures' =>
        let! _ := board_push move in
        let! r := child (- beta)%float (- alpha)%float in
        let score := (- r)%float in
        let! _ := board_pop in
        if (beta <=? score)%float then ret beta
        else
          let alpha := if (alpha <? score)%float then score else alpha in
          loop captures' alpha
    end.

(** [fuel] bounds the depth of the Python call stack: running out of it is
    Python's [RecursionError]. *)
Fixpoint _quiescence_search (fuel : nat) (alpha beta : float)
    (depth max_depth : Z) : M float :=
  match fuel with
  | O => raise RecursionError
  | S fuel' =>
      if max_depth <=? depth then evaluate
      else
        let! stand_pat := evaluate in
        if (beta <=? stand_pat)%float then ret beta
        else
          let alpha := if (alpha <? stand_pat)%float then stand_pat else alpha in
          let! st := get in
          let captures :=
            filter (fun move => is_capture (board st) move = true)
                   (legal_moves (board st)) in
          let! captures := _order_moves captures in
          quiescence_loop
            (fun a b => _quiescence_search fuel' a b (depth + 1) max_depth)
            beta captures alpha
  end.

Definition _store_killer_move (move : Move) (depth : Z) : M unit :=
  modify (fun st =>
    let killers := default [] (killer_moves st !! depth) in
    let killers :=
      if bool_decide (move ∈ killers) then killers
      else
        let killers := move :: killers in
        if (2 <? length killers)%nat then removelast killers else killers in
    set_killer_moves (<[depth := killers]> (killer_moves st)) st).

(** The loop variables of the move loop of [_alpha_beta]. *)
Record loop_vars : Type := mkVars {
  best_move : option Move;
  best_value : float;
  cur_alpha : float
}.

(** The move loop of [_alpha_beta]; [child alpha beta] is the recursive call
    on the pushed board. *)
Definition alpha_beta_loop (child : float -> float -> M float) (beta : float)
  : list Move -> loop_vars -> M loop_vars :=
  fix loop (moves : list Move) (v : loop_vars) : M loop_vars :=
    match moves with
    | [] => ret v
    | move :: moves' =>
        let! _ := board_push move in
        let! r := child (- beta)%float (- cur_alpha v)%float in
        let value := (- r)%float in
        let! _ := board_pop in
        let v :=
          if (best_value v <? value)%float
          then mkVars (Some move) value (cur_alpha v) else v in
        if (beta <=? value)%float then
          let! st := get in
          let! _ := _store_killer_move move (move_stack_len (board st)) in
          ret v
        else
          let v :=
            if (cur_alpha v <? value)%float
            then mkVars (best_move v) (best_value v) value else v in
          loop moves' v
    end.

(** The transposition-table probe: either the stored value is returned at
    once, or the search goes on with the (possibly tightened) window. *)
Inductive probe : Type :=
  | Return (value : float)
  | Window (alpha beta : float).

Definition probe_table (st : state) (fen : string) (depth : Z)
    (alpha beta : float) : probe :=
  match transposition_table st !! fen with
  | Some entry =>
      if depth <=? entry_depth entry then
        match entry_type entry with
        | exact => Return (entry_value entry)
        | lower =>
            let alpha := py_max alpha (entry_value entry) in
            if (beta <=? alpha)%float then Return (entry_value entry)
            else Window alpha beta
        | upper =>
            let beta := py_min beta (entry_value entry) in
            if (beta <=? alpha)%float then Return (entry_value entry)
            else Window alpha beta
        end
      else Window alpha beta
  | None => Window alpha beta
  end.

Fixpoint _alpha_beta (fuel : nat) (depth : Z) (alpha beta : float)
    (max_depth : Z) (start_time max_time : float) : M float :=
  match fuel with
  | O => raise RecursionError
  | S fuel' =>
      let! _ :=
        modify (fun st => set_nodes_searched (nodes_searched st + 1) st) in
      let! t := time_time in
      if (max_time <=? t - start_time)%float then evaluate
      else
        let! st := get in
        if is_checkmate (board st) then
          ret (if turn (board st) then (-1000)%float else 1000%float)
        else if is_stalemate (board st) || is_insufficient_material (board st)
        then ret 0%float
        else if max_depth <=? depth then
          _quiescence_search fuel' alpha beta 0 3
        else
          let fen := fen (board st) in
          match probe_table st fen depth alpha beta with
          | Return value => ret value
          | Window alpha beta =>
              let moves := legal_moves (board st) in
              match moves with
              | [] => evaluate
              | _ =>
                  let! moves := _order_moves moves in
                  let original_alpha := alpha in
                  let! v := alpha_beta_loop
                         (fun a b =>
                            _alpha_beta fuel' (depth + 1) a b max_depth
                              start_time max_time)
                         beta moves (mkVars None neg_infinity alpha) in
                  let tt_type :=
                    if (best_value v <=? original_alpha)%float then upper
                    else if (beta <=? best_value v)%float then lower
                    else exact in
                  let entry :=
                    mkEntry (best_value v) depth tt_type (best_move v) in
                  let! _ := modify (fun st =>
                    set_transposition_table
                      (<[fen := entry]> (transposition_table st)) st) in
                  ret (best_value v)
              end
          end
  end.

(** The loop variables of the iterative-deepening loop of [search];
    [it_depth] is the loop variable [depth], unbound before the first
    iteration. *)
Record search_vars : Type := mkSearchVars {
  it_best_move : option Move;
  it_best_value : float;
  it_pv : list Move;
  it_depth : option Z
}.

Definition search_loop (fuel : nat) (start_time max_time : float)
  : list Z -> search_vars -> M search_vars :=
  fix loop (depths : list Z) (v : search_vars) : M search_vars :=
    match depths with
    | [] => ret v
    | depth :: depths' =>
        let v := mkSearchVars (it_best_move v) (it_best_value v) (it_pv v)
                   (Some depth) in
        let! t := time_time in
        if (max_time <=? t - start_time)%float then ret v
        else
          fun st =>
            match _alpha_beta fuel 0 neg_infinity infinity depth
                    start_time max_time st with
            | (Ok value, st') =>
                let v :=
                  if (it_best_value v <? value)%float
                  then mkSearchVars (it_best_move v) value [] (it_depth v)
                  else v in
                loop depths' v st'
            | (Raise _, st') => (Ok v, st')
            end
    end.

Definition search (fuel : nat) (max_time : float) (max_depth : Z)
  : M search_result :=
  let! _ := modify (set_nodes_searched 0) in
  let! start_time := time_time in
  let! v := search_loop fuel start_time max_time (seqZ 1 max_depth)
              (mkSearchVars None neg_infinity [] None) in
  let! centipawns := lift (Evaluation.value_to_centipawns (it_best_value v)) in
  let! st := get in
  match it_depth v with
  | None => raise NameError
  | Some depth =>
      ret {| bestmove := it_best_move v; pv := it_pv v;
             value := it_best_value v; centipawns := centipawns;
             nodes := nodes_searched st; depth := depth - 1 |}
  end.

(** [AlphaBetaSearch.__init__] around a board. *)
Definition initial (b : Board) : state :=
  mkState b 0 0 ∅ ∅ ∅.

End WithRules.

(** Every killer list holds at most two moves. *)
Definition killers_bounded `{RE : RulesEngine} (st : state) : Prop :=
  forall d l, killer_moves st !! d = Some l -> (length l <= 2)%nat.

(** [c] keeps [P], whether it returns or raises. *)
Definition preserves `{RE : RulesEngine} {A} (P : state -> Prop) (c : M A)
  : Prop :=
  forall st r st', P st -> c st = (r, st') -> P st'.

(** The clock of the examples stands still. *)
Definition clock0 (k : nat) : float := 0%float.

(** The direct call [_alpha_beta(board, 0, -1.0, 0.0, 1, 0, 1)] on the
    position [7k/8/8/8/8/8/1q6/K7 w - - 0 1]. *)
Definition kqk_state : state (RE := Examples.example_rules) :=
  initial (RE := Examples.example_rules) Examples.kqk_board.

Definition kqk_node : M (RE := Examples.example_rules) float :=
  _alpha_beta Evaluation.evaluate_position clock0 1000 0 (-1)%float 0%float
    1 0%float 1%float.

End AlphaBeta.

(** * Monte-Carlo tree search ([search_mcts.py]) *)

Module MCTS.

(** The two kinds of object [_expand_node] calls [.sum()] on: the Python
    list [get_legal_move_mask] returns, and numpy arrays. *)
Inductive pyobj : Type :=
  | PyList (l : list bool)
  | NdArray (a : list float).

Section WithRules.
Context `{RE : RulesEngine}.

(** A node of the tree.  Nodes live in a heap and refer to each other by
    address: [parent] and [children] hold addresses. *)
Record MCTSNode : Type := mkNode {
  node_board : Board;
  parent : option nat;
  move : option Move;
  children : list nat;
  visits : Z;
  value_sum : float;
  prior : float;
  is_expanded : bool
}.

(** The global [move_index]. *)
Variable index : MoveIndex.t.

(** The environment.  [predict_policy_value k board] is what the network
    answers when its call is the [k]-th draw; [np_random_random k n] the
    array of [n] random floats, [random_choice k n] the position
    [random.choice] picks in a sequence of length [n], and
    [np_random_choice k probs] the index [np.random.choice] samples.
    [np_sum] is numpy's float sum (its summation order is numpy's own),
    [np_power_normalized visits temperature] the normalized array
    [visits ** (1 / temperature)], and [now k] the [k]-th reading of
    [time.time()]. *)
Variable predict_policy_value : nat -> Board -> result (list float * float).
Variable np_random_random : nat -> Z -> list float.
Variable random_choice : nat -> nat -> nat.
Variable np_random_choice : nat -> list float -> result nat.
Variable np_sum : list float -> float.
Variable np_power_normalized : list Z -> float -> list float.
Variable now : nat -> float.

(** [self.c_puct]. *)
Variable c_puct : float.

Record state : Type := mkState {
  heap : list MCTSNode;
  ticks : nat;
  draws : nat
}.

(** State and exceptions; [None] means the model has no answer (a loop ran
    out of fuel, or an address is dangling). *)
Definition M (A : Type) : Type := state -> option (result A * state).

Definition ret {A} (a : A) : M A := fun st => Some (Ok a, st).
Definition raise {A} (e : exn) : M A := fun st => Some (Raise e, st).
Definition stuck {A} : M A := fun _ => None.
Definition bind {A B} (c : M A) (k : A -> M B) : M B :=
  fun st =>
    match c st with
    | Some (Ok a, st') => k a st'
    | Some (Raise e, st') => Some (Raise e, st')
    | None => None
    end.
Definition lift {A} (r : result A) : M A := fun st => Some (r, st).

Notation "'let!' x ':=' c 'in' k" := (bind c (fun x => k))
  (at level 10, x pattern, c at level 100, k at level 200).

(** [try: c except Exception: handler]. *)
Definition try_except {A} (c : M A) (handler : M A) : M A :=
  fun st =>
    match c st with
    | Some (Raise _, st') => handler st'
    | r => r
    end.

Definition read (ref : nat) : M MCTSNode :=
  fun st =>
    match heap st !! ref with
    | Some node => Some (Ok node, st)
    | None => None
    end.

Definition write (ref : nat) (f : MCTSNode -> MCTSNode) : M unit :=
  fun st =>
    match heap st !! ref with
    | Some node =>
        Some (Ok tt, mkState (<[ref := f node]> (heap st)) (ticks st) (draws st))
    | None => None
    end.

(** A new object: its address is the next free one. *)
Definition alloc (node : MCTSNode) : M nat :=
  fun st =>
    Some (Ok (length (heap st)),
          mkState (heap st ++ [node]) (ticks st) (draws st)).

Definition time_time : M float :=
  fun st => Some (Ok (now (ticks st)), mkState (heap st) (S (ticks st)) (draws st)).

(** One draw from the environment. *)
Definition draw : M nat :=
  fun st => Some (Ok (draws st), mkState (heap st) (ticks st) (S (draws st))).

Definition network_predict (board : Board) : M (list float * float) :=
  let! k := draw in lift (predict_policy_value k board).

(** [MCTSNode(board=..., parent=..., move=..., prior=...)]. *)
Definition new_node (board : Board) (parent : option nat) (move : option Move)
    (prior : float) : MCTSNode :=
  mkNode board parent move [] 0 0%float prior false.

Definition set_expanded (node : MCTSNode) : MCTSNode :=
  mkNode (node_board node) (parent node) (move node) (children node)
    (visits node) (value_sum node) (prior node) true.

Definition append_child (child : nat) (node : MCTSNode) : MCTSNode :=
  mkNode (node_board node) (parent node) (move node) (children node ++ [child])
    (visits node) (value_sum node) (prior node) (is_expanded node).

Definition add_visit (value : float) (node : MCTSNode) : MCTSNode :=
  mkNode (node_board node) (parent node) (move node) (children node)
    (visits node + 1) (value_sum node + value)%float (prior node)
    (is_expanded node).

(** The [value] property. *)
Definition node_value (node : MCTSNode) : result float :=
  if visits node =? 0 then Ok 0%float
  else let* n := float_of_Z (visits node) in Ok (value_sum node / n)%float.

Definition is_leaf (node : MCTSNode) : bool :=
  negb (is_expanded node) || (length (children node) =? 0)%nat.

(** [math.sqrt(n)] on an int. *)
Definition math_sqrt (n : Z) : result float :=
  let* x := float_of_Z n in
  if n <? 0 then Raise ValueError else Ok (PrimFloat.sqrt x).

(** The PUCT score of [child] under [node].  The division is a float by an
    int: the int is converted, and a zero divisor raises. *)
Definition puct_score (node child : MCTSNode) : result float :=
  if visits child =? 0 then Ok (prior child)
  else
    let* exploitation := node_value child in
    let* root_n := math_sqrt (visits node) in
    let* denominator := float_of_Z (1 + visits child) in
    if 1 + visits child =? 0 then Raise ZeroDivisionError
    else
      let exploration := (c_puct * prior child * root_n / denominator)%float in
      Ok (exploitation + exploration)%float.

Fixpoint select_loop (node : MCTSNode) (children : list nat)
    (best_child : option nat) (best_score : float) : M (option nat) :=
  match children with
  | [] => ret best_child
  | child :: children' =>
      let! child_node := read child in
      let! score := lift (puct_score node child_node) in
      if (best_score <? score)%float
      then select_loop node children' (Some child) score
      else select_loop node children' best_child best_score
  end.

Definition _select_child (ref : nat) : M nat :=
  let! node := read ref in
  match children node with
  | [] => ret ref
  | first :: _ =>
      let! best_child := select_loop node (children node) None neg_infinity in
      ret (default first best_child)
  end.

(** [np.array(policy) * legal_mask], with numpy's broadcasting of a
    one-element array. *)
Definition np_mul_mask (policy : list float) (mask : list bool)
  : result (list float) :=
  let times x (b : bool) := (x * (if b then 1 else 0))%float in
  if decide (length policy = length mask) then Ok (zip_with times policy mask)
  else match policy with
       | [x] => Ok (map (times x) mask)
       | _ => Raise ValueError
       end.

(** [obj.sum()]: a numpy array has the method, a Python list does not. *)
Definition sum_method (obj : pyobj) : result float :=
  match obj with
  | NdArray a => Ok (np_sum a)
  | PyList _ => Raise AttributeError
  end.

(** The normalization step of [_expand_node]. *)
Definition normalize_policy (legal_policy : list float) (legal_mask : list bool)
  : result (list float) :=
  let* total := sum_method (NdArray legal_policy) in
  if (0 <? total)%float then
    let* total := sum_method (NdArray legal_policy) in
    Ok (map (fun x => x / total)%float legal_policy)
  else
    let* total := sum_method (PyList legal_mask) in
    Raise TypeError.

(** The loop of [_expand_node] that creates the children. *)
Fixpoint add_children (ref : nat) (board : Board) (legal_policy : list float)
    (legal_moves : list Move) : M unit :=
  match legal_moves with
  | [] => ret tt
  | move :: legal_moves' =>
      let! move_id := lift (MoveIndex.to_id index move) in
      let! _ :=
        if 0 <=? move_id then
          let child_board := push board move in
          let! prior := lift (py_getitem legal_policy move_id) in
          let! child := alloc (new_node child_board (Some ref) (Some move) prior) in
          write ref (append_child child)
        else ret tt in
      add_children ref board legal_policy legal_moves'
  end.

Definition _expand_node (ref : nat) : M unit :=
  let! node := read ref in
  if is_expanded node || is_game_over (node_board node) then ret tt
  else
    let legal_moves := legal_moves (node_board node) in
    match legal_moves with
    | [] => write ref set_expanded
    | _ =>
        let! (policy, value) :=
          try_except (network_predict (node_board node))
            (let! k := draw in
             ret (np_random_random k (MoveIndex.action_space_size index),
                  0%float)) in
        let! legal_mask :=
          lift (MoveIndex.get_legal_move_mask index (node_board node)) in
        let! legal_policy := lift (np_mul_mask policy legal_mask) in
        let! legal_policy := lift (normalize_policy legal_policy legal_mask) in
        let! _ := add_children ref (node_board node) legal_policy legal_moves in
        write ref set_expanded
    end.

(** [_backup]: the walk up the [parent] addresses. *)
Fixpoint _backup (fuel : nat) (current : option nat) (value : float) : M unit :=
  match current with
  | None => ret tt
  | Some ref =>
      match fuel with
      | O => stuck
      | S fuel' =>
          let! _ := write ref (add_visit value) in
          let! node := read ref in
          _backup fuel' (parent node) (- value)%float
      end
  end.

(** The rollout loop of [_simulate]: [remaining] is [max_moves] minus
    [moves_played]. *)
Fixpoint rollout (remaining : nat) (board : Board) : M Board :=
  match remaining with
  | O => ret board
  | S remaining' =>
      if is_game_over board then ret board
      else
        match legal_moves board with
        | [] => ret board
        | legal_moves =>
            let! k := draw in
            let i := (random_choice k (length legal_moves)
                       `mod` length legal_moves)%nat in
            match legal_moves !! i with
            | Some move => rollout remaining' (push board move)
            | None => stuck
            end
        end
  end.

(** The game-theoretic or network value of a final position. *)
Definition terminal_value (board : Board) : float :=
  if turn board then (-1)%float else 1%float.

Definition _simulate (ref : nat) : M float :=
  let! node := read ref in
  let! board := rollout 50 (node_board node) in
  if is_checkmate board then ret (terminal_value board)
  else if is_stalemate board || is_insufficient_material board then ret 0%float
  else
    try_except
      (let! (_, value) := network_predict board in ret value)
      (ret 0%float).

(** The selection descent [while not node.is_leaf(): ...]. *)
Fixpoint descend (fuel : nat) (ref : nat) : M nat :=
  let! node := read ref in
  if is_leaf node then ret ref
  else
    match fuel with
    | O => stuck
    | S fuel' => let! child := _select_child ref in descend fuel' child
    end.

(** One pass of the body of the [while True] loop of [search], after the
    stopping conditions. *)
Definition simulation (root : nat) : M unit :=
  let! st := (fun st => Some (Ok st, st)) in
  let! ref := descend (length (heap st)) root in
  let! node := read ref in
  let! _ :=
    if negb (is_expanded node) && negb (is_game_over (node_board node))
    then _expand_node ref else ret tt in
  let! node := read ref in
  let! value :=
    if is_leaf node then
      if is_game_over (node_board node) then
        if is_checkmate (node_board node)
        then ret (terminal_value (node_board node))
        else ret 0%float
      else _simulate ref
    else
      try_except
        (let! (_, value) := network_predict (node_board node) in ret value)
        (ret 0%float) in
  _backup (S ref) (Some ref) value.

(** The [while True] loop; it returns the final [nodes_searched].  [fuel]
    bounds the number of passes. *)
Fixpoint search_loop (fuel : nat) (root : nat) (start_time max_time : float)
    (max_nodes : option Z) (nodes_searched : Z) : M Z :=
  match fuel with
  | O => stuck
  | S fuel' =>
      let! t := time_time in
      let elapsed := (t - start_time)%float in
      if (max_time <=? elapsed)%float then ret nodes_searched
      else
        let node_cap :=
          match max_nodes with
          | Some n => negb (n =? 0) && (n <=? nodes_searched)
          | None => false
          end in
        if node_cap then ret nodes_searched
        else
          let! _ := simulation root in
          search_loop fuel' root start_time max_time max_nodes
            (nodes_searched + 1)
  end.

Definition search (fuel : nat) (board : Board) (max_time : float)
    (max_nodes : option Z) : M nat :=
  let! root := alloc (new_node board None None 0%float) in
  let! _ := _expand_node root in
  let! start_time := time_time in
  let! _ := search_loop fuel root start_time max_time max_nodes 0 in
  ret root.

(** [max(nodes, key=lambda c: c.visits)]: the first of the maximal ones. *)
Fixpoint max_by_visits (best : MCTSNode) (rest : list MCTSNode) : MCTSNode :=
  match rest with
  | [] => best
  | c :: rest' =>
      if visits best <? visits c then max_by_visits c rest'
      else max_by_visits best rest'
  end.

(** The nodes at the addresses [refs]. *)
Fixpoint read_all (refs : list nat) : M (list MCTSNode) :=
  match refs with
  | [] => ret []
  | ref :: refs' =>
      let! node := read ref in
      let! nodes := read_all refs' in
      ret (node :: nodes)
  end.

Definition get_best_move (root : nat) (temperature : float)
  : M (option Move) :=
  let! root_node := read root in
  let! nodes := read_all (children root_node) in
  match nodes with
  | [] => ret None
  | first :: rest =>
      if (temperature =? 0)%float then
        let best_child := max_by_visits first rest in
        ret (move best_child)
      else
        let visits := map visits nodes in
        if foldr Z.add 0 visits =? 0 then ret (move first)
        else
          let probs := np_power_normalized visits temperature in
          let! k := draw in
          let! idx := lift (np_random_choice k probs) in
          let! best_child := lift (py_getitem nodes (Z.of_nat idx)) in
          ret (move best_child)
  end.

(** The tree is well formed: a node's parent has a smaller address, only
    address 0 (the root) has none, and children have larger addresses. *)
Definition wf (h : list MCTSNode) : Prop :=
  (forall ref node, h !! ref = Some node ->
     match parent node with
     | Some p => (p < ref)%nat
     | None => ref = 0%nat
     end) /\
  (forall ref node c, h !! ref = Some node -> c ∈ children node ->
     (ref < c < length h)%nat).

(** [root.visits]. *)
Definition root_visits (st : state) : option Z := visits <$> heap st !! 0%nat.

(** [c] keeps [P], whether it returns or raises. *)
Definition keeps {A} (P : state -> Prop) (c : M A) : Prop :=
  forall st r st', P st -> c st = Some (r, st') -> P st'.

(** [c] leaves the heap alone. *)
Definition reads_only {A} (c : M A) : Prop :=
  forall st r st', c st = Some (r, st') -> heap st' = heap st.

(** The invariant of one search: the tree is well formed, the root has been
    visited [n] times, and [ref] is an address in use. *)
Definition tree_inv (n : Z) (ref : nat) (st : state) : Prop :=
  wf (heap st) /\ root_visits st = Some n /\ (ref < length (heap st))%nat.

(** The state [search] starts in: an empty tree. *)
Definition initial : state := mkState [] 0 0.

End WithRules.

End MCTS.

(** * The rest of the time manager, the evaluator and the searches *)


Module TimeManagerParsing.
Import TimeManager Examples.

(** [s.split(sep)] for a one-character separator. *)
Fixpoint str_split (sep : ascii) (s : string) : list string :=
  match s with
  | EmptyString => [EmptyString]
  | String c s' =>
      if decide (c = sep) then EmptyString :: str_split sep s'
      else match str_split sep s' with
           | first :: rest => String c first :: rest
           | [] => [String c EmptyString]
           end
  end.

(** [c in s]. *)
Fixpoint str_contains (c : ascii) (s : string) : bool :=
  match s with
  | EmptyString => false
  | String c' s' => bool_decide (c' = c) || str_contains c s'
  end.

Definition plus_sign : ascii := ascii_of_nat 43.

Section WithFloatParser.

(** Python's [float(s)] on a string: a number or [ValueError]. *)
Variable py_float : string -> result float.

(** [_parse_time_control], reading [self.time_control = time_control].  The
    object is mutated in place, so the manager comes back also when the
    parse raises. *)
Definition _parse_time_control (self : t) (time_control : option string)
  : result unit * t :=
  match time_control with
  | None => (Ok tt, self)
  | Some tc =>
      if decide (tc = EmptyString) then (Ok tt, self)
      else if str_contains plus_sign tc then
        let parts := str_split plus_sign tc in
        match (let* p := py_getitem parts 0 in py_float p) with
        | Raise e => (Raise e, self)
        | Ok base =>
            let self := mk (Some base) (increment self) in
            match (let* p := py_getitem parts 1 in py_float p) with
            | Raise e => (Raise e, self)
            | Ok inc => (Ok tt, mk (time_left self) (Some inc))
            end
        end
      else
        match py_float tc with
        | Raise e => (Raise e, self)
        | Ok base => (Ok tt, mk (Some base) (Some 0%float))
        end
  end.

Definition set_time_control (self : t) (time_control : string)
  : result unit * t :=
  _parse_time_control self (Some time_control).

End WithFloatParser.

(** A stand-in for [float()] that knows the strings of the examples. *)
Definition example_float (s : string) : result float :=
  if decide (s = "300"%string) then Ok 300%float
  else if decide (s = "5"%string) then Ok 5%float
  else if decide (s = "60"%string) then Ok 60%float
  else Raise ValueError.

End TimeManagerParsing.

Module EvaluationChecks.
Import Evaluation Examples.

(** The round trip through [centipawns_to_value] and back. *)
Definition centipawn_round_trip_check (cp : Z) : bool :=
  match centipawns_to_value cp with
  | Ok v =>
      match value_to_centipawns v with
      | Ok cp' => (cp' =? cp) && ((-1 <=? v) && (v <=? 1))%float
      | Raise _ => false
      end
  | Raise _ => false
  end.

(** Every piece on the board has one of the six piece types. *)
Definition proper_pieces `{RE : RulesEngine} (board : Board) : Prop :=
  forall square piece, piece_at board square = Some piece ->
    1 <= piece_type piece <= 6.

Section WithRules.
Context `{RE : RulesEngine}.

(** The material loop of [evaluate_position] as a function of the board. *)
Definition material_body (board : Board) (square : Z) (material_score : Z)
  : result Z :=
  match piece_at board square with
  | Some piece =>
      let* value := py_dict_get piece_values (piece_type piece) in
      if color piece then Ok (material_score + value)
      else Ok (material_score - value)
  | None => Ok material_score
  end.

(** The material of one side on the given squares: the table values of its
    pieces, added up. *)
Definition material_on (board : Board) (side : bool) (squares : list Z) : Z :=
  foldr Z.add 0
    (map (fun square =>
            match piece_at board square with
            | Some piece =>
                if Bool.eqb (color piece) side
                then default 0 (piece_values !! piece_type piece) else 0
            | None => 0
            end) squares).

(** The material balance of a board: White's material minus Black's. *)
Definition material_balance (board : Board) : Z :=
  material_on board WHITE SQUARES - material_on board BLACK SQUARES.

End WithRules.

(** Boards as [evaluate_position] reads them: the pieces of an example
    position and the side to move, given apart.  The evaluation reads
    nothing else; the other operations are those of a board on which the
    game is not continued. *)
Definition sided_rules : RulesEngine := {|
  Board := position * bool;
  legal_moves _ := [];
  is_legal _ _ := false;
  is_legal_listed _ m := fun H => False_ind _ (proj1 (elem_of_nil m) H);
  push b _ := b;
  pop b := b;
  move_stack_len _ := 0;
  piece_at b := position_piece_at (fst b);
  turn b := snd b;
  is_capture _ _ := false;
  is_checkmate _ := false;
  is_stalemate _ := false;
  is_insufficient_material b := insufficient_material (fst b);
  is_game_over b := insufficient_material (fst b);
  fen b := position_fen (fst b)
|}.

End EvaluationChecks.

Module AlphaBetaBalance.
Import AlphaBeta Examples.

(** A rules engine whose [pop] undoes its [push]. *)
Class PushPop `{RE : RulesEngine} : Prop :=
  pop_push : forall (b : Board) (m : Move), pop (push b m) = b.

(** [c] hands the board back as it got it whenever it returns. *)
Definition restores `{RE : RulesEngine} {A} (c : M A) : Prop :=
  forall st a st', c st = (Ok a, st') -> board st' = board st.

End AlphaBetaBalance.

Module MCTSReadout.
Import MCTS Examples.

Section WithRules.
Context `{RE : RulesEngine}.

Notation "'let!' x ':=' c 'in' k" := (bind c (fun x => k))
  (at level 10, x pattern, c at level 100, k at level 200).

(** [max(children, key=lambda c: c.visits)] on addresses paired with their
    nodes: the first of the most visited. *)
Fixpoint argmax_visits (best : nat * MCTSNode) (rest : list (nat * MCTSNode))
  : nat * MCTSNode :=
  match rest with
  | [] => best
  | c :: rest' =>
      if visits (snd best) <? visits (snd c) then argmax_visits c rest'
      else argmax_visits best rest'
  end.

(** The loop of [get_principal_variation]; [remaining] counts what is left
    of [range(max_depth)]. *)
Fixpoint pv_loop (remaining : nat) (ref : nat) : M (list (option Move)) :=
  match remaining with
  | O => ret []
  | S remaining' =>
      let! node := read ref in
      let! nodes := read_all (children node) in
      match zip (children node) nodes with
      | [] => ret []
      | first :: rest =>
          let best := argmax_visits first rest in
          let! pv := pv_loop remaining' (fst best) in
          ret (move (snd best) :: pv)
      end
  end.

Definition get_principal_variation (root : nat) (max_depth : Z)
  : M (list (option Move)) :=
  pv_loop (Z.to_nat max_depth) root.

End WithRules.

(** The environment of the examples: a network that answers the same policy
    for every position, no randomness, a clock that stands still, and a
    left-to-right float sum standing in for numpy's. *)
Definition constant_network (p v : float) (k : nat) (board : example_board)
  : result (list float * float) :=
  Ok (replicate (Z.to_nat 20160) p, v).

Definition no_random (k : nat) (n : Z) : list float :=
  replicate (Z.to_nat n) 0.5%float.

Definition first_choice (k n : nat) : nat := 0%nat.

Definition sum_seq (a : list float) : float := foldl PrimFloat.add 0%float a.

(** [MCTSSearch(network).search(board, 1.0, max_nodes)] in that
    environment, on the position [7k/8/8/8/8/8/1q6/K7 w - - 0 1]. *)
Definition kqk_search (p v : float) (max_nodes : Z)
  : option (result nat * state (RE := example_rules)) :=
  search (RE := example_rules) MoveIndex.move_index (constant_network p v)
    no_random first_choice sum_seq AlphaBeta.clock0 1%float 10 kqk_board
    1%float (Some max_nodes) (initial (RE := example_rules)).

(** A root with three children visited 2, 5 and 5 times. *)
Definition three_children : state (RE := example_rules) :=
  let child m n :=
    mkNode (RE := example_rules) start_board (Some 0%nat) (Some m) [] n
      0%float 0%float false in
  mkState
    [ mkNode (RE := example_rules) start_board None None [1; 2; 3]%nat 12
        0%float 0%float true;
      child (mkMove 6 23 None) 2; child (mkMove 6 21 None) 5;
      child (mkMove 1 18 None) 5 ] 0 0.

End MCTSReadout.

(** * Facts about floats, the time manager and the evaluator *)

Module FloatFacts.

Lemma ltb_leb (x y : float) : (x <? y)%float = true -> (x <=? y)%float = true.
Proof.
  rewrite FloatAxioms.ltb_spec, FloatAxioms.leb_spec. unfold SFltb, SFleb.
  destruct (SFcompare _ _) as [[]|]; congruence.
Qed.

Lemma SFcompare_Lt_trans x y z :
  SFcompare x y = Some Lt -> SFcompare y z = Some Lt -> SFcompare x z = Some Lt.
Proof.
  destruct x as [sx|sx| |sx mx ex], y as [sy|sy| |sy my ey],
    z as [sz|sz| |sz mz ez]; simpl;
    try destruct sx; try destruct sy; try destruct sz; simpl;
    try congruence.
  all: destruct (Z.compare_spec ex ey), (Z.compare_spec ey ez),
         (Z.compare_spec ex ez); try congruence; try lia.
  all: subst; rewrite <- ?Pos.compare_cont_spec; simpl.
  all: fold (Pos.compare mx my); fold (Pos.compare my mz);
       fold (Pos.compare mx mz).
  all: destruct (Pos.compare_spec mx my), (Pos.compare_spec my mz),
         (Pos.compare_spec mx mz); simpl; try congruence; try lia.
Qed.

Lemma ltb_trans (x y z : float) :
  (x <? y)%float = true -> (y <? z)%float = true -> (x <? z)%float = true.
Proof.
  rewrite !FloatAxioms.ltb_spec. unfold SFltb.
  destruct (SFcompare (Prim2SF x) (Prim2SF y)) as [[]|] eqn:E1; try done.
  destruct (SFcompare (Prim2SF y) (Prim2SF z)) as [[]|] eqn:E2; try done.
  by rewrite (SFcompare_Lt_trans _ _ _ E1 E2).
Qed.

End FloatFacts.

Module TimeManagerProofs.
Import TimeManager FloatFacts.

Lemma py_max_lower (a b : float) :
  (a <=? a)%float = true -> (a <=? py_max a b)%float = true.
Proof.
  intros Ha. unfold py_max. destruct (a <? b)%float eqn:E; [|done].
  by apply ltb_leb.
Qed.

Lemma py_max_above (x a b : float) :
  (x <? a)%float = true -> (x <? py_max a b)%float = true.
Proof.
  intros Hx. unfold py_max. destruct (a <? b)%float eqn:E; [|done].
  by eapply ltb_trans.
Qed.

(** C10, as amended: for a parsed or absent time control and a
    [moves_remaining] that is absent or converts to a float,
    [get_time_budget] returns a budget of at least 0.1 seconds, which exceeds
    a remaining time below 0.1 seconds. *)
Theorem get_time_budget_minimum (self : t) (moves_remaining : option Z) :
  parsed_or_absent self ->
  is_Ok (float_of_Z (Z.max 1 (default 20 moves_remaining))) ->
  exists budget, get_time_budget self moves_remaining = Ok budget /\
    (0.1 <=? budget)%float = true /\
    (forall remaining, time_left self = Some remaining ->
       (remaining <? 0.1)%float = true -> (remaining <? budget)%float = true).
Proof.
  intros Hstate [divisor Hdiv]. unfold get_time_budget, parsed_or_absent in *.
  destruct (time_left self) as [tl|] eqn:Etl.
  - destruct Hstate as [[=]|[inc Hinc]]. rewrite Hinc. simpl in Hdiv |- *.
    rewrite Hdiv. simpl.
    eexists. split; [reflexivity|]. split.
    + by apply py_max_lower.
    + intros remaining [= <-] Hlow. by apply py_max_above.
  - exists 5%float. split_and!; [done|done|]. intros remaining [=].
Qed.

Lemma get_time_budget_minimum_witness :
  exists budget,
    get_time_budget (parsed 0.05 0) (Some 40) = Ok budget /\
    (0.1 <=? budget)%float = true /\
    (forall remaining, time_left (parsed 0.05 0) = Some remaining ->
       (remaining <? 0.1)%float = true -> (remaining <? budget)%float = true).
Proof.
  apply get_time_budget_minimum.
  - right. by eexists.
  - eexists. vm_compute. reflexivity.
Defined.

(** C10 as stated fails: an int too large for a float makes the division
    raise instead of returning a budget. *)
Lemma get_time_budget_overflow :
  get_time_budget (parsed 300 5) (Some (2 ^ 1024)) = Raise OverflowError.
Proof. vm_compute. reflexivity. Qed.

(** Outside the parsed-or-absent states: [update_time] on a manager that
    never parsed a time control leaves [increment] unset. *)
Lemma get_time_budget_unparsed :
  get_time_budget (update_time __init__ 3) None = Raise TypeError.
Proof. vm_compute. reflexivity. Qed.

Example get_time_budget_300_5 :
  get_time_budget (parsed 300 5) None = Ok 16%float.
Proof. vm_compute. reflexivity. Qed.

End TimeManagerProofs.

Module EvaluationProofs.
Import Evaluation Examples.

Lemma value_in_range_all : forallb value_in_range (seqZ (-1000) 2001) = true.
Proof. vm_compute. reflexivity. Qed.

Lemma centipawns_to_value_clamp cp :
  centipawns_to_value cp = centipawns_to_value (Z.max (-1000) (Z.min 1000 cp)).
Proof. unfold centipawns_to_value. f_equal. f_equal. lia. Qed.

(** The value half of the evaluation bounds: every centipawn score maps to a
    float in [[-1, 1]]. *)
Lemma centipawns_to_value_bounds cp :
  exists v, centipawns_to_value cp = Ok v /\
            (-1 <=? v)%float = true /\ (v <=? 1)%float = true.
Proof.
  rewrite centipawns_to_value_clamp.
  pose proof value_in_range_all as H. rewrite forallb_forall in H.
  specialize (H (Z.max (-1000) (Z.min 1000 cp))).
  unfold value_in_range in H.
  destruct (centipawns_to_value _) as [v|].
  - exists v. split; [done|]. apply andb_true_iff. apply H.
    apply list_elem_of_In, elem_of_seqZ. lia.
  - discriminate H. apply list_elem_of_In, elem_of_seqZ. lia.
Qed.

(** C5 fails on the code: on the lone white king of the test suite
    ([8/8/8/8/8/8/8/4K3 w - - 0 1]) the value is 1.0 but the centipawn score
    returned with it is the raw material count 20000. *)
Theorem evaluate_position_lone_king :
  evaluate_position lone_king_board = Ok (1%float, 20000).
Proof. vm_compute. reflexivity. Qed.

Example evaluate_position_start :
  evaluate_position start_board = Ok (0%float, 0).
Proof. vm_compute. reflexivity. Qed.

Example evaluate_position_kqk :
  evaluate_position kqk_board = Ok ((-0.9)%float, -900).
Proof. vm_compute. reflexivity. Qed.

End EvaluationProofs.

(** * Facts about the move index *)

Module MoveIndexProofs.
Import MoveIndex Examples.

Lemma rbind_Ok {A B} (r : result A) (k : A -> result B) b :
  rbind r k = Ok b <-> exists a, r = Ok a /\ k a = Ok b.
Proof.
  destruct r as [a|e]; simpl; split.
  - eauto.
  - intros (a' & [= ->] & H); done.
  - done.
  - intros (a' & [=] & _).
Qed.

(** Hoare-style rule for a [for] loop: [I] is the loop invariant, [R] relates
    the state before and after (a preorder), and [Q x] is what the iteration
    for [x] establishes and later iterations keep. *)
Lemma for_each_spec {A S} (I : S -> Prop) (R : S -> S -> Prop)
    (Q : A -> S -> Prop) (xs : list A) (body : A -> S -> result S) (s : S) :
  (forall s, R s s) ->
  (forall s1 s2 s3, R s1 s2 -> R s2 s3 -> R s1 s3) ->
  (forall x s s', Q x s -> R s s' -> Q x s') ->
  (forall x s, x ∈ xs -> I s ->
     exists s', body x s = Ok s' /\ I s' /\ R s s' /\ Q x s') ->
  I s ->
  exists s', for_each xs body s = Ok s' /\ I s' /\ R s s' /\
             forall x, x ∈ xs -> Q x s'.
Proof.
  intros Hrefl Htrans Hstable.
  revert s. induction xs as [|x xs IH]; intros s Hbody HI.
  - exists s. split_and!; [done..|]. intros x Hx. by apply elem_of_nil in Hx.
  - destruct (Hbody x s) as (s1 & E1 & HI1 & HR1 & HQ1); [left|done|].
    destruct (IH s1) as (s2 & E2 & HI2 & HR2 & HQ2).
    { intros y s' Hy. apply Hbody. by right. }
    { done. }
    exists s2. split_and!.
    + simpl. by rewrite E1.
    + done.
    + by eapply Htrans.
    + intros y [->|Hy]%elem_of_cons; [by eapply Hstable|by apply HQ2].
Qed.

Lemma extends_refl self : extends self self.
Proof. by intros s id. Qed.

Lemma extends_trans s1 s2 s3 : extends s1 s2 -> extends s2 s3 -> extends s1 s3.
Proof. intros H12 H23 s id H. by apply H23, H12. Qed.

Lemma covers_extends self self' f t p :
  covers self f t p -> extends self self' -> covers self' f t p.
Proof. intros (s & id & E & L) Hext. exists s, id. split; [done|by apply Hext]. Qed.

Lemma Inv_empty : Inv empty_index.
Proof.
  split; simpl.
  - intros s id. by rewrite !lookup_empty.
  - lia.
  - intros id. rewrite lookup_empty. split; [by intros [? [=]]|lia].
  - intros s id. by rewrite lookup_empty.
Qed.

Lemma registered_shape_wf m : registered_shape m -> wf_move m.
Proof.
  intros (Hf & Ht & _ & Hp). split_and!; [lia..|].
  unfold promotion_choices, all_promotions in *.
  rewrite !elem_of_cons, elem_of_nil in Hp. rewrite !elem_of_cons.
  destruct Hp as [->|[->|[->|[->|[->|[]]]]]]; auto 10.
Qed.

Lemma shape_roundtrip_all :
  forallb (fun f => forallb (fun t =>
    forallb (shape_roundtrip_check f t) all_promotions) (range 64)) (range 64)
  = true.
Proof. vm_compute. reflexivity. Qed.

(** Parsing the string of a well-formed move gives the move back. *)
Lemma move_to_string_parse m :
  wf_move m ->
  exists s, _move_to_string (from_square m) (to_square m) (promotion m) = Ok s /\
            parse_move s = Ok (Some m).
Proof.
  destruct m as [f t p]. intros (Hf & Ht & Hp); simpl in *.
  pose proof shape_roundtrip_all as H.
  assert (forall x, 0 <= x < 64 -> In x (range 64)) as Hin.
  { intros x Hx. apply list_elem_of_In, elem_of_seqZ. lia. }
  rewrite forallb_forall in H. specialize (H f (Hin f Hf)).
  rewrite forallb_forall in H. specialize (H t (Hin t Ht)).
  rewrite forallb_forall in H.
  specialize (H p (proj1 (list_elem_of_In _ _) Hp)).
  unfold shape_roundtrip_check in H.
  destruct (_move_to_string f t p) as [s|]; [|done].
  exists s. split; [done|]. by apply bool_decide_eq_true in H.
Qed.

(** Hence [_move_to_string] is injective on well-formed moves. *)
Lemma move_to_string_inj m1 m2 s :
  wf_move m1 -> wf_move m2 ->
  _move_to_string (from_square m1) (to_square m1) (promotion m1) = Ok s ->
  _move_to_string (from_square m2) (to_square m2) (promotion m2) = Ok s ->
  m1 = m2.
Proof.
  intros H1 H2 E1 E2.
  destruct (move_to_string_parse m1 H1) as (s1 & E1' & P1).
  destruct (move_to_string_parse m2 H2) as (s2 & E2' & P2).
  congruence.
Qed.

Lemma register_shape_spec f t p self :
  registered_shape (mkMove f t p) -> Inv self ->
  exists self', register_shape f t p self = Ok self' /\ Inv self' /\
                extends self self' /\ covers self' f t p.
Proof.
  intros Hshape HI.
  destruct (move_to_string_parse _ (registered_shape_wf _ Hshape))
    as (ms & Ems & _); simpl in Ems.
  unfold register_shape. rewrite Ems; simpl.
  destruct (_move_to_id self !! ms) as [id|] eqn:L.
  { exists self. split_and!; [done|done|apply extends_refl|by exists ms, id]. }
  eexists. split; [done|].
  assert (_id_to_move self !! _next_id self = None) as Lnext.
  { apply eq_None_not_Some. rewrite (inv_ids _ HI). lia. }
  split_and!.
  - split; simpl.
    + intros s id.
      destruct (decide (s = ms)) as [->|Hs];
        destruct (decide (id = _next_id self)) as [->|Hid].
      * by rewrite !lookup_insert_eq.
      * rewrite lookup_insert_eq, lookup_insert_ne by done.
        split; [congruence|]. intros Hid'%(inv_inverse _ HI). congruence.
      * rewrite lookup_insert_ne, lookup_insert_eq by done.
        split; [|congruence]. intros Hs'%(inv_inverse _ HI). congruence.
      * rewrite !lookup_insert_ne by done. apply (inv_inverse _ HI).
    + pose proof (inv_next _ HI). lia.
    + intros id. rewrite lookup_insert. case_decide; subst.
      * pose proof (inv_next _ HI). split; [lia|eauto].
      * rewrite (inv_ids _ HI). lia.
    + intros s id. rewrite lookup_insert. case_decide; subst.
      * intros _. by exists (mkMove f t p).
      * apply (inv_shapes _ HI).
  - intros s id Hs. simpl. rewrite lookup_insert_ne; [done|congruence].
  - exists ms, (_next_id self). split; [done|]. simpl. by rewrite lookup_insert_eq.
Qed.


Lemma generate_all_moves_spec self :
  Inv self ->
  exists self', _generate_all_moves self = Ok self' /\ Inv self' /\
    extends self self' /\
    forall m, registered_shape m ->
      covers self' (from_square m) (to_square m) (promotion m).
Proof.
  intros HI. unfold _generate_all_moves.
  destruct (for_each_spec Inv extends
    (fun f s => forall t p, 0 <= t < 64 -> f <> t -> p ∈ promotion_choices ->
                            covers s f t p)
    (range 64)
    (fun from_square self =>
      for_each (range 64) (fun to_square self =>
        if decide (from_square = to_square) then Ok self
        else
          for_each promotion_choices (fun piece_type self =>
            register_shape from_square to_square piece_type self) self) self)
    self) as (self' & E & HI' & Hext & Hcov).
  - apply extends_refl.
  - apply extends_trans.
  - intros f s s' HQ Hss' t p Ht Hne Hp. eapply covers_extends; eauto.
  - intros f s Hf%elem_of_seqZ HIs.
    destruct (for_each_spec Inv extends
      (fun t s => f <> t -> forall p, p ∈ promotion_choices -> covers s f t p)
      (range 64)
      (fun to_square self =>
        if decide (f = to_square) then Ok self
        else
          for_each promotion_choices (fun piece_type self =>
            register_shape f to_square piece_type self) self)
      s) as (s' & E & HI' & Hext & Hcov).
    + apply extends_refl.
    + apply extends_trans.
    + intros t s1 s2 HQ H12 Hne p Hp. eapply covers_extends; eauto.
    + intros t s1 Ht%elem_of_seqZ HI1. case_decide as Hft.
      { exists s1. split_and!; [done|done|apply extends_refl|done]. }
      destruct (for_each_spec Inv extends (fun p s => covers s f t p)
        promotion_choices
        (fun piece_type self => register_shape f t piece_type self) s1)
        as (s2 & E & HI2 & Hext & Hcov).
      * apply extends_refl.
      * apply extends_trans.
      * intros p sa sb HQ Hab. eapply covers_extends; eauto.
      * intros p sa Hp HIa. apply register_shape_spec; [|done].
        split_and!; simpl; [lia..|done|done].
      * done.
      * exists s2. split_and!; [done|done|done|]. intros _. apply Hcov.
    + done.
    + exists s'. split_and!; [done|done|done|].
      intros t p Ht Hne Hp. apply Hcov; [|done|done].
      apply elem_of_seqZ. lia.
  - done.
  - exists self'. split_and!; [done|done|done|].
    intros [f t p] (Hf & Ht & Hne & Hp); simpl in Hf, Ht, Hne, Hp |- *.
    apply Hcov; [|done..]. apply elem_of_seqZ. lia.
Qed.

Lemma init_ok : __init__ = Ok move_index.
Proof.
  with_strategy transparent [move_index] unfold move_index. unfold __init__.
  destruct (generate_all_moves_spec _ Inv_empty) as (self' & -> & _). done.
Qed.

Lemma move_index_Inv : Inv move_index.
Proof.
  pose proof init_ok as E. unfold __init__ in E.
  destruct (generate_all_moves_spec _ Inv_empty) as (self' & E' & HI & _).
  congruence.
Qed.

Lemma move_index_covers m :
  registered_shape m ->
  covers move_index (from_square m) (to_square m) (promotion m).
Proof.
  pose proof init_ok as E. unfold __init__ in E.
  destruct (generate_all_moves_spec _ Inv_empty) as (self' & E' & _ & _ & Hc).
  assert (self' = move_index) as -> by congruence. apply Hc.
Qed.

(** There are [64 * 63 * 5] registered shapes. *)
Lemma action_space_size_value : action_space_size move_index = 20160.
Proof. vm_compute. reflexivity. Qed.

Lemma popcount_insert_true (mask : list bool) (i : nat) :
  mask !! i = Some false ->
  popcount (<[i := true]> mask) = S (popcount mask).
Proof.
  unfold popcount. revert i. induction mask as [|b mask IH]; intros [|i]; simpl.
  - done.
  - done.
  - intros [= ->]. rewrite !filter_cons. simpl.
    repeat case_decide; simpl; congruence.
  - intros L. rewrite !filter_cons. case_decide; simpl; rewrite IH; done.
Qed.

Lemma popcount_replicate_false n : popcount (replicate n false) = 0%nat.
Proof.
  unfold popcount. induction n as [|n IH]; simpl; [done|].
  rewrite filter_cons. by case_decide.
Qed.

(** The facts below hold of any index that satisfies the construction
    invariant and covers the registered shapes; [move_index] is one. *)
Section Index.
Variable self : t.
Hypothesis HI : Inv self.
Hypothesis Hcov : forall m, registered_shape m ->
  covers self (from_square m) (to_square m) (promotion m).

(** [to_id] on a registered shape: the id is in range and maps back to the
    move's string. *)
Lemma to_id_registered m :
  registered_shape m ->
  exists s id,
    _move_to_string (from_square m) (to_square m) (promotion m) = Ok s /\
    to_id self m = Ok id /\ 0 <= id < action_space_size self /\
    _id_to_move self !! id = Some s.
Proof.
  intros Hm. destruct (Hcov m Hm) as (s & id & Es & L).
  exists s, id. unfold to_id. rewrite Es; simpl. rewrite L; simpl.
  pose proof HI as HI.
  apply (inv_inverse _ HI) in L.
  assert (0 <= id < action_space_size self) as Hid.
  { apply (inv_ids _ HI). eauto. }
  split_and!; [done|done|lia|lia|done].
Qed.


Lemma to_id_inj m1 m2 id :
  registered_shape m1 -> registered_shape m2 ->
  to_id self m1 = Ok id -> to_id self m2 = Ok id -> m1 = m2.
Proof.
  intros H1 H2 E1 E2.
  destruct (to_id_registered m1 H1) as (s1 & id1 & Es1 & Ei1 & _ & L1).
  destruct (to_id_registered m2 H2) as (s2 & id2 & Es2 & Ei2 & _ & L2).
  assert (s1 = s2) as -> by congruence.
  eapply move_to_string_inj; eauto using registered_shape_wf.
Qed.

(** The string stored under an id parses back to a registered shape whose id
    it is. *)
Lemma id_to_move_parse id s :
  _id_to_move self !! id = Some s ->
  exists m, parse_move s = Ok (Some m) /\ registered_shape m /\
            to_id self m = Ok id.
Proof.
  intros L. pose proof HI as HI.
  apply (inv_inverse _ HI) in L.
  destruct (inv_shapes _ HI _ _ L) as (m & Hm & Es).
  destruct (move_to_string_parse m (registered_shape_wf _ Hm)) as (s' & Es' & Hp).
  assert (s' = s) as -> by congruence.
  exists m. split_and!; [done..|]. unfold to_id. rewrite Es; simpl. by rewrite L.
Qed.

Section WithRules.
Context `{RE : RulesEngine}.

Lemma from_id_spec (move_id : Z) (board : Board) :
  exists r, from_id self move_id board = Ok r /\
    (forall m, r = Some m <->
       is_legal board m = true /\ registered_shape m /\
       to_id self m = Ok move_id) /\
    (~ 0 <= move_id < action_space_size self -> r = None).
Proof.
  unfold from_id.
  destruct (_id_to_move self !! move_id) as [s|] eqn:L.
  - destruct (id_to_move_parse _ _ L) as (m0 & -> & Hm0 & Eid); simpl.
    assert (0 <= move_id < action_space_size self) as Hrange.
    { apply (inv_ids _ HI). eauto. }
    destruct (is_legal board m0) eqn:Hlegal; eexists; (split; [done|]); split.
    + intros m. split.
      * intros [= <-]. done.
      * intros (_ & Hm & Eid'). f_equal. eapply to_id_inj; eauto.
    + intros Hn. by destruct Hn.
    + intros m. split; [done|]. intros (Hl & Hm & Eid').
      rewrite (to_id_inj _ _ _ Hm Hm0 Eid' Eid) in Hl. congruence.
    + done.
  - exists None. split; [done|]. split; [|done].
    intros m. split; [done|]. intros (_ & Hm & Eid).
    destruct (to_id_registered m Hm) as (s & id & _ & Eid' & _ & L').
    congruence.
Qed.

End WithRules.

Lemma mask_loop (ms : list Move) : forall (done : list Move) (mask : list bool),
  (forall m, m ∈ ms -> registered_shape m) ->
  (forall m, m ∈ done -> registered_shape m) ->
  NoDup ms -> (forall m, m ∈ ms -> m ∉ done) ->
  mask_inv self done mask ->
  exists mask', for_each ms (mask_body self) mask = Ok mask' /\
                mask_inv self (done ++ ms) mask'.
Proof.
  induction ms as [|m ms IH]; intros done mask Hms Hdone Hnd Hfresh Hinv.
  { exists mask. by rewrite app_nil_r. }
  apply NoDup_cons in Hnd as [Hm_ms Hnd].
  destruct (to_id_registered m) as (s & id & _ & Eid & Hid & _).
  { apply Hms. left. }
  destruct Hinv as (Hlen & Hpop & Htrue).
  assert (Z.to_nat id < length mask)%nat as Hlt by lia.
  destruct (lookup_lt_is_Some_2 mask _ Hlt) as [b Hb].
  assert (b = false) as ->.
  { destruct b; [|done]. apply Htrue in Hb as (m' & Hm' & Eid').
    rewrite Z2Nat.id in Eid' by lia.
    assert (registered_shape m) as Hm by (apply Hms; left).
    assert (m' = m) as -> by (eapply to_id_inj; eauto).
    destruct (Hfresh m); [left|done]. }
  destruct (IH (done ++ [m]) (<[Z.to_nat id := true]> mask))
    as (mask' & E & Hinv').
  - intros m' Hm'. apply Hms. by right.
  - intros m' [Hm'|Hm']%elem_of_app; [by apply Hdone|].
    apply list_elem_of_singleton in Hm' as ->. apply Hms. left.
  - done.
  - intros m' Hm' [Hd|Hd]%elem_of_app.
    + eapply Hfresh; [right|]; done.
    + apply list_elem_of_singleton in Hd as ->. done.
  - split_and!.
    + by rewrite length_insert.
    + rewrite popcount_insert_true by done. rewrite length_app; simpl. lia.
    + intros i. destruct (decide (i = Z.to_nat id)) as [->|Hne].
      * rewrite list_lookup_insert_eq by done. split; [intros _|done].
        exists m. rewrite Z2Nat.id by lia. split; [|done].
        apply elem_of_app. right. left.
      * rewrite list_lookup_insert_ne by done. rewrite Htrue.
        split; intros (m' & Hm' & Eid').
        -- exists m'. split; [|done]. apply elem_of_app. by left.
        -- apply elem_of_app in Hm' as [Hm'|Hm']; [by exists m'|].
           apply list_elem_of_singleton in Hm' as ->.
           assert (id = Z.of_nat i) by congruence. lia.
  - exists mask'. split.
    + simpl. unfold mask_body at 1. rewrite Eid; simpl.
      destruct (Z.leb_spec 0 id); [|lia]. unfold set_true.
      destruct (Z.leb_spec 0 id); [|lia].
      destruct (Z.ltb_spec id (Z.of_nat (length mask))); [|lia]. simpl. done.
    + by rewrite <- app_assoc in Hinv'.
Qed.

Section WithChess.
Context `{CM : ChessMoves}.

Lemma get_legal_move_mask_spec (board : Board) :
  exists mask, get_legal_move_mask self board = Ok mask /\
               mask_inv self (legal_moves board) mask.
Proof.
  unfold get_legal_move_mask.
  destruct (mask_loop (legal_moves board) []
              (replicate (Z.to_nat (action_space_size self)) false))
    as (mask & E & Hinv).
  - apply legal_moves_shape.
  - intros m Hm. by apply elem_of_nil in Hm.
  - apply legal_moves_NoDup.
  - intros m _ Hm. by apply elem_of_nil in Hm.
  - split_and!.
    + by rewrite length_replicate.
    + apply popcount_replicate_false.
    + intros i. split.
      * intros [[=] _]%lookup_replicate.
      * intros (m & Hm & _). by apply elem_of_nil in Hm.
  - exists mask. split; [exact E|done].
Qed.

End WithChess.

End Index.

#[export] Instance example_chess_moves : ChessMoves (RE := example_rules).
Proof.
  split.
  - intros b m. simpl. revert m. apply Forall_forall.
    destruct (cur b); by_compute.
  - intros b. simpl. destruct (cur b); by_compute.
Qed.

Section WithChess.
Context `{CM : ChessMoves}.


(** C7.  The mask has one [True] per legal move, at that move's id. *)
Theorem legal_move_mask_popcount (board : Board) :
  exists mask, get_legal_move_mask move_index board = Ok mask /\
    Z.of_nat (length mask) = 20160 /\
    popcount mask = length (legal_moves board) /\
    (forall m, m ∈ legal_moves board ->
       exists id, to_id move_index m = Ok id /\ 0 <= id /\
                  mask !! Z.to_nat id = Some true).
Proof.
  pose proof move_index_Inv as HI. pose proof move_index_covers as Hcov.
  destruct (get_legal_move_mask_spec _ HI Hcov board)
    as (mask & E & Hlen & Hpop & Htrue).
  exists mask. split_and!; [exact E| |exact Hpop|].
  - rewrite Hlen, action_space_size_value. lia.
  - intros m Hm.
    destruct (to_id_registered _ HI Hcov m (legal_moves_shape _ _ Hm))
      as (s & id & _ & Eid & Hid & _).
    exists id. split_and!; [exact Eid|lia|]. apply Htrue. exists m.
    rewrite Z2Nat.id by lia. split; [exact Hm|exact Eid].
Qed.

End WithChess.



(** On the castling position [from_id] answers the king-takes-rook spelling
    for id 1290, a move that the board accepts and does not list. *)
Example from_id_castling_spelling :
  from_id (RE := CastlingExample.castling_rules) move_index 1290 tt
    = Ok (Some CastlingExample.e1h1) /\
  (CastlingExample.e1h1 ∉ CastlingExample.castling_moves) /\
  from_id (RE := CastlingExample.castling_rules) move_index 1285 tt
    = Ok (Some CastlingExample.e1g1).
Proof. split; [by_compute|]. split; by_compute. Qed.

Lemma legal_move_mask_popcount_witness :
  exists mask, get_legal_move_mask move_index start_board = Ok mask /\
    Z.of_nat (length mask) = 20160 /\
    popcount mask = 20%nat /\
    (forall m, m ∈ legal_moves start_board ->
       exists id, to_id move_index m = Ok id /\ 0 <= id /\
                  mask !! Z.to_nat id = Some true).
Proof. exact (legal_move_mask_popcount (CM := example_chess_moves) start_board). Defined.

Section WithRules.
Context `{RE : RulesEngine}.


End WithRules.

End MoveIndexProofs.

(** * Facts about the alpha-beta searcher *)

Module AlphaBetaProofs.
Import AlphaBeta Examples.

Section WithRules.
Context `{RE : RulesEngine}.
Variable evaluator : Board -> result (float * Z).
Variable now : nat -> float.

Lemma bind_inv {A B} (c : M A) (k : A -> M B) st r st' :
  bind c k st = (r, st') ->
  (exists a st1, c st = (Ok a, st1) /\ k a st1 = (r, st')) \/
  (exists e, c st = (Raise e, st') /\ r = Raise e).
Proof.
  unfold bind. destruct (c st) as [[a|e] st1]; intros E.
  - left. eauto.
  - right. exists e. by injection E as <- <-.
Qed.

Section Preserves.
Variable P : state -> Prop.

Lemma preserves_ret {A} (a : A) : preserves P (ret a).
Proof. intros st r st' HP [= _ <-]. done. Qed.

Lemma preserves_raise {A} e : preserves P (raise (A := A) e).
Proof. intros st r st' HP [= _ <-]. done. Qed.

Lemma preserves_lift {A} (x : result A) : preserves P (lift x).
Proof. intros st r st' HP [= _ <-]. done. Qed.

Lemma preserves_get : preserves P get.
Proof. intros st r st' HP [= _ <-]. done. Qed.

Lemma preserves_modify f :
  (forall st, P st -> P (f st)) -> preserves P (modify f).
Proof. intros Hf st r st' HP [= _ <-]. by apply Hf. Qed.

Lemma preserves_bind {A B} (c : M A) (k : A -> M B) :
  preserves P c -> (forall a, preserves P (k a)) -> preserves P (bind c k).
Proof.
  intros Hc Hk st r st' HP [(a & st1 & E1 & E2)|(e & E1 & _)]%bind_inv.
  - eapply Hk; [|exact E2]. eapply Hc; eauto.
  - eapply Hc; eauto.
Qed.

End Preserves.

Lemma killers_bounded_set_board b st :
  killers_bounded st -> killers_bounded (set_board b st).
Proof. done. Qed.

Lemma killers_bounded_time_time : preserves killers_bounded (time_time now).
Proof. intros st r st' HP [= _ <-]. done. Qed.

Lemma killers_bounded_evaluate : preserves killers_bounded (evaluate evaluator).
Proof.
  unfold evaluate. apply preserves_bind; [apply preserves_get|]. intros st.
  apply preserves_bind; [apply preserves_lift|]. intros r. apply preserves_ret.
Qed.

Lemma killers_bounded_order_moves moves :
  preserves killers_bounded (_order_moves moves).
Proof.
  unfold _order_moves. apply preserves_bind; [apply preserves_get|].
  intros st. apply preserves_ret.
Qed.

Lemma length_removelast {A} (l : list A) :
  length (removelast l) = pred (length l).
Proof.
  rewrite removelast_firstn_len, length_take. lia.
Qed.

(** What [_store_killer_move] leaves at its key: the move is in the list,
    and the list is no longer than two when the old one was not. *)
Lemma store_killer_move_spec move d st :
  killers_bounded st ->
  exists l, _store_killer_move move d st =
              (Ok tt, set_killer_moves (<[d := l]> (killer_moves st)) st) /\
            move ∈ l /\ (length l <= 2)%nat.
Proof.
  intros Hb. unfold _store_killer_move, modify.
  set (old := default [] (killer_moves st !! d)).
  assert (length old <= 2)%nat as Hold.
  { unfold old. destruct (killer_moves st !! d) as [l|] eqn:E; simpl.
    - by eapply Hb.
    - lia. }
  eexists. split; [reflexivity|].
  case_bool_decide as Hin; [done|].
  destruct (Nat.ltb_spec 2 (length (move :: old))) as [Hlong|Hshort].
  - split.
    + destruct old as [|x old']; simpl in *; [lia|]. left.
    + rewrite length_removelast. simpl in *. lia.
  - split; [left|done].
Qed.

Lemma killers_bounded_store move d :
  preserves killers_bounded (_store_killer_move move d).
Proof.
  intros st r st' Hb E.
  destruct (store_killer_move_spec move d st Hb) as (l & E' & _ & Hl).
  rewrite E' in E. injection E as _ <-.
  intros d' l'. simpl. rewrite lookup_insert. case_decide.
  - intros [= <-]. done.
  - apply Hb.
Qed.

Lemma killers_bounded_quiescence_loop child beta :
  (forall a b, preserves killers_bounded (child a b)) ->
  forall captures alpha,
    preserves killers_bounded (quiescence_loop child beta captures alpha).
Proof.
  intros Hchild. induction captures as [|move captures IH]; intros alpha; simpl.
  { apply preserves_ret. }
  apply preserves_bind; [by apply preserves_modify|]. intros _.
  apply preserves_bind; [apply Hchild|]. intros r.
  apply preserves_bind; [by apply preserves_modify|]. intros _.
  destruct (beta <=? - r)%float; [apply preserves_ret|apply IH].
Qed.

Lemma killers_bounded_quiescence fuel : forall alpha beta depth max_depth,
  preserves killers_bounded
    (_quiescence_search evaluator fuel alpha beta depth max_depth).
Proof.
  induction fuel as [|fuel IH]; intros alpha beta depth max_depth; simpl.
  { apply preserves_raise. }
  destruct (max_depth <=? depth); [apply killers_bounded_evaluate|].
  apply preserves_bind; [apply killers_bounded_evaluate|]. intros stand_pat.
  destruct (beta <=? stand_pat)%float; [apply preserves_ret|].
  apply preserves_bind; [apply preserves_get|]. intros st.
  apply preserves_bind; [apply killers_bounded_order_moves|]. intros captures.
  apply killers_bounded_quiescence_loop. intros a b. apply IH.
Qed.

Lemma killers_bounded_alpha_beta_loop child beta :
  (forall a b, preserves killers_bounded (child a b)) ->
  forall moves v,
    preserves killers_bounded (alpha_beta_loop child beta moves v).
Proof.
  intros Hchild. induction moves as [|move moves IH]; intros v; simpl.
  { apply preserves_ret. }
  apply preserves_bind; [by apply preserves_modify|]. intros _.
  apply preserves_bind; [apply Hchild|]. intros r.
  apply preserves_bind; [by apply preserves_modify|]. intros _.
  destruct (beta <=? - r)%float; [|apply IH].
  apply preserves_bind; [apply preserves_get|]. intros st.
  apply preserves_bind; [apply killers_bounded_store|]. intros _.
  apply preserves_ret.
Qed.

Lemma killers_bounded_alpha_beta fuel :
  forall depth alpha beta max_depth start_time max_time,
  preserves killers_bounded
    (_alpha_beta evaluator now fuel depth alpha beta max_depth
       start_time max_time).
Proof.
  induction fuel as [|fuel IH];
    intros depth alpha beta max_depth start_time max_time; simpl.
  { apply preserves_raise. }
  apply preserves_bind; [by apply preserves_modify|]. intros _.
  apply preserves_bind; [apply killers_bounded_time_time|]. intros t.
  destruct (max_time <=? t - start_time)%float;
    [apply killers_bounded_evaluate|].
  apply preserves_bind; [apply preserves_get|]. intros st.
  destruct (is_checkmate (board st)); [apply preserves_ret|].
  destruct (is_stalemate (board st) || is_insufficient_material (board st));
    [apply preserves_ret|].
  destruct (max_depth <=? depth); [apply killers_bounded_quiescence|].
  destruct (probe_table st (fen (board st)) depth alpha beta)
    as [value|alpha' beta']; [apply preserves_ret|].
  destruct (legal_moves (board st)) as [|m ms];
    [apply killers_bounded_evaluate|].
  apply preserves_bind; [apply killers_bounded_order_moves|]. intros moves.
  apply preserves_bind.
  { apply killers_bounded_alpha_beta_loop. intros a b. apply IH. }
  intros v. apply preserves_bind; [by apply preserves_modify|]. intros _.
  apply preserves_ret.
Qed.

(** C8, as amended.  When the value of [move] reaches [beta], the loop stops
    there: whatever siblings remain, it ends in the same state with the same
    result.  In that state [move] (capturing or not) is among the killers
    stored for the node's ply [len(board.move_stack)], and no killer list
    holds more than two moves. *)
Theorem beta_cutoff_stores_killer fuel depth beta max_depth start_time max_time
    (move : Move) (v : loop_vars) (st st1 : state) (r : float) :
  let child := fun a b =>
    _alpha_beta evaluator now fuel (depth + 1) a b max_depth
      start_time max_time in
  killers_bounded st ->
  child (- beta)%float (- cur_alpha v)%float (set_board (push (board st) move) st)
    = (Ok r, st1) ->
  (beta <=? - r)%float = true ->
  exists v' st',
    (forall rest,
       alpha_beta_loop child beta (move :: rest) v st = (Ok v', st')) /\
    (exists killers,
       killer_moves st' !! move_stack_len (board st') = Some killers /\
       move ∈ killers) /\
    killers_bounded st' /\
    board st' = pop (board st1).
Proof.
  intros child Hb Hchild Hcut.
  assert (killers_bounded st1) as Hb1.
  { eapply killers_bounded_alpha_beta; [|exact Hchild]. done. }
  set (st2 := set_board (pop (board st1)) st1).
  assert (killers_bounded st2) as Hb2 by done.
  destruct (store_killer_move_spec move (move_stack_len (board st2)) st2 Hb2)
    as (l & Estore & Hin & Hlen).
  eexists _, _. split_and!.
  - intros rest. simpl. unfold bind at 1. unfold board_push, modify.
    unfold bind at 1. fold child. rewrite Hchild.
    unfold bind at 1. unfold board_pop, modify. rewrite Hcut.
    unfold bind at 1. unfold get. fold st2.
    unfold bind at 1. rewrite Estore. unfold ret. reflexivity.
  - exists l. simpl. split; [apply lookup_insert_eq|done].
  - intros d' l'. simpl. rewrite lookup_insert. case_decide.
    + intros [= <-]. done.
    + apply Hb2.
  - done.
Qed.

(** [search] never assigns [best_move]: the iterative-deepening loop hands
    it on unchanged. *)
Lemma search_loop_best_move fuel start_time max_time depths :
  forall v st v' st',
    search_loop evaluator now fuel start_time max_time depths v st
      = (Ok v', st') ->
    it_best_move v' = it_best_move v.
Proof.
  induction depths as [|d depths IH]; intros v st v' st'; simpl.
  { by intros [= <- _]. }
  unfold bind at 1. unfold time_time.
  destruct (max_time <=? _)%float.
  { by intros [= <- _]. }
  destruct (_alpha_beta _ _ _ _ _ _ _ _ _ _) as [[value|e] st1].
  - intros E. apply IH in E. rewrite E. by destruct (_ <? _)%float.
  - by intros [= <- _].
Qed.

(** C1 fails on the code: whatever the position, the clock and the depth,
    a result that [search] returns carries no best move. *)
Theorem search_bestmove_None fuel max_time max_depth st r st' :
  search evaluator now fuel max_time max_depth st = (Ok r, st') ->
  bestmove r = None.
Proof.
  unfold search.
  intros [(_ & st1 & _ & E)|(e & _ & [=])]%bind_inv.
  apply bind_inv in E as [(start_time & st2 & _ & E)|(e & _ & [=])].
  apply bind_inv in E as [(v & st3 & Eloop & E)|(e & _ & [=])].
  apply bind_inv in E as [(cp & st4 & _ & E)|(e & _ & [=])].
  apply bind_inv in E as [(st5 & st6 & _ & E)|(e & _ & [=])].
  apply search_loop_best_move in Eloop. simpl in Eloop.
  destruct (it_depth v); [|by inversion E].
  injection E as <- _. simpl. exact Eloop.
Qed.

End WithRules.

Lemma beta_cutoff_stores_killer_witness :
  exists v' st',
    (forall rest,
       alpha_beta_loop
         (fun a b => _alpha_beta Evaluation.evaluate_position clock0 999
                       (0 + 1) a b 1 0%float 1%float)
         0%float (a1b2 :: rest) (mkVars None neg_infinity (-1)%float)
         kqk_state = (Ok v', st')) /\
    (exists killers,
       killer_moves st' !! move_stack_len (board st') = Some killers /\
       a1b2 ∈ killers) /\
    killers_bounded st' /\
    board st' = kqk_board.
Proof.
  eapply (beta_cutoff_stores_killer Evaluation.evaluate_position clock0
            999 0 0%float 1 0%float 1%float a1b2
            (mkVars None neg_infinity (-1)%float) kqk_state
            (set_nodes_searched 1 (set_ticks 1
               (set_board (push (board kqk_state) a1b2) kqk_state))) 0%float).
  - intros d l. simpl. by rewrite lookup_empty.
  - vm_compute. reflexivity.
  - vm_compute. reflexivity.
Defined.

(** C8 as stated fails: in this node the cutting move Kxb2 is a capture, it
    is stored as a killer all the same, and the history table is left as it
    was (empty). *)
Lemma beta_cutoff_capture_and_history :
  exists st',
    kqk_node kqk_state = (Ok (-0)%float, st') /\
    (0 <=? - 0)%float = true /\
    is_capture (board kqk_state) a1b2 = true /\
    killer_moves st' !! 0 = Some [a1b2] /\
    history_table st' !! a1b2 = None.
Proof. eexists. split_and!; vm_compute; reflexivity. Qed.

Lemma search_bestmove_None_witness :
  exists r st',
    search Evaluation.evaluate_position clock0 1000 1%float 1
      kqk_state = (Ok r, st') /\
    legal_moves (board kqk_state) = [a1b2] /\
    bestmove r = None.
Proof.
  eexists _, _. split; [vm_compute; reflexivity|]. split; [reflexivity|].
  eapply (search_bestmove_None Evaluation.evaluate_position clock0 1000
            1%float 1 kqk_state).
  vm_compute. reflexivity.
Defined.

End AlphaBetaProofs.

(** * Facts about the Monte-Carlo tree search *)

Module MCTSProofs.
Import MCTS.

Section WithRules.
Context `{RE : RulesEngine}.
Variable index : MoveIndex.t.
Variable predict_policy_value : nat -> Board -> result (list float * float).
Variable np_random_random : nat -> Z -> list float.
Variable random_choice : nat -> nat -> nat.
Variable np_random_choice : nat -> list float -> result nat.
Variable np_sum : list float -> float.
Variable np_power_normalized : list Z -> float -> list float.
Variable now : nat -> float.
Variable c_puct : float.

Lemma mbind_inv {A B} (c : M A) (k : A -> M B) st r st' :
  bind c k st = Some (r, st') ->
  (exists a st1, c st = Some (Ok a, st1) /\ k a st1 = Some (r, st')) \/
  (exists e, c st = Some (Raise e, st') /\ r = Raise e).
Proof.
  unfold bind. destruct (c st) as [[[a|e] st1]|]; intros E.
  - left. eauto.
  - right. exists e. by injection E as <- <-.
  - done.
Qed.

Lemma try_except_inv {A} (c handler : M A) st r st' :
  try_except c handler st = Some (r, st') ->
  (exists a, c st = Some (Ok a, st') /\ r = Ok a) \/
  (exists e st1, c st = Some (Raise e, st1) /\ handler st1 = Some (r, st')).
Proof.
  unfold try_except. destruct (c st) as [[[a|e] st1]|]; intros E.
  - left. exists a. by injection E as <- <-.
  - right. eauto.
  - done.
Qed.

Section Keeps.
Variable P : state -> Prop.

Lemma keeps_ret {A} (a : A) : keeps P (ret a).
Proof. intros st r st' HP [= _ <-]. done. Qed.

Lemma keeps_raise {A} e : keeps P (raise (A := A) e).
Proof. intros st r st' HP [= _ <-]. done. Qed.

Lemma keeps_stuck {A} : keeps P (stuck (A := A)).
Proof. intros st r st' HP [=]. Qed.

Lemma keeps_lift {A} (x : result A) : keeps P (lift x).
Proof. intros st r st' HP [= _ <-]. done. Qed.

Lemma keeps_bind {A B} (c : M A) (k : A -> M B) :
  keeps P c -> (forall a, keeps P (k a)) -> keeps P (bind c k).
Proof.
  intros Hc Hk st r st' HP [(a & st1 & E1 & E2)|(e & E1 & _)]%mbind_inv.
  - eapply Hk; [|exact E2]. eapply Hc; eauto.
  - eapply Hc; eauto.
Qed.

Lemma keeps_try_except {A} (c handler : M A) :
  keeps P c -> keeps P handler -> keeps P (try_except c handler).
Proof.
  intros Hc Hh st r st' HP [(a & E & _)|(e & st1 & E1 & E2)]%try_except_inv.
  - eapply Hc; eauto.
  - eapply Hh; [|exact E2]. eapply Hc; eauto.
Qed.

End Keeps.

(** A computation that only reads keeps every property of the heap. *)
Lemma reads_only_keeps {A} (c : M A) (P : list MCTSNode -> Prop) :
  reads_only c -> keeps (fun st => P (heap st)) c.
Proof. intros Hc st r st' HP E. by rewrite (Hc _ _ _ E). Qed.

Lemma reads_only_ret {A} (a : A) : reads_only (ret a).
Proof. by intros st r st' [= _ <-]. Qed.

Lemma reads_only_raise {A} e : reads_only (raise (A := A) e).
Proof. by intros st r st' [= _ <-]. Qed.

Lemma reads_only_stuck {A} : reads_only (stuck (A := A)).
Proof. by intros st r st' [=]. Qed.

Lemma reads_only_lift {A} (x : result A) : reads_only (lift x).
Proof. by intros st r st' [= _ <-]. Qed.

Lemma reads_only_read ref : reads_only (read ref).
Proof.
  intros st r st'. unfold read. destruct (heap st !! ref); [|done].
  by intros [= _ <-].
Qed.

Lemma reads_only_draw : reads_only draw.
Proof. by intros st r st' [= _ <-]. Qed.

Lemma reads_only_time_time : reads_only (time_time now).
Proof. by intros st r st' [= _ <-]. Qed.

Lemma reads_only_bind {A B} (c : M A) (k : A -> M B) :
  reads_only c -> (forall a, reads_only (k a)) -> reads_only (bind c k).
Proof.
  intros Hc Hk st r st' [(a & st1 & E1 & E2)|(e & E1 & _)]%mbind_inv.
  - rewrite (Hk _ _ _ _ E2). by eapply Hc.
  - by eapply Hc.
Qed.

Lemma reads_only_try_except {A} (c handler : M A) :
  reads_only c -> reads_only handler -> reads_only (try_except c handler).
Proof.
  intros Hc Hh st r st' [(a & E & _)|(e & st1 & E1 & E2)]%try_except_inv.
  - by eapply Hc.
  - rewrite (Hh _ _ _ E2). by eapply Hc.
Qed.

Lemma reads_only_network_predict board :
  reads_only (network_predict predict_policy_value board).
Proof.
  apply reads_only_bind; [apply reads_only_draw|]. intros k.
  apply reads_only_lift.
Qed.

Lemma reads_only_select_loop node children : forall best_child best_score,
  reads_only (select_loop c_puct node children best_child best_score).
Proof.
  induction children as [|c cs IH]; intros best_child best_score; simpl.
  { apply reads_only_ret. }
  apply reads_only_bind; [apply reads_only_read|]. intros child_node.
  apply reads_only_bind; [apply reads_only_lift|]. intros score.
  destruct (best_score <? score)%float; apply IH.
Qed.

Lemma reads_only_select_child ref : reads_only (_select_child c_puct ref).
Proof.
  apply reads_only_bind; [apply reads_only_read|]. intros node.
  destruct (children node); [apply reads_only_ret|].
  apply reads_only_bind; [apply reads_only_select_loop|]. intros best.
  apply reads_only_ret.
Qed.

Lemma reads_only_descend fuel : forall ref,
  reads_only (descend c_puct fuel ref).
Proof.
  induction fuel as [|fuel IH]; intros ref; simpl.
  - apply reads_only_bind; [apply reads_only_read|]. intros node.
    destruct (is_leaf node); [apply reads_only_ret|apply reads_only_stuck].
  - apply reads_only_bind; [apply reads_only_read|]. intros node.
    destruct (is_leaf node); [apply reads_only_ret|].
    apply reads_only_bind; [apply reads_only_select_child|]. intros child.
    apply IH.
Qed.

Lemma reads_only_rollout remaining : forall board,
  reads_only (rollout random_choice remaining board).
Proof.
  induction remaining as [|n IH]; intros board; simpl.
  { apply reads_only_ret. }
  destruct (is_game_over board); [apply reads_only_ret|].
  destruct (legal_moves board) as [|m ms] eqn:E; [apply reads_only_ret|].
  apply reads_only_bind; [apply reads_only_draw|]. intros k.
  destruct (_ !! _); [apply IH|apply reads_only_stuck].
Qed.

Lemma reads_only_simulate ref :
  reads_only (_simulate predict_policy_value random_choice ref).
Proof.
  apply reads_only_bind; [apply reads_only_read|]. intros node.
  apply reads_only_bind; [apply reads_only_rollout|]. intros board.
  destruct (is_checkmate board); [apply reads_only_ret|].
  destruct (_ || _); [apply reads_only_ret|].
  apply reads_only_try_except; [|apply reads_only_ret].
  apply reads_only_bind; [apply reads_only_network_predict|].
  intros [? value]. apply reads_only_ret.
Qed.

Lemma wf_update h ref node node' :
  wf h -> h !! ref = Some node ->
  parent node' = parent node -> children node' = children node ->
  wf (<[ref := node']> h).
Proof.
  intros [Hp Hc] Href Hpar Hch. split.
  - intros r x. destruct (decide (r = ref)) as [->|Hne].
    + rewrite list_lookup_insert_eq by (by eapply lookup_lt_Some).
      intros [= <-]. rewrite Hpar. by apply Hp.
    + rewrite list_lookup_insert_ne by done. apply Hp.
  - intros r x c. rewrite length_insert.
    destruct (decide (r = ref)) as [->|Hne].
    + rewrite list_lookup_insert_eq by (by eapply lookup_lt_Some).
      intros [= <-]. rewrite Hch. by apply Hc.
    + rewrite list_lookup_insert_ne by done. apply Hc.
Qed.

Lemma wf_alloc h board p move prior :
  wf h -> (p < length h)%nat ->
  wf (h ++ [new_node board (Some p) move prior]).
Proof.
  intros [Hp Hc] Hlt. split.
  - intros r x Hr. apply lookup_app_Some in Hr as [Hr|[Hge Hr]].
    + by apply Hp.
    + apply list_lookup_singleton_Some in Hr as [Hr0 <-]. simpl. lia.
  - intros r x c Hr Hin. rewrite length_app. simpl.
    apply lookup_app_Some in Hr as [Hr|[Hge Hr]].
    + specialize (Hc _ _ _ Hr Hin). lia.
    + apply list_lookup_singleton_Some in Hr as [Hr0 <-]. simpl in Hin.
      by apply elem_of_nil in Hin.
Qed.

Lemma wf_append_child h ref node c :
  wf h -> h !! ref = Some node -> (ref < c < length h)%nat ->
  wf (<[ref := append_child c node]> h).
Proof.
  intros [Hp Hc] Href Hlt. split.
  - intros r x. destruct (decide (r = ref)) as [->|Hne].
    + rewrite list_lookup_insert_eq by (by eapply lookup_lt_Some).
      intros [= <-]. simpl. by apply Hp.
    + rewrite list_lookup_insert_ne by done. apply Hp.
  - intros r x c'. rewrite length_insert.
    destruct (decide (r = ref)) as [->|Hne].
    + rewrite list_lookup_insert_eq by (by eapply lookup_lt_Some).
      intros [= <-]. simpl. intros [Hin|Hin]%elem_of_app.
      * by eapply Hc.
      * apply list_elem_of_singleton in Hin as ->. done.
    + rewrite list_lookup_insert_ne by done. apply Hc.
Qed.

(** A write that leaves [parent], [children] and [visits] as they are. *)
Lemma keeps_write n r ref f :
  (forall node, parent (f node) = parent node /\
                children (f node) = children node /\
                visits (f node) = visits node) ->
  keeps (tree_inv n r) (write ref f).
Proof.
  intros Hf st res st' (Hwf & Hroot & Hr). unfold write.
  destruct (heap st !! ref) as [node|] eqn:Href; [|done].
  intros [= _ <-]. destruct (Hf node) as (Hpar & Hch & Hvis).
  split_and!; simpl.
  - by eapply wf_update.
  - unfold root_visits in *. simpl.
    destruct (decide (0%nat = ref)) as [<-|Hne].
    + rewrite list_lookup_insert_eq by (by eapply lookup_lt_Some).
      rewrite Href in Hroot. simpl in *. by rewrite Hvis.
    + by rewrite list_lookup_insert_ne.
  - by rewrite length_insert.
Qed.

Lemma keeps_reads_only {A} n r (c : M A) :
  reads_only c -> keeps (tree_inv n r) c.
Proof.
  intros Hc st res st' HP E. unfold tree_inv, root_visits in *.
  by rewrite (Hc _ _ _ E).
Qed.

(** Creating one child and appending it to [node.children]. *)
Lemma keeps_new_child n ref board move prior :
  keeps (tree_inv n ref)
    (bind (alloc (new_node board (Some ref) move prior))
          (fun child => write ref (append_child child))).
Proof.
  intros st res st' (Hwf & Hroot & Hr). unfold bind, alloc, write. simpl.
  destruct (lookup_lt_is_Some_2 _ _ Hr) as [node Href].
  rewrite lookup_app_l by done. rewrite Href.
  intros [= _ <-]. split_and!; simpl.
  - eapply wf_append_child.
    + by apply wf_alloc.
    + by rewrite lookup_app_l.
    + rewrite length_app. simpl. lia.
  - unfold root_visits in *. simpl in *.
    destruct (decide (0%nat = ref)) as [<-|Hne].
    + rewrite list_lookup_insert_eq by (rewrite length_app; simpl; lia).
      rewrite Href in Hroot. done.
    + rewrite list_lookup_insert_ne by done.
      rewrite lookup_app_l by lia. done.
  - rewrite length_insert, length_app. simpl. lia.
Qed.

Lemma keeps_add_children n ref board legal_policy legal_moves :
  keeps (tree_inv n ref) (add_children index ref board legal_policy legal_moves).
Proof.
  induction legal_moves as [|m ms IH]; simpl.
  { apply keeps_ret. }
  apply keeps_bind; [apply keeps_lift|]. intros move_id.
  apply keeps_bind; [|intros _; apply IH].
  destruct (0 <=? move_id); [|apply keeps_ret].
  apply keeps_bind; [apply keeps_lift|]. intros prior.
  apply keeps_new_child.
Qed.

Lemma keeps_expand_node n ref :
  keeps (tree_inv n ref)
    (_expand_node index predict_policy_value np_random_random np_sum ref).
Proof.
  unfold _expand_node.
  apply keeps_bind; [apply keeps_reads_only, reads_only_read|]. intros node.
  destruct (_ || _); [apply keeps_ret|].
  destruct (legal_moves (node_board node)) as [|m ms].
  { by apply keeps_write. }
  apply keeps_bind.
  { apply keeps_reads_only, reads_only_try_except.
    - apply reads_only_network_predict.
    - apply reads_only_bind; [apply reads_only_draw|]. intros k.
      apply reads_only_ret. }
  intros [policy value].
  apply keeps_bind; [apply keeps_lift|]. intros legal_mask.
  apply keeps_bind; [apply keeps_lift|]. intros legal_policy.
  apply keeps_bind; [apply keeps_lift|]. intros legal_policy'.
  apply keeps_bind; [apply keeps_add_children|]. intros _.
  by apply keeps_write.
Qed.

(** [_backup] from a node of a well-formed tree returns, and it adds exactly
    one visit to the root. *)
Lemma backup_spec fuel : forall ref value st n,
  tree_inv n ref st -> (ref < fuel)%nat ->
  exists st', _backup fuel (Some ref) value st = Some (Ok tt, st') /\
              wf (heap st') /\ root_visits st' = Some (n + 1) /\
              length (heap st') = length (heap st).
Proof.
  induction fuel as [|fuel IH]; intros ref value st n (Hwf & Hroot & Hr) Hfuel.
  { lia. }
  destruct (lookup_lt_is_Some_2 _ _ Hr) as [node Href].
  simpl. unfold bind at 1. unfold write. rewrite Href.
  unfold bind at 1. unfold read. simpl.
  rewrite list_lookup_insert_eq by done.
  set (st1 := mkState (<[ref := add_visit value node]> (heap st)) (ticks st)
                (draws st)).
  assert (wf (heap st1)) as Hwf1 by (by eapply wf_update).
  assert (length (heap st1) = length (heap st)) as Hlen1
    by apply length_insert.
  destruct Hwf as [Hp Hc]. specialize (Hp _ _ Href). simpl.
  destruct (parent node) as [p|] eqn:Hpar.
  - destruct (IH p (- value)%float st1 n)
      as (st' & E & Hwf' & Hroot' & Hlen').
    + split_and!; [done| |lia].
      unfold root_visits. simpl. rewrite list_lookup_insert_ne by lia. done.
    + lia.
    + exists st'. split; [done|]. split_and!; [done..|lia].
  - subst ref. exists st1. split; [by destruct fuel|].
    split_and!; [done| |done].
    unfold root_visits in *. simpl. rewrite list_lookup_insert_eq by done.
    rewrite Href in Hroot. simpl in *. injection Hroot as <-. done.
Qed.

(** [descend] returns an address in use. *)
Lemma descend_valid fuel : forall ref st leaf st',
  descend c_puct fuel ref st = Some (Ok leaf, st') ->
  (leaf < length (heap st'))%nat.
Proof.
  induction fuel as [|fuel IH]; intros ref st leaf st'; simpl.
  - intros [(node & st1 & Er & E)|(e & _ & [=])]%mbind_inv.
    unfold read in Er. destruct (heap st !! ref) eqn:Href; [|done].
    injection Er as <- <-.
    destruct (is_leaf _); [|done]. injection E as <- <-.
    by eapply lookup_lt_Some.
  - intros [(node & st1 & Er & E)|(e & _ & [=])]%mbind_inv.
    unfold read in Er. destruct (heap st !! ref) eqn:Href; [|done].
    injection Er as <- <-.
    destruct (is_leaf _).
    + injection E as <- <-. by eapply lookup_lt_Some.
    + apply mbind_inv in E as [(child & st2 & _ & E)|(e & _ & [=])].
      by eapply IH.
Qed.

(** One simulation adds one visit to the root. *)
Lemma simulation_spec n st st' :
  tree_inv n 0 st ->
  simulation index predict_policy_value np_random_random random_choice np_sum
    c_puct 0 st = Some (Ok tt, st') ->
  tree_inv (n + 1) 0 st'.
Proof.
  intros Hinv. unfold simulation.
  intros [(st0 & st1 & [= <- <-] & E)|(e & _ & [=])]%mbind_inv.
  apply mbind_inv in E as [(ref & st2 & Ed & E)|(e & _ & [=])].
  assert (tree_inv n ref st2) as Hinv2.
  { pose proof (descend_valid _ _ _ _ _ Ed) as Hlt.
    pose proof (reads_only_descend _ _ _ _ _ Ed) as Hh.
    destruct Hinv as (Hwf & Hroot & _). unfold tree_inv, root_visits in *.
    rewrite Hh. rewrite Hh in Hlt. done. }
  apply mbind_inv in E as [(node & st3 & Er & E)|(e & _ & [=])].
  assert (tree_inv n ref st3) as Hinv3.
  { eapply keeps_reads_only; [apply reads_only_read|exact Hinv2|exact Er]. }
  apply mbind_inv in E as [(u & st4 & Ee & E)|(e & _ & [=])].
  assert (tree_inv n ref st4) as Hinv4.
  { destruct (negb (is_expanded node) && negb (is_game_over (node_board node))).
    - eapply keeps_expand_node; [exact Hinv3|exact Ee].
    - by injection Ee as _ <-. }
  apply mbind_inv in E as [(node' & st5 & Er' & E)|(e & _ & [=])].
  assert (tree_inv n ref st5) as Hinv5.
  { eapply keeps_reads_only; [apply reads_only_read|exact Hinv4|exact Er']. }
  apply mbind_inv in E as [(value & st6 & Ev & E)|(e & _ & [=])].
  assert (tree_inv n ref st6) as Hinv6.
  { eapply keeps_reads_only; [|exact Hinv5|exact Ev].
    destruct (is_leaf node').
    - destruct (is_game_over (node_board node')).
      + destruct (is_checkmate (node_board node')); apply reads_only_ret.
      + apply reads_only_simulate.
    - apply reads_only_try_except; [|apply reads_only_ret].
      apply reads_only_bind; [apply reads_only_network_predict|].
      intros [? v]. apply reads_only_ret. }
  destruct (backup_spec (S ref) ref value st6 n Hinv6)
    as (st7 & Eb & Hwf7 & Hroot7 & Hlen7); [lia|].
  rewrite Eb in E. injection E as <-.
  destruct Hinv6 as (_ & _ & Hr6). split_and!; [done..|lia].
Qed.

(** The [while True] loop: the count it returns is the number of visits of
    the root. *)
Lemma search_loop_spec fuel start_time max_time max_nodes :
  forall n st m st',
    tree_inv n 0 st ->
    search_loop index predict_policy_value np_random_random random_choice
      np_sum now c_puct fuel 0 start_time max_time max_nodes n st
      = Some (Ok m, st') ->
    tree_inv m 0 st'.
Proof.
  induction fuel as [|fuel IH]; intros n st m st' Hinv; simpl; [done|].
  intros [(t & st1 & Et & E)|(e & _ & [=])]%mbind_inv.
  assert (tree_inv n 0 st1) as Hinv1.
  { eapply keeps_reads_only; [apply reads_only_time_time|exact Hinv|exact Et]. }
  destruct (max_time <=? _)%float.
  { by injection E as <- <-. }
  destruct (match max_nodes with Some _ => _ | None => _ end).
  { by injection E as <- <-. }
  apply mbind_inv in E as [([] & st2 & Es & E)|(e & _ & [=])].
  eapply IH; [|exact E]. by eapply simulation_spec.
Qed.

(** How many simulations the loop runs: the count never decreases, stays
    within a node budget, and reaches the budget when the clock never
    reaches [max_time]. *)
Lemma search_loop_count fuel start_time max_time max_nodes :
  forall n st m st',
    search_loop index predict_policy_value np_random_random random_choice
      np_sum now c_puct fuel 0 start_time max_time max_nodes n st
      = Some (Ok m, st') ->
    n <= m /\
    (forall budget, max_nodes = Some budget -> budget <> 0 -> n <= budget ->
       m <= budget /\
       ((forall k, (max_time <=? now k - start_time)%float = false) ->
        m = budget)).
Proof.
  induction fuel as [|fuel IH]; intros n st m st'; simpl; [done|].
  intros [(t & st1 & [= <- <-] & E)|(e & _ & [=])]%mbind_inv.
  destruct (max_time <=? _)%float eqn:Et.
  { injection E as <- <-. split; [lia|]. intros budget _ _ Hle.
    split; [done|]. intros Hclock. by rewrite Hclock in Et. }
  destruct max_nodes as [budget|].
  - destruct (negb (budget =? 0) && (budget <=? n)) eqn:Ecap.
    + injection E as <- <-. split; [lia|]. intros b [= <-] Hb Hle.
      apply andb_true_iff in Ecap as [_ Hge]. lia.
    + apply mbind_inv in E as [([] & st2 & Es & E)|(e & _ & [=])].
      apply IH in E as [Hle Hb]. split; [lia|].
      intros b [= <-] Hne Hn. apply Hb; [done|done|].
      apply andb_false_iff in Ecap as [Ecap|Ecap]; lia.
  - apply mbind_inv in E as [([] & st2 & Es & E)|(e & _ & [=])].
    apply IH in E as [Hle Hb]. split; [lia|]. intros b [=].
Qed.

(** C4.  A search that starts from an empty tree and returns has run its
    loop to a count [n] of completed simulations, and the root it returns
    has exactly [n] visits; with a node budget and a clock that never
    reaches [max_time], [n] is the budget. *)
Theorem search_root_visits fuel board max_time max_nodes st root st' :
  heap st = [] ->
  search index predict_policy_value np_random_random random_choice np_sum now
    c_puct fuel board max_time max_nodes st = Some (Ok root, st') ->
  exists st1 start_time n,
    search_loop index predict_policy_value np_random_random random_choice
      np_sum now c_puct fuel root start_time max_time max_nodes 0 st1
      = Some (Ok n, st') /\
    visits <$> heap st' !! root = Some n /\
    (forall budget, max_nodes = Some budget -> 0 < budget ->
       (forall k, (max_time <=? now k - start_time)%float = false) ->
       n = budget).
Proof.
  intros Hempty. unfold search.
  intros [(r & st1 & Ea & E)|(e & _ & [=])]%mbind_inv.
  unfold alloc in Ea. rewrite Hempty in Ea. simpl in Ea.
  injection Ea as <- <-.
  set (st1 := mkState _ _ _) in E.
  assert (tree_inv 0 0 st1) as Hinv1.
  { split_and!; simpl; [|done|lia]. split.
    - intros [|ref] node; simpl; [by intros [= <-]|done].
    - intros [|ref] node c; simpl; [|done]. intros [= <-]. simpl.
      by intros ?%elem_of_nil. }
  apply mbind_inv in E as [(u & st2 & Ee & E)|(e & _ & [=])].
  pose proof (keeps_expand_node _ _ _ _ _ Hinv1 Ee) as Hinv2.
  apply mbind_inv in E as [(start_time & st3 & Et & E)|(e & _ & [=])].
  assert (tree_inv 0 0 st3) as Hinv3.
  { eapply keeps_reads_only; [apply reads_only_time_time|exact Hinv2|exact Et]. }
  apply mbind_inv in E as [(n & st4 & El & E)|(e & _ & [=])].
  injection E as <- <-.
  exists st3, start_time, n. split; [exact El|].
  pose proof (search_loop_spec _ _ _ _ _ _ _ _ Hinv3 El) as (_ & Hroot & _).
  split; [exact Hroot|].
  intros budget Hb Hpos Hclock.
  destruct (search_loop_count _ _ _ _ _ _ _ _ El) as [Hle Hcount].
  destruct (Hcount budget Hb) as [_ Heq]; [lia..|]. by apply Heq.
Qed.

(** *** Enough fuel gives an answer *)

Lemma bind_total {A B} (c : M A) (k : A -> M B) st :
  is_Some (c st) ->
  (forall a st1, c st = Some (Ok a, st1) -> is_Some (k a st1)) ->
  is_Some (bind c k st).
Proof.
  intros [[[a|e] st1] Ec] Hk; unfold bind; rewrite Ec; [|done].
  by apply Hk.
Qed.

Lemma try_except_total {A} (c handler : M A) st :
  is_Some (c st) -> (forall st1, is_Some (handler st1)) ->
  is_Some (try_except c handler st).
Proof.
  intros [[[a|e] st1] Ec] Hh; unfold try_except; rewrite Ec; [done|].
  apply Hh.
Qed.

Lemma read_total ref st :
  (ref < length (heap st))%nat -> is_Some (read ref st).
Proof.
  intros [node Href]%lookup_lt_is_Some_2. unfold read. by rewrite Href.
Qed.

Lemma write_total ref f st :
  (ref < length (heap st))%nat -> is_Some (write ref f st).
Proof.
  intros [node Href]%lookup_lt_is_Some_2. unfold write. by rewrite Href.
Qed.

Lemma network_predict_total board st :
  is_Some (network_predict predict_policy_value board st).
Proof. done. Qed.

Lemma select_loop_total node cs : forall best score st,
  (forall c, c ∈ cs -> (c < length (heap st))%nat) ->
  exists r st', select_loop c_puct node cs best score st = Some (r, st') /\
    forall b, r = Ok b -> b = best \/ exists c, b = Some c /\ c ∈ cs.
Proof.
  induction cs as [|c cs IH]; intros best score st Hcs; simpl.
  { eexists _, _. split; [done|]. intros b [= <-]. by left. }
  destruct (lookup_lt_is_Some_2 (heap st) c) as [child Hc].
  { apply Hcs. left. }
  unfold bind at 1. unfold read. rewrite Hc.
  unfold bind at 1. unfold lift.
  destruct (puct_score c_puct node child) as [s|e].
  2:{ eexists _, _. split; [done|]. done. }
  destruct (score <? s)%float.
  - destruct (IH (Some c) s st) as (r & st' & E & Hr).
    { intros c' Hc'. apply Hcs. by right. }
    exists r, st'. split; [done|]. intros b Hb.
    destruct (Hr b Hb) as [->|(c' & -> & Hc')].
    + right. exists c. split; [done|left].
    + right. exists c'. split; [done|by right].
  - destruct (IH best score st) as (r & st' & E & Hr).
    { intros c' Hc'. apply Hcs. by right. }
    exists r, st'. split; [done|]. intros b Hb.
    destruct (Hr b Hb) as [->|(c' & -> & Hc')]; [by left|].
    right. exists c'. split; [done|by right].
Qed.

Lemma select_child_total ref node st :
  heap st !! ref = Some node -> children node <> [] ->
  (forall c, c ∈ children node -> (c < length (heap st))%nat) ->
  exists r st', _select_child c_puct ref st = Some (r, st') /\
    forall c, r = Ok c -> c ∈ children node.
Proof.
  intros Href Hne Hcs. unfold _select_child.
  unfold bind at 1. unfold read. rewrite Href.
  destruct (children node) as [|first rest] eqn:Ech; [done|].
  destruct (select_loop_total node (first :: rest) None neg_infinity st Hcs)
    as (r & st' & E & Hr).
  unfold bind. rewrite E. destruct r as [b|e].
  - eexists _, _. split; [done|]. intros c [= <-].
    destruct (Hr b eq_refl) as [->|(c & -> & Hc)]; simpl; [left|done].
  - eexists _, _. split; [done|]. done.
Qed.

Lemma descend_total fuel : forall ref st,
  wf (heap st) -> (ref < length (heap st))%nat ->
  (length (heap st) - ref <= fuel)%nat ->
  is_Some (descend c_puct fuel ref st).
Proof.
  induction fuel as [|fuel IH]; intros ref st Hwf Href Hfuel; [lia|].
  destruct (lookup_lt_is_Some_2 _ _ Href) as [node Hnode].
  simpl. unfold bind at 1. unfold read. rewrite Hnode.
  destruct (is_leaf node) eqn:Hleaf; [done|].
  assert (children node <> []) as Hne.
  { unfold is_leaf in Hleaf. apply orb_false_iff in Hleaf as [_ Hlen].
    intros E. by rewrite E in Hlen. }
  destruct (select_child_total ref node st Hnode Hne) as (r & st' & E & Hr).
  { intros c Hc. destruct Hwf as [_ Hch]. specialize (Hch _ _ _ Hnode Hc). lia. }
  pose proof (reads_only_select_child _ _ _ _ E) as Hheap.
  unfold bind. rewrite E. destruct r as [c|e]; [|done].
  pose proof (proj2 Hwf _ _ _ Hnode (Hr c eq_refl)) as Hc.
  apply IH; rewrite Hheap; [done|lia|lia].
Qed.

Lemma rollout_total remaining : forall board st,
  is_Some (rollout random_choice remaining board st).
Proof.
  induction remaining as [|n IH]; intros board st; simpl; [done|].
  destruct (is_game_over board); [done|].
  destruct (legal_moves board) as [|m ms] eqn:E; [done|].
  unfold bind, draw.
  match goal with
  | |- context [?l !! ?i] => destruct (l !! i) as [move|] eqn:Hmove
  end.
  - apply IH.
  - apply lookup_ge_None in Hmove.
    pose proof (Nat.mod_upper_bound
      (random_choice (draws st) (length (m :: ms))) (length (m :: ms))) as Hb.
    simpl in *. lia.
Qed.

Lemma simulate_total ref st :
  (ref < length (heap st))%nat ->
  is_Some (_simulate predict_policy_value random_choice ref st).
Proof.
  intros Href. unfold _simulate.
  apply bind_total; [by apply read_total|]. intros node st1 _.
  apply bind_total; [apply rollout_total|]. intros board st2 _.
  destruct (is_checkmate board); [done|].
  destruct (_ || _); [done|].
  apply try_except_total; [|done].
  apply bind_total; [done|]. by intros [? value] st3 _.
Qed.

Lemma new_child_total n ref board move prior st :
  tree_inv n ref st ->
  is_Some (bind (alloc (new_node board (Some ref) move prior))
                (fun child => write ref (append_child child)) st).
Proof.
  intros (_ & _ & Href). apply bind_total; [done|].
  intros child st1 [= _ <-]. apply write_total. simpl.
  rewrite length_app. lia.
Qed.

Lemma add_children_total n ref board legal_policy legal_moves : forall st,
  tree_inv n ref st ->
  is_Some (add_children index ref board legal_policy legal_moves st).
Proof.
  induction legal_moves as [|m ms IH]; intros st Hinv; simpl; [done|].
  apply bind_total; [done|]. intros move_id st1 [= _ <-].
  assert (keeps (tree_inv n ref)
    (if 0 <=? move_id
     then bind (lift (py_getitem legal_policy move_id)) (fun prior =>
            bind (alloc (new_node (push board m) (Some ref) (Some m) prior))
                 (fun child => write ref (append_child child)))
     else ret tt)) as Hkeeps.
  { destruct (0 <=? move_id); [|apply keeps_ret].
    apply keeps_bind; [apply keeps_lift|]. intros prior.
    apply keeps_new_child. }
  apply bind_total.
  - destruct (0 <=? move_id); [|done].
    apply bind_total; [done|]. intros prior st2 [= _ <-].
    by eapply new_child_total.
  - intros [] st2 E. apply IH. eapply Hkeeps; [exact Hinv|exact E].
Qed.

Lemma expand_node_total n ref st :
  tree_inv n ref st ->
  is_Some (_expand_node index predict_policy_value np_random_random np_sum
             ref st).
Proof.
  intros Hinv. pose proof Hinv as (_ & _ & Href). unfold _expand_node.
  apply bind_total; [by apply read_total|]. intros node st1 Er.
  pose proof (reads_only_read _ _ _ _ Er) as Hh1.
  assert (tree_inv n ref st1) as Hinv1.
  { eapply keeps_reads_only; [apply reads_only_read|exact Hinv|exact Er]. }
  destruct (_ || _); [done|].
  destruct (legal_moves (node_board node)) as [|m ms].
  { apply write_total. by destruct Hinv1 as (_ & _ & ?). }
  apply bind_total.
  { apply try_except_total; [done|]. intros st2. done. }
  intros [policy value] st2 Ep.
  assert (tree_inv n ref st2) as Hinv2.
  { eapply keeps_reads_only; [|exact Hinv1|exact Ep].
    apply reads_only_try_except.
    - apply reads_only_network_predict.
    - apply reads_only_bind; [apply reads_only_draw|]. intros k.
      apply reads_only_ret. }
  apply bind_total; [done|]. intros legal_mask st3 [= _ <-].
  apply bind_total; [done|]. intros legal_policy st3 [= _ <-].
  apply bind_total; [done|]. intros legal_policy' st3 [= _ <-].
  apply bind_total; [by eapply add_children_total|]. intros [] st3 Ea.
  apply write_total.
  pose proof (keeps_add_children _ _ _ _ _ _ _ _ Hinv2 Ea) as (_ & _ & ?).
  done.
Qed.

Lemma simulation_total n st :
  tree_inv n 0 st ->
  is_Some (simulation index predict_policy_value np_random_random
             random_choice np_sum c_puct 0 st).
Proof.
  intros Hinv. pose proof Hinv as (Hwf & Hroot & Hr). unfold simulation.
  apply bind_total; [done|]. intros st0 st1 [= <- <-].
  apply bind_total.
  { apply descend_total; [done|done|lia]. }
  intros ref st2 Ed.
  assert (tree_inv n ref st2) as Hinv2.
  { pose proof (descend_valid _ _ _ _ _ Ed) as Hlt.
    pose proof (reads_only_descend _ _ _ _ _ Ed) as Hh.
    unfold tree_inv, root_visits in *. rewrite Hh. rewrite Hh in Hlt. done. }
  apply bind_total; [apply read_total; by destruct Hinv2 as (_ & _ & ?)|].
  intros node st3 Er.
  assert (tree_inv n ref st3) as Hinv3.
  { eapply keeps_reads_only; [apply reads_only_read|exact Hinv2|exact Er]. }
  apply bind_total.
  { destruct (negb (is_expanded node) && negb (is_game_over (node_board node)));
      [by eapply expand_node_total|done]. }
  intros u st4 Ee.
  assert (tree_inv n ref st4) as Hinv4.
  { destruct (negb (is_expanded node) && negb (is_game_over (node_board node))).
    - eapply keeps_expand_node; [exact Hinv3|exact Ee].
    - by injection Ee as _ <-. }
  apply bind_total; [apply read_total; by destruct Hinv4 as (_ & _ & ?)|].
  intros node' st5 Er'.
  assert (tree_inv n ref st5) as Hinv5.
  { eapply keeps_reads_only; [apply reads_only_read|exact Hinv4|exact Er']. }
  assert (reads_only
    (if is_leaf node'
     then if is_game_over (node_board node')
          then if is_checkmate (node_board node')
               then ret (terminal_value (node_board node'))
               else ret 0%float
          else _simulate predict_policy_value random_choice ref
     else try_except
            (bind (network_predict predict_policy_value (node_board node'))
                  (fun '(_, value) => ret value))
            (ret 0%float))) as Hread.
  { destruct (is_leaf node').
    - destruct (is_game_over (node_board node')).
      + destruct (is_checkmate (node_board node')); apply reads_only_ret.
      + apply reads_only_simulate.
    - apply reads_only_try_except; [|apply reads_only_ret].
      apply reads_only_bind; [apply reads_only_network_predict|].
      intros [? v]. apply reads_only_ret. }
  apply bind_total.
  { destruct (is_leaf node').
    - destruct (is_game_over (node_board node')).
      + by destruct (is_checkmate (node_board node')).
      + apply simulate_total. by destruct Hinv5 as (_ & _ & ?).
    - apply try_except_total; [|done].
      apply bind_total; [done|]. by intros [? v] st6 _. }
  intros value st6 Ev.
  assert (tree_inv n ref st6) as Hinv6.
  { eapply keeps_reads_only; [exact Hread|exact Hinv5|exact Ev]. }
  destruct (backup_spec (S ref) ref value st6 n Hinv6) as (st7 & Eb & _);
    [lia|].
  by rewrite Eb.
Qed.

(** With a node budget, a fuel above the budget is enough: the loop always
    answers (with a count or an exception), it never starves. *)
Lemma search_loop_total fuel start_time max_time budget :
  forall n st,
    tree_inv n 0 st -> 0 < budget ->
    (Z.to_nat (budget - n) < fuel)%nat ->
    is_Some (search_loop index predict_policy_value np_random_random
               random_choice np_sum now c_puct fuel 0 start_time max_time
               (Some budget) n st).
Proof.
  induction fuel as [|fuel IH]; intros n st Hinv Hpos Hfuel; [lia|].
  simpl. apply bind_total; [done|]. intros t st1 Et.
  assert (tree_inv n 0 st1) as Hinv1.
  { eapply keeps_reads_only; [apply reads_only_time_time|exact Hinv|exact Et]. }
  destruct (max_time <=? _)%float; [done|].
  destruct (negb (budget =? 0) && (budget <=? n)) eqn:Ecap; [done|].
  apply bind_total; [by eapply simulation_total|]. intros [] st2 Es.
  apply IH; [by eapply simulation_spec|done|].
  apply andb_false_iff in Ecap as [Ecap|Ecap]; lia.
Qed.

Lemma search_total fuel board max_time budget st :
  heap st = [] -> 0 < budget -> (Z.to_nat budget < fuel)%nat ->
  is_Some (search index predict_policy_value np_random_random random_choice
             np_sum now c_puct fuel board max_time (Some budget) st).
Proof.
  intros Hempty Hpos Hfuel. unfold search.
  apply bind_total; [done|]. intros root st1 Ea.
  unfold alloc in Ea. rewrite Hempty in Ea. simpl in Ea.
  injection Ea as <- <-.
  set (st1 := mkState _ _ _).
  assert (tree_inv 0 0 st1) as Hinv1.
  { split_and!; simpl; [|done|lia]. split.
    - intros [|ref] node; simpl; [by intros [= <-]|done].
    - intros [|ref] node c; simpl; [|done]. intros [= <-]. simpl.
      by intros ?%elem_of_nil. }
  apply bind_total; [by eapply expand_node_total|]. intros u st2 Ee.
  pose proof (keeps_expand_node _ _ _ _ _ Hinv1 Ee) as Hinv2.
  apply bind_total; [done|]. intros start_time st3 Et.
  assert (tree_inv 0 0 st3) as Hinv3.
  { eapply keeps_reads_only; [apply reads_only_time_time|exact Hinv2|exact Et]. }
  apply bind_total; [|done].
  apply search_loop_total; [done|done|]. by rewrite Z.sub_0_r.
Qed.

End WithRules.

End MCTSProofs.

(** * Further properties of the code *)


Module FloatOrder.
Import FloatFacts.

(** Chains of [<] and [<=] on IEEE numbers compose: the comparison of the
    ends is again not [Gt], and it is [Lt] as soon as one link is strict. *)
Lemma SFcompare_chain x y z c1 c2 :
  SFcompare x y = Some c1 -> SFcompare y z = Some c2 ->
  c1 <> Gt -> c2 <> Gt ->
  exists c3, SFcompare x z = Some c3 /\ c3 <> Gt /\
             (c1 = Lt \/ c2 = Lt -> c3 = Lt).
Proof.
  destruct x as [sx|sx| |sx mx ex], y as [sy|sy| |sy my ey],
    z as [sz|sz| |sz mz ez]; simpl;
    try destruct sx; try destruct sy; try destruct sz; simpl;
    intros E1 E2 H1 H2; try discriminate;
    try (injection E1 as <-); try (injection E2 as <-);
    try congruence;
    try (eexists; split; [reflexivity|]; split; [congruence|];
         intros [?|?]; congruence).
  all: revert H1 H2.
  all: destruct (Z.compare_spec ex ey), (Z.compare_spec ey ez),
         (Z.compare_spec ex ez); try lia; try congruence; subst;
       try (intros _ _; eexists; split; [reflexivity|]; split; [congruence|];
            intros [?|?]; congruence).
  all: rewrite <- ?Pos.compare_cont_spec; simpl.
  all: fold (Pos.compare mx my); fold (Pos.compare my mz);
       fold (Pos.compare mx mz).
  all: destruct (Pos.compare_spec mx my), (Pos.compare_spec my mz),
         (Pos.compare_spec mx mz); simpl; try lia; try congruence;
       intros _ _; eexists; (split; [reflexivity|]); (split; [congruence|]);
       intros [?|?]; congruence.
Qed.

Lemma leb_trans (x y z : float) :
  (x <=? y)%float = true -> (y <=? z)%float = true -> (x <=? z)%float = true.
Proof.
  rewrite !FloatAxioms.leb_spec. unfold SFleb.
  destruct (SFcompare (Prim2SF x) (Prim2SF y)) as [c1|] eqn:E1; [|done].
  destruct (SFcompare (Prim2SF y) (Prim2SF z)) as [c2|] eqn:E2;
    [|by destruct c1].
  intros H1 H2.
  destruct (SFcompare_chain _ _ _ _ _ E1 E2) as (c3 & -> & H3 & _);
    [by destruct c1|by destruct c2|by destruct c3].
Qed.

Lemma ltb_leb_trans (x y z : float) :
  (x <? y)%float = true -> (y <=? z)%float = true -> (x <? z)%float = true.
Proof.
  rewrite !FloatAxioms.ltb_spec, FloatAxioms.leb_spec. unfold SFltb, SFleb.
  destruct (SFcompare (Prim2SF x) (Prim2SF y)) as [c1|] eqn:E1; [|done].
  destruct (SFcompare (Prim2SF y) (Prim2SF z)) as [c2|] eqn:E2;
    [|by destruct c1].
  intros H1 H2.
  destruct (SFcompare_chain _ _ _ _ _ E1 E2) as (c3 & -> & _ & H3);
    [by destruct c1|by destruct c2|].
  rewrite H3; [done|]. left. by destruct c1.
Qed.

Lemma ltb_irrefl (x : float) : (x <? x)%float = false.
Proof.
  rewrite FloatAxioms.ltb_spec. unfold SFltb.
  destruct (Prim2SF x) as [s|s| |s m e]; simpl; try done.
  - by destruct s.
  - rewrite Z.compare_refl, Pos.compare_cont_refl. by destruct s.
Qed.

(** A number that is strictly above another one is not a NaN: it is [<=]
    itself. *)
Lemma ltb_leb_refl (x y : float) :
  (x <? y)%float = true -> (y <=? y)%float = true.
Proof.
  rewrite FloatAxioms.ltb_spec, FloatAxioms.leb_spec. unfold SFltb, SFleb.
  destruct (Prim2SF x) as [sx|sx| |sx mx ex], (Prim2SF y) as [s|s| |s m e];
    simpl; try done; try by destruct s.
  all: intros _; rewrite Z.compare_refl, Pos.compare_cont_refl; by destruct s.
Qed.

Lemma SFcompare_swap x y c :
  SFcompare x y = Some c -> SFcompare y x = Some (CompOpp c).
Proof.
  destruct x as [sx|sx| |sx mx ex], y as [sy|sy| |sy my ey]; simpl;
    try destruct sx; try destruct sy; simpl;
    intros E; try discriminate; try (injection E as <-); try reflexivity.
  all: rewrite (Z.compare_antisym ey ex).
  all: destruct (ey ?= ex) eqn:Ez; simpl; try reflexivity.
  all: rewrite <- ?Pos.compare_cont_spec; simpl.
  all: fold (Pos.compare mx my); fold (Pos.compare my mx).
  all: rewrite (Pos.compare_antisym my mx).
  all: destruct (my ?= mx)%positive; reflexivity.
Qed.

(** Two numbers (no NaN) are comparable: if [y <= x] fails, [x < y]
    holds. *)
Lemma leb_false_ltb (x y : float) :
  (x <=? x)%float = true -> (y <=? y)%float = true ->
  (y <=? x)%float = false -> (x <? y)%float = true.
Proof.
  rewrite !FloatAxioms.leb_spec, FloatAxioms.ltb_spec. unfold SFleb, SFltb.
  destruct (SFcompare (Prim2SF x) (Prim2SF x)) as [cx|] eqn:Ex; [|done].
  destruct (SFcompare (Prim2SF y) (Prim2SF y)) as [cy|] eqn:Ey; [|done].
  intros _ _.
  assert (exists c, SFcompare (Prim2SF x) (Prim2SF y) = Some c) as [c Ec].
  { destruct (Prim2SF x) as [sx|sx| |sx mx ex],
      (Prim2SF y) as [sy|sy| |sy my ey]; simpl in *; try discriminate; eauto. }
  rewrite Ec, (SFcompare_swap _ _ _ Ec). by destruct c.
Qed.

Lemma leb_refl_of_leb (x y : float) :
  (x <=? y)%float = true ->
  (x <=? x)%float = true /\ (y <=? y)%float = true.
Proof.
  rewrite !FloatAxioms.leb_spec. unfold SFleb.
  destruct (Prim2SF x) as [sx|sx| |sx mx ex],
    (Prim2SF y) as [sy|sy| |sy my ey]; simpl; try done;
    try destruct sx; try destruct sy; simpl; try done;
    intros _; rewrite ?Z.compare_refl, ?Pos.compare_cont_refl; done.
Qed.

End FloatOrder.

Module TimeManagerProperties.
Import TimeManager TimeManagerParsing FloatFacts FloatOrder TimeManagerProofs Examples.

(** After a time control that is not empty has been set without an error,
    both [time_left] and [increment] are numbers (so [get_time_budget] has
    its operands), and without a plus sign the increment is 0.0. *)
Theorem set_time_control_parsed py_float (self self' : t) (tc : string) :
  tc <> EmptyString ->
  set_time_control py_float self tc = (Ok tt, self') ->
  is_Some (time_left self') /\ is_Some (increment self') /\
  parsed_or_absent self' /\
  (str_contains plus_sign tc = false -> increment self' = Some 0%float).
Proof.
  intros Hne. unfold set_time_control, _parse_time_control.
  destruct (decide (tc = EmptyString)); [done|].
  destruct (str_contains plus_sign tc).
  - destruct (let* p := py_getitem _ 0 in py_float p) as [base|e]; [|done].
    destruct (let* p := py_getitem _ 1 in py_float p) as [inc|e]; [|done].
    intros [= <-]. unfold parsed_or_absent. simpl.
    split_and!; [by eexists|by eexists|right; by eexists|done].
  - destruct (py_float tc) as [base|e]; [|done].
    intros [= <-]. unfold parsed_or_absent. simpl.
    split_and!; [by eexists|by eexists|right; by eexists|done].
Qed.

Lemma set_time_control_parsed_witness :
  set_time_control example_float __init__ "300+5" = (Ok tt, parsed 300 5) /\
  (is_Some (time_left (parsed 300 5)) /\ is_Some (increment (parsed 300 5)) /\
   parsed_or_absent (parsed 300 5) /\
   (str_contains plus_sign "300+5" = false ->
    increment (parsed 300 5) = Some 0%float)).
Proof.
  split; [vm_compute; reflexivity|].
  apply (set_time_control_parsed example_float __init__ (parsed 300 5) "300+5").
  - discriminate.
  - vm_compute. reflexivity.
Defined.

(** A time control whose second part does not parse leaves the manager half
    updated: [time_left] is the new base time, [increment] what it was. *)
Theorem set_time_control_half_parsed py_float (self : t) (tc : string)
    (base : float) e :
  tc <> EmptyString -> str_contains plus_sign tc = true ->
  (let* p := py_getitem (str_split plus_sign tc) 0 in py_float p) = Ok base ->
  (let* p := py_getitem (str_split plus_sign tc) 1 in py_float p) = Raise e ->
  set_time_control py_float self tc
    = (Raise e, mk (Some base) (increment self)).
Proof.
  intros Hne Hplus H0 H1. unfold set_time_control, _parse_time_control.
  destruct (decide (tc = EmptyString)); [done|].
  rewrite Hplus, H0, H1. done.
Qed.

Lemma set_time_control_half_parsed_witness :
  set_time_control example_float __init__ "300+x"
    = (Raise ValueError, mk (Some 300%float) None) /\
  get_time_budget (mk (Some 300%float) None) None = Raise TypeError.
Proof.
  split.
  - apply (set_time_control_half_parsed example_float __init__ "300+x"
             300%float ValueError); [discriminate|vm_compute; reflexivity..].
  - vm_compute. reflexivity.
Defined.

(** [update_time] on a manager that never parsed a time control: whatever
    the time and the move count, [get_time_budget] raises. *)
Theorem get_time_budget_after_bare_update (remaining : float)
    (moves_remaining : option Z) :
  get_time_budget (update_time __init__ remaining) moves_remaining
    = Raise TypeError \/
  get_time_budget (update_time __init__ remaining) moves_remaining
    = Raise OverflowError.
Proof.
  unfold get_time_budget, update_time, __init__. simpl.
  unfold float_of_Z.
  destruct (is_infinity _); simpl; [by right|by left].
Qed.

(** The budget is never strictly above a tenth of the remaining time, except
    when the floor of 0.1 seconds applies. *)
Theorem get_time_budget_cap (self : t) (moves_remaining : option Z)
    (remaining budget : float) :
  time_left self = Some remaining ->
  get_time_budget self moves_remaining = Ok budget ->
  budget = 0.1%float \/
  ((0.1 <? budget)%float = true /\
   (remaining * 0.1 <? budget)%float = false).
Proof.
  intros Htl. unfold get_time_budget. rewrite Htl.
  destruct (float_of_Z _) as [divisor|]; [|done]. simpl.
  destruct (increment self) as [inc|]; [|done].
  intros [= <-]. unfold py_max.
  set (x := (remaining * 0.1)%float).
  set (b := ((remaining / divisor + inc) * 0.8)%float).
  destruct (0.1 <? py_min b x)%float eqn:E; [|by left].
  right. split; [done|]. unfold py_min.
  destruct (x <? b)%float eqn:E2; [apply ltb_irrefl|done].
Qed.

Lemma get_time_budget_cap_witness :
  (16%float = 0.1%float \/
   ((0.1 <? 16)%float = true /\ (300 * 0.1 <? 16)%float = false)).
Proof.
  apply (get_time_budget_cap (parsed 300 5) None 300%float 16%float).
  - reflexivity.
  - vm_compute. reflexivity.
Defined.

Lemma emergency_time_upper (self : t) :
  (get_emergency_time self <=? 0.1)%float = true.
Proof.
  unfold get_emergency_time. destruct (time_left self) as [tl|]; [|done].
  unfold py_min. destruct (tl * 0.1 <? 0.1)%float eqn:E; [|done].
  by apply ltb_leb.
Qed.

(** The emergency budget is at most 0.1 seconds, and a budget that
    [get_time_budget] returns is never below it. *)
Theorem emergency_time_below_budget (self : t) (moves_remaining : option Z)
    (budget : float) :
  get_time_budget self moves_remaining = Ok budget ->
  (get_emergency_time self <=? 0.1)%float = true /\
  (get_emergency_time self <=? budget)%float = true.
Proof.
  intros E. split; [apply emergency_time_upper|].
  eapply leb_trans; [apply emergency_time_upper|].
  revert E. unfold get_time_budget.
  destruct (time_left self) as [tl|].
  - destruct (float_of_Z _) as [divisor|]; [|done]. simpl.
    destruct (increment self) as [inc|]; [|done].
    intros [= <-]. by apply py_max_lower.
  - by intros [= <-].
Qed.

Lemma emergency_time_below_budget_witness :
  (get_emergency_time (parsed 0.05 0) <=? 0.1)%float = true /\
  (get_emergency_time (parsed 0.05 0) <=? 0.1)%float = true.
Proof.
  apply (emergency_time_below_budget (parsed 0.05 0) (Some 40) 0.1%float).
  vm_compute. reflexivity.
Defined.

End TimeManagerProperties.

Module EvaluationProperties.
Import Evaluation EvaluationChecks FloatFacts FloatOrder EvaluationProofs Examples.

Lemma centipawn_round_trip_all :
  forallb centipawn_round_trip_check (seqZ (-1000) 2001) = true.
Proof. vm_compute. reflexivity. Qed.

(** Centipawns to value and back: every score comes back clamped to
    [[-1000, 1000]] exactly (the division and the multiplication by 1000
    lose nothing on these inputs), and the value in between is in
    [[-1, 1]]. *)
Theorem centipawn_round_trip (cp : Z) :
  exists v, centipawns_to_value cp = Ok v /\
    value_to_centipawns v = Ok (Z.max (-1000) (Z.min 1000 cp)) /\
    (-1 <=? v)%float = true /\ (v <=? 1)%float = true.
Proof.
  rewrite centipawns_to_value_clamp.
  pose proof centipawn_round_trip_all as H. rewrite forallb_forall in H.
  specialize (H (Z.max (-1000) (Z.min 1000 cp))).
  unfold centipawn_round_trip_check in H.
  destruct (centipawns_to_value _) as [v|].
  - exists v. split; [done|].
    destruct (value_to_centipawns v) as [cp'|].
    + assert ((cp' =? Z.max (-1000) (Z.min 1000 cp)) &&
              ((-1 <=? v) && (v <=? 1))%float = true) as Hc.
      { apply H. apply list_elem_of_In, elem_of_seqZ. lia. }
      apply andb_true_iff in Hc as [Heq Hb].
      apply andb_true_iff in Hb as [Hlo Hhi].
      apply Z.eqb_eq in Heq. by subst.
    + discriminate H. apply list_elem_of_In, elem_of_seqZ. lia.
  - discriminate H. apply list_elem_of_In, elem_of_seqZ. lia.
Qed.

Section WithRules.
Context `{RE : RulesEngine}.

Lemma evaluate_position_unfold (board : Board) :
  evaluate_position board =
  let* material_score := for_each SQUARES (material_body board) 0 in
  let material_score :=
    if negb (turn board) then - material_score else material_score in
  let* value := centipawns_to_value material_score in
  Ok (value, material_score).
Proof. reflexivity. Qed.

Lemma piece_value_proper (pt : Z) :
  1 <= pt <= 6 ->
  exists v, py_dict_get piece_values pt = Ok v /\ 0 < v <= 20000.
Proof.
  intros H.
  assert (pt = 1 \/ pt = 2 \/ pt = 3 \/ pt = 4 \/ pt = 5 \/ pt = 6)
    as [->|[->|[->|[->|[->| ->]]]]] by lia;
    eexists; (split; [vm_compute; reflexivity|lia]).
Qed.

Lemma material_on_cons (board : Board) (side : bool) (sq : Z)
    (squares : list Z) :
  material_on board side (sq :: squares)
  = match piece_at board sq with
    | Some piece =>
        if Bool.eqb (color piece) side
        then default 0 (piece_values !! piece_type piece) else 0
    | None => 0
    end + material_on board side squares.
Proof. reflexivity. Qed.

Lemma material_loop_balance (board : Board) (squares : list Z) :
  proper_pieces board ->
  forall acc,
    for_each squares (material_body board) acc
    = Ok (acc + material_on board WHITE squares
              - material_on board BLACK squares) /\
    0 <= material_on board WHITE squares
      <= 20000 * Z.of_nat (length squares) /\
    0 <= material_on board BLACK squares
      <= 20000 * Z.of_nat (length squares).
Proof.
  intros Hp. induction squares as [|sq squares IH]; intros acc.
  { unfold material_on. simpl. split; [f_equal; lia|lia]. }
  rewrite !material_on_cons. cbn [for_each length].
  unfold material_body at 1.
  destruct (piece_at board sq) as [piece|] eqn:E.
  - destruct (piece_value_proper _ (Hp _ _ E)) as (v & Ev & Hv).
    rewrite Ev. cbn [rbind].
    assert (default 0 (piece_values !! piece_type piece) = v) as ->.
    { unfold py_dict_get in Ev.
      destruct (piece_values !! piece_type piece); by simplify_eq. }
    destruct (color piece); cbn [rbind Bool.eqb WHITE BLACK].
    + destruct (IH (acc + v)) as (-> & Hw & Hb). split; [f_equal; lia|lia].
    + destruct (IH (acc - v)) as (-> & Hw & Hb). split; [f_equal; lia|lia].
  - cbn [rbind]. destruct (IH acc) as (-> & Hw & Hb).
    split; [f_equal; lia|lia].
Qed.

(** On a board whose pieces are chess pieces, [evaluate_position] returns.
    The score is the material balance (White's material minus Black's)
    seen from the side to move, unclamped and bounded only by what 64
    squares can hold; the value is that score clamped to [[-1000, 1000]]
    and divided by 1000, hence in [[-1, 1]]. *)
Theorem evaluate_position_proper (board : Board) :
  proper_pieces board ->
  exists v cp, evaluate_position board = Ok (v, cp) /\
    cp = (if turn board then material_balance board
          else - material_balance board) /\
    centipawns_to_value cp = Ok v /\
    (-1 <=? v)%float = true /\ (v <=? 1)%float = true /\
    Z.abs cp <= 1280000.
Proof.
  intros Hp. rewrite evaluate_position_unfold.
  destruct (material_loop_balance board SQUARES Hp 0) as (Em & Hw & Hb).
  rewrite Em. cbv beta iota zeta delta [rbind].
  set (m := 0 + material_on board WHITE SQUARES
              - material_on board BLACK SQUARES).
  set (cp := if negb (turn board) then - m else m).
  destruct (centipawns_to_value_bounds cp) as (v & Ev & Hlo & Hhi).
  exists v, cp. rewrite Ev.
  assert (length SQUARES = 64%nat) as Hlen by reflexivity.
  rewrite Hlen in Hw, Hb.
  split; [reflexivity|]. split.
  { unfold cp, m, material_balance. destruct (turn board); simpl; lia. }
  split; [reflexivity|]. split; [exact Hlo|]. split; [exact Hhi|].
  unfold cp, m. destruct (negb (turn board)); lia.
Qed.

Lemma material_loop_ext (b1 b2 : Board) (squares : list Z) :
  (forall square, piece_at b1 square = piece_at b2 square) ->
  forall acc, for_each squares (material_body b1) acc
              = for_each squares (material_body b2) acc.
Proof.
  intros Hext. induction squares as [|sq squares IH]; intros acc; simpl.
  { done. }
  unfold material_body at 1 3. rewrite Hext.
  destruct (piece_at b2 sq) as [piece|]; simpl; [|apply IH].
  destruct (py_dict_get _ _); simpl; [|done].
  destruct (color piece); simpl; apply IH.
Qed.

(** The score is from the side to move: the same pieces with the other side
    to move give the opposite score. *)
Theorem evaluate_position_side_to_move (b1 b2 : Board) (v1 : float) (cp1 : Z) :
  (forall square, piece_at b1 square = piece_at b2 square) ->
  turn b2 = negb (turn b1) ->
  evaluate_position b1 = Ok (v1, cp1) ->
  exists v2, evaluate_position b2 = Ok (v2, - cp1).
Proof.
  intros Hext Hturn. rewrite !evaluate_position_unfold.
  rewrite (material_loop_ext b1 b2 SQUARES Hext 0).
  destruct (for_each SQUARES (material_body b2) 0) as [m|]; [|done].
  cbv beta iota zeta delta [rbind]. rewrite Hturn.
  destruct (centipawns_to_value (if negb (turn b1) then - m else m))
    as [v|] eqn:E1; [|done]. intros [= <- <-].
  destruct (centipawns_to_value_bounds
              (if negb (negb (turn b1)) then - m else m)) as (v2 & -> & _).
  exists v2. f_equal. f_equal. destruct (turn b1); simpl; lia.
Qed.

End WithRules.

Lemma evaluate_position_proper_witness :
  exists v cp, evaluate_position kqk_board = Ok (v, cp) /\
    cp = (if turn kqk_board then material_balance kqk_board
          else - material_balance kqk_board) /\
    centipawns_to_value cp = Ok v /\
    (-1 <=? v)%float = true /\ (v <=? 1)%float = true /\
    Z.abs cp <= 1280000.
Proof.
  apply (evaluate_position_proper (RE := example_rules) kqk_board).
  intros square piece. simpl.
  repeat case_decide; intros [= <-]; simpl; done.
Defined.

Lemma evaluate_position_side_to_move_witness :
  exists v2,
    Evaluation.evaluate_position (RE := sided_rules) (KQK, BLACK)
      = Ok (v2, - -900).
Proof.
  apply (evaluate_position_side_to_move (RE := sided_rules) (KQK, WHITE)
           (KQK, BLACK) (-0.9)%float (-900)).
  - reflexivity.
  - reflexivity.
  - vm_compute. reflexivity.
Defined.

(** With a draw threshold that is not above the win threshold (the defaults
    are 0.1 and 0.8), no value is both winning and drawish. *)
Theorem winning_not_drawish (value win draw : float) :
  (draw <=? win)%float = true ->
  is_winning_position value win && is_drawish_position value draw = false.
Proof.
  intros Hle. unfold is_winning_position, is_drawish_position.
  destruct (win <? abs value)%float eqn:Hw; [|done].
  destruct (abs value <? draw)%float eqn:Hd; [|done].
  pose proof (ltb_leb_trans _ _ _ Hd Hle) as H1.
  pose proof (ltb_trans _ _ _ H1 Hw) as H2.
  by rewrite ltb_irrefl in H2.
Qed.

Lemma winning_not_drawish_witness :
  is_winning_position 0.9 0.8 && is_drawish_position 0.9 0.1 = false.
Proof. apply winning_not_drawish. vm_compute. reflexivity. Defined.

End EvaluationProperties.

Module MoveIndexProperties.
Import MoveIndex MoveIndexProofs Examples.

(** *** Squares outside the board *)

Lemma square_name_out_of_range (square : Z) :
  ~ -64 <= square < 64 -> square_name square = Raise IndexError.
Proof.
  intros H. unfold square_name, py_getitem.
  assert (length SQUARE_NAMES = 64%nat) as -> by reflexivity.
  destruct (Z.ltb_spec square 0);
    destruct (Z.leb_spec 0 (square + Z.of_nat 64));
    destruct (Z.leb_spec 0 square);
    destruct (Z.ltb_spec (square + Z.of_nat 64) (Z.of_nat 64));
    destruct (Z.ltb_spec square (Z.of_nat 64)); simpl; try reflexivity; lia.
Qed.

Lemma square_name_in_range (square : Z) :
  -64 <= square < 64 -> exists s, square_name square = Ok s.
Proof.
  intros H. unfold square_name, py_getitem.
  assert (length SQUARE_NAMES = 64%nat) as Hlen by reflexivity.
  rewrite Hlen.
  set (j := if square <? 0 then square + Z.of_nat 64 else square).
  assert (0 <= j < 64) as Hj by (unfold j; destruct (Z.ltb_spec square 0); lia).
  destruct (Z.leb_spec 0 j); [|lia].
  destruct (Z.ltb_spec j (Z.of_nat 64)); [|lia]. simpl.
  destruct (SQUARE_NAMES !! Z.to_nat j) as [s|] eqn:E; [by exists s|].
  apply lookup_ge_None in E. rewrite Hlen in E. lia.
Qed.

(** [to_id] raises [IndexError] instead of answering [-1] for a move with a
    square that is no index of [SQUARE_NAMES], whatever the index holds and
    whatever the promotion. *)
Theorem to_id_square_out_of_range (self : t) (m : Move) :
  ~ (-64 <= from_square m < 64 /\ -64 <= to_square m < 64) ->
  to_id self m = Raise IndexError.
Proof.
  intros H. unfold to_id, _move_to_string.
  destruct (decide (-64 <= from_square m < 64)) as [Hf|Hf].
  - destruct (square_name_in_range _ Hf) as (s & ->). simpl.
    rewrite square_name_out_of_range; [done|]. intros Ht. apply H. done.
  - rewrite square_name_out_of_range; done.
Qed.

Lemma to_id_square_out_of_range_witness :
  to_id move_index (mkMove 12 64 (Some QUEEN)) = Raise IndexError.
Proof.
  apply (to_id_square_out_of_range move_index (mkMove 12 64 (Some QUEEN))).
  simpl. lia.
Defined.

Section Index.
Variable self : t.
Hypothesis HI : Inv self.
Hypothesis Hcov : forall m, registered_shape m ->
  covers self (from_square m) (to_square m) (promotion m).

Lemma id_has_one_move (id : Z) :
  0 <= id < action_space_size self ->
  exists m, registered_shape m /\ to_id self m = Ok id /\
    forall m', registered_shape m' -> to_id self m' = Ok id -> m' = m.
Proof.
  intros Hid. destruct (proj2 (inv_ids self HI id) Hid) as [s Hs].
  destruct (id_to_move_parse self HI id s Hs) as (m & _ & Hm & Eid).
  exists m. split; [exact Hm|]. split; [exact Eid|].
  intros m' Hm' E'. exact (to_id_inj self HI Hcov m' m id Hm' Hm E' Eid).
Qed.

Section WithRules.
Context `{RE : RulesEngine}.

(** The loop of [get_legal_move_ids] over moves of registered shape. *)
Lemma ids_loop (board : Board) (ms : list Move) :
  (forall m, m ∈ ms -> registered_shape m) ->
  (forall m, m ∈ ms -> m ∈ legal_moves board) ->
  forall acc, exists ids,
    for_each ms (fun move legal_ids =>
      let* move_id := to_id self move in
      if 0 <=? move_id then Ok (legal_ids ++ [move_id]) else Ok legal_ids) acc
    = Ok (acc ++ ids) /\
    Forall2 (fun m id =>
      to_id self m = Ok id /\ 0 <= id < action_space_size self /\
      from_id self id board = Ok (Some m)) ms ids.
Proof.
  induction ms as [|m ms IH]; intros Hshape Hlegal acc.
  { exists []. simpl. rewrite app_nil_r. split; [reflexivity|constructor]. }
  assert (registered_shape m) as Hm by (apply Hshape; left).
  destruct (to_id_registered self HI Hcov m Hm) as (s & id & _ & Eid & Hid & _).
  destruct IH with (acc := acc ++ [id]) as (ids & E & Hall).
  { intros m' Hm'. apply Hshape. by right. }
  { intros m' Hm'. apply Hlegal. by right. }
  exists (id :: ids). cbn [for_each]. rewrite Eid. cbn [rbind].
  destruct (Z.leb_spec 0 id); [|lia]. cbn [rbind].
  rewrite E, <- app_assoc. simpl.
  split; [reflexivity|]. constructor; [|exact Hall].
  split; [exact Eid|]. split; [exact Hid|].
  destruct (from_id_spec self HI Hcov id board) as (r & Er & Hr & _).
  rewrite Er. f_equal. apply Hr.
  split; [apply is_legal_listed, Hlegal; left|]. by split.
Qed.

Lemma ids_NoDup (board : Board) (ms : list Move) (ids : list Z) :
  (forall m, m ∈ ms -> registered_shape m) -> NoDup ms ->
  Forall2 (fun m id =>
    to_id self m = Ok id /\ 0 <= id < action_space_size self /\
    from_id self id board = Ok (Some m)) ms ids ->
  NoDup ids.
Proof.
  intros Hshape Hnd Hall. revert Hshape Hnd.
  induction Hall as [|m id ms ids (Eid & _ & _) Hall IH]; intros Hshape Hnd.
  { constructor. }
  apply NoDup_cons in Hnd as [Hnotin Hnd].
  constructor.
  - intros Hin. apply Hnotin.
    apply list_elem_of_lookup in Hin as [i Hi].
    destruct (Forall2_lookup_r _ _ _ _ _ Hall Hi) as (m' & Hm' & Eid' & _).
    assert (m' ∈ ms) as Hin' by (eapply list_elem_of_lookup_2; exact Hm').
    assert (m = m') as ->; [|exact Hin'].
    eapply (to_id_inj self HI Hcov m m' id); [apply Hshape; left| |done..].
    apply Hshape. by right.
  - apply IH; [|exact Hnd]. intros m' Hm'. apply Hshape. by right.
Qed.

End WithRules.

Section WithChess.
Context `{CM : ChessMoves}.

Lemma get_legal_move_ids_index (board : Board) :
  exists ids, get_legal_move_ids self board = Ok ids /\
    Forall2 (fun m id =>
      to_id self m = Ok id /\ 0 <= id < action_space_size self /\
      from_id self id board = Ok (Some m)) (legal_moves board) ids /\
    NoDup ids.
Proof.
  destruct (ids_loop board (legal_moves board)) with (acc := @nil Z)
    as (ids & E & Hall).
  { intros m Hm. by eapply legal_moves_shape. }
  { done. }
  exists ids. split; [exact E|]. split; [exact Hall|].
  eapply ids_NoDup; [|apply legal_moves_NoDup|exact Hall].
  intros m Hm. by eapply legal_moves_shape.
Qed.

Lemma mask_ids_index (board : Board) :
  exists mask ids,
    get_legal_move_mask self board = Ok mask /\
    get_legal_move_ids self board = Ok ids /\
    length ids = popcount mask /\
    forall i : nat, mask !! i = Some true <-> Z.of_nat i ∈ ids.
Proof.
  destruct (get_legal_move_mask_spec self HI Hcov board)
    as (mask & Em & _ & Hpop & Hmask).
  destruct (get_legal_move_ids_index board) as (ids & Ei & Hall & _).
  exists mask, ids. split; [exact Em|]. split; [exact Ei|].
  split.
  { rewrite Hpop. symmetry. eapply Forall2_length, Hall. }
  intros i. rewrite Hmask. split.
  - intros (m & Hm & Eid).
    apply list_elem_of_lookup in Hm as [k Hk].
    destruct (Forall2_lookup_l _ _ _ _ _ Hall Hk) as (id & Hid & Eid' & _).
    assert (id = Z.of_nat i) as <- by congruence.
    eapply list_elem_of_lookup_2. exact Hid.
  - intros Hin. apply list_elem_of_lookup in Hin as [k Hk].
    destruct (Forall2_lookup_r _ _ _ _ _ Hall Hk) as (m & Hm & Eid & _).
    exists m. split; [|exact Eid].
    eapply list_elem_of_lookup_2. exact Hm.
Qed.

End WithChess.

End Index.

(** The ids are dense and unambiguous: each of the 20160 ids in
    [[0, action_space_size())] belongs to exactly one move among the shapes
    [_generate_all_moves] runs through. *)
Theorem id_belongs_to_one_move (id : Z) :
  0 <= id < 20160 ->
  exists m, registered_shape m /\ to_id move_index m = Ok id /\
    forall m', registered_shape m' -> to_id move_index m' = Ok id -> m' = m.
Proof.
  intros Hid. apply (id_has_one_move move_index move_index_Inv).
  - exact move_index_covers.
  - rewrite action_space_size_value. exact Hid.
Qed.

Lemma id_belongs_to_one_move_witness :
  exists m, registered_shape m /\ to_id move_index m = Ok 0 /\
    forall m', registered_shape m' -> to_id move_index m' = Ok 0 -> m' = m.
Proof. apply (id_belongs_to_one_move 0). lia. Defined.

Section WithChess.
Context `{CM : ChessMoves}.

(** [get_legal_move_ids] lists the ids of the legal moves in the order of
    [board.legal_moves], none twice and none dropped; each is in the action
    space and [from_id] decodes it, on the same board, to the move it came
    from. *)
Theorem legal_move_ids_in_order (board : Board) :
  exists ids, get_legal_move_ids move_index board = Ok ids /\
    Forall2 (fun m id =>
      to_id move_index m = Ok id /\ 0 <= id < 20160 /\
      from_id move_index id board = Ok (Some m)) (legal_moves board) ids /\
    NoDup ids.
Proof.
  destruct (get_legal_move_ids_index move_index move_index_Inv
              move_index_covers board) as (ids & E & Hall & Hnd).
  exists ids. split; [exact E|]. split; [|exact Hnd].
  rewrite action_space_size_value in Hall. exact Hall.
Qed.

(** The mask and the id list of one board say the same: position [i] of the
    mask is [True] exactly when [i] is among the ids, and there are as many
    ids as [True] entries. *)
Theorem legal_move_ids_match_mask (board : Board) :
  exists mask ids,
    get_legal_move_mask move_index board = Ok mask /\
    get_legal_move_ids move_index board = Ok ids /\
    length ids = popcount mask /\
    forall i : nat, mask !! i = Some true <-> Z.of_nat i ∈ ids.
Proof.
  exact (mask_ids_index move_index move_index_Inv move_index_covers board).
Qed.

End WithChess.

Lemma legal_move_ids_in_order_witness :
  exists ids, get_legal_move_ids move_index start_board = Ok ids /\
    Forall2 (fun m id =>
      to_id move_index m = Ok id /\ 0 <= id < 20160 /\
      from_id move_index id start_board = Ok (Some m))
      (legal_moves start_board) ids /\
    NoDup ids.
Proof.
  exact (legal_move_ids_in_order (CM := example_chess_moves) start_board).
Defined.

Lemma legal_move_ids_match_mask_witness :
  exists mask ids,
    get_legal_move_mask move_index kqk_board = Ok mask /\
    get_legal_move_ids move_index kqk_board = Ok ids /\
    length ids = popcount mask /\
    forall i : nat, mask !! i = Some true <-> Z.of_nat i ∈ ids.
Proof.
  exact (legal_move_ids_match_mask (CM := example_chess_moves) kqk_board).
Defined.

End MoveIndexProperties.

Module AlphaBetaProperties.
Import AlphaBeta AlphaBetaBalance AlphaBetaProofs Examples.

(** *** Move ordering *)

Lemma insert_desc_perm {A} (key : A -> Z) x l :
  insert_desc key x l ≡ₚ x :: l.
Proof.
  induction l as [|y l IH]; simpl; [done|].
  destruct (key x <? key y); [|done].
  rewrite IH. apply Permutation_swap.
Qed.

Lemma insert_desc_filter {A} (key : A -> Z) k x l :
  filter (fun y => key y = k) (insert_desc key x l)
  = filter (fun y => key y = k) (x :: l).
Proof.
  induction l as [|y l IH]; simpl; [done|].
  destruct (Z.ltb_spec (key x) (key y)) as [Hlt|Hge]; [|done].
  rewrite !filter_cons in *. rewrite IH.
  repeat case_decide; try done; lia.
Qed.

Lemma insert_desc_sorted {A} (key : A -> Z) x l :
  Sorted (fun a b => key b <= key a) l ->
  Sorted (fun a b => key b <= key a) (insert_desc key x l).
Proof.
  induction 1 as [|y l Hs IH Hhd]; simpl.
  { repeat constructor. }
  destruct (Z.ltb_spec (key x) (key y)) as [Hlt|Hge].
  - constructor; [done|].
    destruct l as [|z l]; simpl in *.
    + constructor. lia.
    + destruct (Z.ltb_spec (key x) (key z)); constructor; [|lia].
      by inversion Hhd.
  - constructor; [by constructor|]. constructor. lia.
Qed.

Section WithRules.
Context `{RE : RulesEngine}.
Variable evaluator : Board -> result (float * Z).
Variable now : nat -> float.

(** [_order_moves] changes nothing but the order: its result is a
    permutation of the moves, in descending priority, and moves of equal
    priority keep the order they came in. *)
Theorem order_moves_sorted_permutation (moves : list Move) (st : state) :
  exists ordered, _order_moves moves st = (Ok ordered, st) /\
    ordered ≡ₚ moves /\
    Sorted (fun a b => move_priority st b <= move_priority st a) ordered /\
    forall k, filter (fun m => move_priority st m = k) ordered
              = filter (fun m => move_priority st m = k) moves.
Proof.
  eexists. split; [reflexivity|]. unfold sorted_desc.
  split_and!.
  - induction moves as [|m moves IH]; simpl; [done|].
    rewrite insert_desc_perm. by rewrite IH.
  - induction moves as [|m moves IH]; simpl; [constructor|].
    by apply insert_desc_sorted.
  - intros k. induction moves as [|m moves IH]; simpl; [done|].
    rewrite insert_desc_filter. rewrite !filter_cons. by rewrite IH.
Qed.

(** *** What a search leaves alone *)

Section Frame.
Variable P : state -> Prop.
Hypothesis P_board : forall st b, P st -> P (set_board b st).
Hypothesis P_ticks : forall st n, P st -> P (set_ticks n st).
Hypothesis P_nodes : forall st n, P st -> P (set_nodes_searched n st).
Hypothesis P_table : forall st t, P st -> P (set_transposition_table t st).
Hypothesis P_killer : forall move d, preserves P (_store_killer_move move d).

Lemma frame_time_time : preserves P (time_time now).
Proof. intros st r st' HP [= _ <-]. by apply P_ticks. Qed.

Lemma frame_evaluate : preserves P (evaluate evaluator).
Proof.
  unfold evaluate. apply preserves_bind; [apply preserves_get|]. intros st.
  apply preserves_bind; [apply preserves_lift|]. intros r. apply preserves_ret.
Qed.

Lemma frame_order_moves moves : preserves P (_order_moves moves).
Proof.
  unfold _order_moves. apply preserves_bind; [apply preserves_get|].
  intros st. apply preserves_ret.
Qed.

Lemma frame_quiescence_loop child beta :
  (forall a b, preserves P (child a b)) ->
  forall captures alpha, preserves P (quiescence_loop child beta captures alpha).
Proof.
  intros Hchild. induction captures as [|move captures IH]; intros alpha; simpl.
  { apply preserves_ret. }
  apply preserves_bind; [apply preserves_modify; auto|]. intros _.
  apply preserves_bind; [apply Hchild|]. intros r.
  apply preserves_bind; [apply preserves_modify; auto|]. intros _.
  destruct (beta <=? - r)%float; [apply preserves_ret|apply IH].
Qed.

Lemma frame_quiescence fuel : forall alpha beta depth max_depth,
  preserves P (_quiescence_search evaluator fuel alpha beta depth max_depth).
Proof.
  induction fuel as [|fuel IH]; intros alpha beta depth max_depth; simpl.
  { apply preserves_raise. }
  destruct (max_depth <=? depth); [apply frame_evaluate|].
  apply preserves_bind; [apply frame_evaluate|]. intros stand_pat.
  destruct (beta <=? stand_pat)%float; [apply preserves_ret|].
  apply preserves_bind; [apply preserves_get|]. intros st.
  apply preserves_bind; [apply frame_order_moves|]. intros captures.
  apply frame_quiescence_loop. intros a b. apply IH.
Qed.

Lemma frame_alpha_beta_loop child beta :
  (forall a b, preserves P (child a b)) ->
  forall moves v, preserves P (alpha_beta_loop child beta moves v).
Proof.
  intros Hchild. induction moves as [|move moves IH]; intros v; simpl.
  { apply preserves_ret. }
  apply preserves_bind; [apply preserves_modify; auto|]. intros _.
  apply preserves_bind; [apply Hchild|]. intros r.
  apply preserves_bind; [apply preserves_modify; auto|]. intros _.
  destruct (beta <=? - r)%float; [|apply IH].
  apply preserves_bind; [apply preserves_get|]. intros st.
  apply preserves_bind; [apply P_killer|]. intros _.
  apply preserves_ret.
Qed.

Lemma frame_alpha_beta fuel :
  forall depth alpha beta max_depth start_time max_time,
  preserves P
    (_alpha_beta evaluator now fuel depth alpha beta max_depth
       start_time max_time).
Proof.
  induction fuel as [|fuel IH];
    intros depth alpha beta max_depth start_time max_time; simpl.
  { apply preserves_raise. }
  apply preserves_bind; [apply preserves_modify; auto|]. intros _.
  apply preserves_bind; [apply frame_time_time|]. intros t.
  destruct (max_time <=? t - start_time)%float; [apply frame_evaluate|].
  apply preserves_bind; [apply preserves_get|]. intros st.
  destruct (is_checkmate (board st)); [apply preserves_ret|].
  destruct (is_stalemate (board st) || is_insufficient_material (board st));
    [apply preserves_ret|].
  destruct (max_depth <=? depth); [apply frame_quiescence|].
  destruct (probe_table st (fen (board st)) depth alpha beta)
    as [value|alpha' beta']; [apply preserves_ret|].
  destruct (legal_moves (board st)) as [|m ms]; [apply frame_evaluate|].
  apply preserves_bind; [apply frame_order_moves|]. intros moves.
  apply preserves_bind.
  { apply frame_alpha_beta_loop. intros a b. apply IH. }
  intros v. apply preserves_bind; [apply preserves_modify; auto|]. intros _.
  apply preserves_ret.
Qed.

Lemma frame_search_loop fuel start_time max_time depths :
  forall v, preserves P (search_loop evaluator now fuel start_time max_time depths v).
Proof.
  induction depths as [|d depths IH]; intros v; simpl.
  { apply preserves_ret. }
  apply preserves_bind; [apply frame_time_time|]. intros t.
  destruct (max_time <=? t - start_time)%float; [apply preserves_ret|].
  intros st r st' HP.
  destruct (_alpha_beta _ _ _ _ _ _ _ _ _ st) as [[value|e] st1] eqn:E.
  - intros E'. eapply IH; [|exact E'].
    eapply frame_alpha_beta; [exact HP|exact E].
  - intros [= _ <-]. eapply frame_alpha_beta; [exact HP|exact E].
Qed.

Lemma frame_search fuel max_time max_depth :
  preserves P (search evaluator now fuel max_time max_depth).
Proof.
  unfold search.
  apply preserves_bind; [apply preserves_modify; auto|]. intros _.
  apply preserves_bind; [apply frame_time_time|]. intros start_time.
  apply preserves_bind; [apply frame_search_loop|]. intros v.
  apply preserves_bind; [apply preserves_lift|]. intros cp.
  apply preserves_bind; [apply preserves_get|]. intros st.
  destruct (it_depth v); [apply preserves_ret|apply preserves_raise].
Qed.

End Frame.

(** However a search ends (a result or an exception), no ply holds more than
    two killer moves afterwards if none did before; the searcher object may
    be reused. *)
Theorem search_keeps_killers_bounded fuel max_time max_depth st r st' :
  killers_bounded st ->
  search evaluator now fuel max_time max_depth st = (r, st') ->
  killers_bounded st'.
Proof.
  intros Hb E. eapply (frame_search killers_bounded); try exact E; try done.
  apply killers_bounded_store.
Qed.

(** The history table is read by the move ordering but no search ever writes
    it: it comes out of [search] and of [_alpha_beta] as it went in. *)
Theorem search_never_writes_history fuel max_time max_depth depth alpha beta
    start_time (st : state) :
  history_table (snd (search evaluator now fuel max_time max_depth st))
    = history_table st /\
  history_table (snd (_alpha_beta evaluator now fuel depth alpha beta
                        max_depth start_time max_time st))
    = history_table st.
Proof.
  assert (forall move d,
    preserves (fun s => history_table s = history_table st)
      (_store_killer_move move d)) as Hk.
  { intros move d s r s' Hs [= _ <-]. done. }
  split.
  - destruct (search _ _ _ _ _ st) as [r st'] eqn:E. simpl.
    eapply (frame_search (fun s => history_table s = history_table st));
      try exact E; try done.
  - destruct (_alpha_beta _ _ _ _ _ _ _ _ _ st) as [r st'] eqn:E. simpl.
    eapply (frame_alpha_beta (fun s => history_table s = history_table st));
      try exact E; try done.
Qed.

(** *** Push and pop are balanced *)

Section Balanced.
Context {PP : PushPop}.

Lemma restores_quiescence_loop child beta :
  (forall a b, restores (child a b)) ->
  forall captures alpha, restores (quiescence_loop child beta captures alpha).
Proof.
  intros Hchild. induction captures as [|move captures IH]; intros alpha; simpl.
  { by intros st a st' [= _ <-]. }
  intros st a st'.
  intros [(u1 & st1 & [= _ <-] & E)|(e & _ & [=])]%bind_inv.
  apply bind_inv in E as [(r & st2 & Ec & E)|(e & _ & [=])].
  apply bind_inv in E as [(u2 & st3 & [= _ <-] & E)|(e & _ & [=])].
  assert (board (set_board (pop (board st2)) st2) = board st) as Hb.
  { simpl. rewrite (Hchild _ _ _ _ _ Ec). simpl. apply pop_push. }
  destruct (beta <=? - r)%float.
  - injection E as _ <-. done.
  - apply IH in E. by rewrite E.
Qed.

Lemma restores_evaluate : restores (evaluate evaluator).
Proof.
  intros st a st'. unfold evaluate.
  intros [(s & st1 & [= <- <-] & E)|(e & _ & [=])]%bind_inv.
  apply bind_inv in E as [(r & st2 & [= _ <-] & [= _ <-])|(e & _ & [=])].
  done.
Qed.

Lemma restores_quiescence fuel : forall alpha beta depth max_depth,
  restores (_quiescence_search evaluator fuel alpha beta depth max_depth).
Proof.
  induction fuel as [|fuel IH]; intros alpha beta depth max_depth; simpl.
  { by intros st a st' [=]. }
  destruct (max_depth <=? depth); [apply restores_evaluate|].
  intros st a st'.
  intros [(stand_pat & st1 & Ev & E)|(e & _ & [=])]%bind_inv.
  apply restores_evaluate in Ev.
  destruct (beta <=? stand_pat)%float.
  { injection E as _ <-. done. }
  apply bind_inv in E as [(s & st2 & [= <- <-] & E)|(e & _ & [=])].
  apply bind_inv in E as [(captures & st3 & [= _ <-] & E)|(e & _ & [=])].
  apply restores_quiescence_loop in E; [congruence|].
  intros a' b'. apply IH.
Qed.

Lemma restores_alpha_beta_loop child beta :
  (forall a b, restores (child a b)) ->
  forall moves v, restores (alpha_beta_loop child beta moves v).
Proof.
  intros Hchild. induction moves as [|move moves IH]; intros v; simpl.
  { by intros st a st' [= _ <-]. }
  intros st a st'.
  intros [(u1 & st1 & [= _ <-] & E)|(e & _ & [=])]%bind_inv.
  apply bind_inv in E as [(r & st2 & Ec & E)|(e & _ & [=])].
  apply bind_inv in E as [(u2 & st3 & [= _ <-] & E)|(e & _ & [=])].
  assert (board (set_board (pop (board st2)) st2) = board st) as Hb.
  { simpl. rewrite (Hchild _ _ _ _ _ Ec). simpl. apply pop_push. }
  destruct (beta <=? - r)%float.
  - apply bind_inv in E as [(s & st4 & [= <- <-] & E)|(e & _ & [=])].
    apply bind_inv in E as [(u3 & st5 & [= _ <-] & [= _ <-])|(e & _ & [=])].
    done.
  - apply IH in E. by rewrite E.
Qed.

(** With a rules engine whose [pop] undoes [push], an [_alpha_beta] call
    that returns a value has popped every move it pushed: the caller's board
    is as it was.  (A call that raises skips the [pop] of every open
    level.) *)
Theorem alpha_beta_restores_board fuel depth alpha beta max_depth start_time
    max_time (st st' : state) (value : float) :
  _alpha_beta evaluator now fuel depth alpha beta max_depth start_time
    max_time st = (Ok value, st') ->
  board st' = board st.
Proof.
  revert depth alpha beta st st' value.
  induction fuel as [|fuel IH]; intros depth alpha beta st st' value; simpl;
    [done|].
  intros [(u1 & st1 & [= _ <-] & E)|(e & _ & [=])]%bind_inv.
  apply bind_inv in E as [(t & st2 & [= _ <-] & E)|(e & _ & [=])].
  destruct (max_time <=? _)%float.
  { apply restores_evaluate in E. done. }
  apply bind_inv in E as [(s & st3 & [= <- <-] & E)|(e & _ & [=])].
  simpl in E.
  destruct (is_checkmate (board st)); [by injection E as _ <-|].
  destruct (is_stalemate (board st) || is_insufficient_material (board st));
    [by injection E as _ <-|].
  destruct (max_depth <=? depth).
  { apply restores_quiescence in E. done. }
  destruct (probe_table _ _ _ _ _) as [v0|alpha' beta'];
    [by injection E as _ <-|].
  destruct (legal_moves (board st)) as [|m ms].
  { apply restores_evaluate in E. done. }
  apply bind_inv in E as [(moves & st4 & [= _ <-] & E)|(e & _ & [=])].
  apply bind_inv in E as [(v & st5 & El & E)|(e & _ & [=])].
  apply bind_inv in E as [(u2 & st6 & [= _ <-] & [= _ <-])|(e & _ & [=])].
  apply restores_alpha_beta_loop in El; [done|].
  intros a b s1 r1 s2 E1. by eapply IH.
Qed.

End Balanced.

(** *** The result of [search] *)

Lemma search_loop_vars fuel start_time max_time depths :
  forall v st v' st',
    search_loop evaluator now fuel start_time max_time depths v st
      = (Ok v', st') ->
    (it_pv v = [] -> it_pv v' = []) /\
    (it_depth v' = it_depth v \/ exists d, d ∈ depths /\ it_depth v' = Some d).
Proof.
  induction depths as [|d depths IH]; intros v st v' st'; simpl.
  { intros [= <- _]. split; [done|by left]. }
  unfold bind at 1. unfold time_time.
  destruct (max_time <=? _)%float.
  { intros [= <- _]. simpl. split; [done|]. right. exists d. split; [left|done]. }
  destruct (_alpha_beta _ _ _ _ _ _ _ _ _ _) as [[value|e] st1].
  - intros E. apply IH in E as [Hpv Hd]. split.
    + intros Hv. apply Hpv. by destruct (_ <? _)%float.
    + destruct Hd as [Hd|(d' & Hd' & Hd)].
      * right. exists d. split; [left|]. rewrite Hd.
        by destruct (_ <? _)%float.
      * right. exists d'. split; [by right|done].
  - intros [= <- _]. simpl. split; [done|]. right. exists d. split; [left|done].
Qed.

(** A result of [search] has an empty principal variation, and its [depth]
    is the last depth started minus one: between 0 and [max_depth - 1], also
    when every iteration ran to its end. *)
Theorem search_result_shape fuel max_time max_depth st r st' :
  search evaluator now fuel max_time max_depth st = (Ok r, st') ->
  pv r = [] /\ 0 <= depth r < max_depth /\ nodes r = nodes_searched st'.
Proof.
  unfold search.
  intros [(_ & st1 & _ & E)|(e & _ & [=])]%bind_inv.
  apply bind_inv in E as [(start_time & st2 & _ & E)|(e & _ & [=])].
  apply bind_inv in E as [(v & st3 & Eloop & E)|(e & _ & [=])].
  apply bind_inv in E as [(cp & st4 & _ & E)|(e & _ & [=])].
  apply bind_inv in E as [(st5 & st6 & [= <- <-] & E)|(e & _ & [=])].
  apply search_loop_vars in Eloop as [Hpv Hd]. simpl in Hpv, Hd.
  destruct (it_depth v) as [d|] eqn:Ed; [|by inversion E].
  injection E as <- <-. simpl. split_and!; [by apply Hpv| | |done].
  - destruct Hd as [[=]|(d' & Hd' & [= <-])].
    apply elem_of_seqZ in Hd'. lia.
  - destruct Hd as [[=]|(d' & Hd' & [= <-])].
    apply elem_of_seqZ in Hd'. lia.
Qed.

(** [search] needs one finished iteration: with [max_depth] below 1, or with
    the time already up at the first check, [best_value] is still minus
    infinity and converting it to centipawns raises [OverflowError]. *)
Theorem search_overflow_without_iteration fuel max_time max_depth st :
  max_depth < 1 \/
  (max_time <=? now (S (ticks st)) - now (ticks st))%float = true ->
  exists st', search evaluator now fuel max_time max_depth st
              = (Raise OverflowError, st').
Proof.
  intros H. unfold search.
  unfold bind at 1. unfold modify. unfold bind at 1. unfold time_time.
  simpl ticks.
  assert (exists v st1,
    search_loop evaluator now fuel (now (ticks st)) max_time
      (seqZ 1 max_depth)
      {| it_best_move := None; it_best_value := neg_infinity; it_pv := [];
         it_depth := None |}
      (set_ticks (S (ticks st)) (set_nodes_searched 0 st)) = (Ok v, st1) /\
    it_best_value v = neg_infinity) as (v & st1 & El & Hv).
  { destruct H as [Hd|Ht].
    - rewrite seqZ_nil by lia. eexists _, _. split; [reflexivity|done].
    - destruct (seqZ 1 max_depth) as [|d ds]; simpl.
      + eexists _, _. split; [reflexivity|done].
      + unfold bind, time_time. simpl. rewrite Ht.
        eexists _, _. split; [reflexivity|done]. }
  unfold bind at 1. rewrite El. unfold bind at 1. unfold lift. rewrite Hv.
  assert (Evaluation.value_to_centipawns neg_infinity = Raise OverflowError)
    as -> by (vm_compute; reflexivity).
  eexists. reflexivity.
Qed.

End WithRules.

#[export] Instance example_push_pop : PushPop (RE := example_rules).
Proof. by intros [cur stack] m. Qed.

Lemma search_keeps_killers_bounded_witness :
  killers_bounded
    (snd (search Evaluation.evaluate_position clock0 1000 1%float 2 kqk_state)).
Proof.
  eapply (search_keeps_killers_bounded Evaluation.evaluate_position clock0
            1000 1%float 2 kqk_state).
  - intros d l. simpl. by rewrite lookup_empty.
  - apply surjective_pairing.
Defined.

Lemma alpha_beta_restores_board_witness :
  board (snd (kqk_node kqk_state)) = board kqk_state.
Proof.
  eapply (alpha_beta_restores_board (PP := example_push_pop)
            Evaluation.evaluate_position clock0 1000 0 (-1)%float 0%float 1
            0%float 1%float kqk_state _ (-0)%float).
  vm_compute. reflexivity.
Defined.

Lemma search_result_shape_witness :
  exists r st',
    search Evaluation.evaluate_position clock0 1000 1%float 3 kqk_state
      = (Ok r, st') /\
    (pv r = [] /\ 0 <= depth r < 3 /\ nodes r = nodes_searched st').
Proof.
  eexists _, _. split; [vm_compute; reflexivity|].
  eapply (search_result_shape Evaluation.evaluate_position clock0 1000
            1%float 3 kqk_state).
  vm_compute. reflexivity.
Defined.

Lemma search_overflow_without_iteration_witness :
  exists st', search Evaluation.evaluate_position clock0 1000 0%float 10
                kqk_state = (Raise OverflowError, st').
Proof.
  apply search_overflow_without_iteration. right. vm_compute. reflexivity.
Defined.

End AlphaBetaProperties.

Module QuiescenceProperties.
Import AlphaBeta AlphaBetaProofs FloatFacts FloatOrder Examples.

Section WithRules.
Context `{RE : RulesEngine}.
Variable evaluator : Board -> result (float * Z).
Variable now : nat -> float.

Lemma quiescence_loop_window (child : float -> float -> M float)
    (beta : float) (captures : list Move) :
  forall (alpha : float) (st : state) (v : float) (st' : state),
    (alpha <=? beta)%float = true ->
    quiescence_loop child beta captures alpha st = (Ok v, st') ->
    (alpha <=? v)%float = true /\ (v <=? beta)%float = true.
Proof.
  induction captures as [|move captures IH]; intros alpha st v st' Hab; simpl.
  { intros [= <- _]. split; [|done]. by apply leb_refl_of_leb in Hab as []. }
  intros [(u1 & st1 & _ & E)|(e & _ & [=])]%bind_inv.
  apply bind_inv in E as [(r & st2 & _ & E)|(e & _ & [=])].
  apply bind_inv in E as [(u2 & st3 & _ & E)|(e & _ & [=])].
  destruct (beta <=? - r)%float eqn:Hcut.
  { injection E as <- _. split; [done|]. by apply leb_refl_of_leb in Hab as []. }
  destruct (alpha <? - r)%float eqn:Hup.
  - apply IH in E as [H1 H2].
    + split; [|done]. eapply leb_trans; [|exact H1]. by apply ltb_leb.
    + apply ltb_leb, leb_false_ltb; [|by apply leb_refl_of_leb in Hab as []|done].
      eapply ltb_leb_refl. exact Hup.
  - by apply IH in E.
Qed.

(** Quiescence search is fail-hard: below its depth limit, and called with
    a window [alpha <= beta], a value it returns lies in the window,
    whatever the evaluator and the captures are.  (At the depth limit it
    returns the raw evaluation.) *)
Theorem quiescence_within_window fuel (alpha beta : float) (depth max_depth : Z)
    (st st' : state) (v : float) :
  depth < max_depth ->
  (alpha <=? beta)%float = true ->
  _quiescence_search evaluator fuel alpha beta depth max_depth st
    = (Ok v, st') ->
  (alpha <=? v)%float = true /\ (v <=? beta)%float = true.
Proof.
  intros Hd Hab. destruct fuel as [|fuel]; simpl; [done|].
  destruct (Z.leb_spec max_depth depth); [lia|].
  intros [(stand_pat & st1 & _ & E)|(e & _ & [=])]%bind_inv.
  destruct (beta <=? stand_pat)%float eqn:Hcut.
  { injection E as <- _. split; [done|]. by apply leb_refl_of_leb in Hab as []. }
  apply bind_inv in E as [(s & st2 & _ & E)|(e & _ & [=])].
  apply bind_inv in E as [(captures & st3 & _ & E)|(e & _ & [=])].
  destruct (alpha <? stand_pat)%float eqn:Hup.
  - apply quiescence_loop_window in E as [H1 H2].
    + split; [|done]. eapply leb_trans; [|exact H1]. by apply ltb_leb.
    + apply ltb_leb, leb_false_ltb; [|by apply leb_refl_of_leb in Hab as []|done].
      eapply ltb_leb_refl. exact Hup.
  - by apply quiescence_loop_window in E.
Qed.

End WithRules.

Lemma quiescence_within_window_witness :
  exists v st',
    _quiescence_search (RE := example_rules) Evaluation.evaluate_position 10
      (-1)%float 1%float 0 4 kqk_state = (Ok v, st') /\
    (-1 <=? v)%float = true /\ (v <=? 1)%float = true.
Proof.
  eexists _, _. split; [vm_compute; reflexivity|].
  eapply (quiescence_within_window (RE := example_rules)
            Evaluation.evaluate_position 10 (-1)%float 1%float 0 4 kqk_state).
  - lia.
  - vm_compute. reflexivity.
  - vm_compute. reflexivity.
Defined.

End QuiescenceProperties.

Module MCTSProperties.
Import MCTS MCTSReadout MCTSProofs Examples.

Section WithRules.
Context `{RE : RulesEngine}.
Variable index : MoveIndex.t.
Variable predict_policy_value : nat -> Board -> result (list float * float).
Variable np_random_random : nat -> Z -> list float.
Variable random_choice : nat -> nat -> nat.
Variable np_random_choice : nat -> list float -> result nat.
Variable np_sum : list float -> float.
Variable np_power_normalized : list Z -> float -> list float.
Variable now : nat -> float.
Variable c_puct : float.

(** *** Move selection *)

Lemma max_by_visits_spec (rest : list MCTSNode) : forall best,
  exists i, (best :: rest) !! i = Some (max_by_visits best rest) /\
    (forall j c, (best :: rest) !! j = Some c ->
       visits c <= visits (max_by_visits best rest)) /\
    (forall j c, (j < i)%nat -> (best :: rest) !! j = Some c ->
       visits c < visits (max_by_visits best rest)).
Proof.
  induction rest as [|c rest IH]; intros best; simpl.
  { exists 0%nat. split; [done|]. split.
    - intros [|j] c; simpl; [|done]. intros [= <-]. lia.
    - intros j c Hj. lia. }
  destruct (Z.ltb_spec (visits best) (visits c)) as [Hlt|Hge].
  - destruct (IH c) as (i & Hi & Hmax & Hfirst).
    exists (S i). split; [done|]. split.
    + intros [|j] x; simpl.
      * intros [= <-]. specialize (Hmax 0%nat c eq_refl). lia.
      * apply Hmax.
    + intros [|j] x Hj; simpl.
      * intros [= <-]. specialize (Hmax 0%nat c eq_refl). lia.
      * apply Hfirst. lia.
  - destruct (IH best) as (i & Hi & Hmax & Hfirst).
    destruct i as [|i].
    + exists 0%nat. split; [done|]. split.
      * intros [|[|j]] x; simpl.
        -- intros [= <-]. apply (Hmax 0%nat). done.
        -- intros [= <-]. specialize (Hmax 0%nat best eq_refl). lia.
        -- intros Hx. apply (Hmax (S j)). done.
      * intros j x Hj. lia.
    + exists (S (S i)). split; [done|]. split.
      * intros [|[|j]] x; simpl.
        -- intros [= <-]. apply (Hmax 0%nat). done.
        -- intros [= <-]. specialize (Hfirst 0%nat best). simpl in Hfirst.
           specialize (Hfirst ltac:(lia) eq_refl). lia.
        -- intros Hx. apply (Hmax (S j)). done.
      * intros [|[|j]] x Hj; simpl.
        -- intros [= <-]. apply (Hfirst 0%nat); [lia|done].
        -- intros [= <-]. specialize (Hfirst 0%nat best). simpl in Hfirst.
           specialize (Hfirst ltac:(lia) eq_refl). lia.
        -- intros Hx. apply (Hfirst (S j)); [lia|done].
Qed.

Lemma read_all_spec (refs : list nat) (nodes : list MCTSNode) (st : state) :
  Forall2 (fun ref node => heap st !! ref = Some node) refs nodes ->
  read_all refs st = Some (Ok nodes, st).
Proof.
  induction 1 as [|ref node refs nodes Href _ IH]; simpl; [done|].
  unfold bind at 1. unfold read. rewrite Href.
  unfold bind at 1. rewrite IH. done.
Qed.

(** At temperature 0 [get_best_move] reads the tree without changing
    anything (so asking again gives the same answer): [None] for a root
    without children, and otherwise the move of the most visited child, the
    first of them in the order of [root.children] when several tie. *)
Theorem get_best_move_most_visited (root : nat) (st : state)
    (root_node : MCTSNode) (nodes : list MCTSNode) :
  heap st !! root = Some root_node ->
  Forall2 (fun ref node => heap st !! ref = Some node)
    (children root_node) nodes ->
  exists r,
    get_best_move np_random_choice np_power_normalized root 0%float st
      = Some (Ok r, st) /\
    (nodes = [] -> r = None) /\
    (nodes <> [] ->
     exists i best, nodes !! i = Some best /\ r = move best /\
       (forall j c, nodes !! j = Some c -> visits c <= visits best) /\
       (forall j c, (j < i)%nat -> nodes !! j = Some c ->
          visits c < visits best)).
Proof.
  intros Hroot Hnodes. unfold get_best_move.
  unfold bind at 1. unfold read. rewrite Hroot.
  unfold bind at 1. rewrite (read_all_spec _ _ _ Hnodes).
  destruct nodes as [|first rest].
  { exists None. split; [done|]. split; [done|]. done. }
  assert ((0 =? 0)%float = true) as -> by reflexivity.
  eexists. split; [reflexivity|]. split; [done|]. intros _.
  destruct (max_by_visits_spec rest first) as (i & Hi & Hmax & Hfirst).
  exists i, (max_by_visits first rest). done.
Qed.

(** *** The principal variation *)

Lemma argmax_visits_snd (refs : list nat) (nodes : list MCTSNode) :
  length refs = length nodes ->
  forall r n,
    snd (argmax_visits (r, n) (zip refs nodes)) = max_by_visits n nodes.
Proof.
  revert nodes. induction refs as [|r' refs IH]; intros [|n' nodes] Hlen r n;
    simpl in *; try done.
  destruct (visits n <? visits n'); apply IH; lia.
Qed.

Lemma read_all_inv (refs : list nat) : forall (st : state) nodes st',
  read_all refs st = Some (Ok nodes, st') ->
  st' = st /\ Forall2 (fun ref node => heap st !! ref = Some node) refs nodes.
Proof.
  induction refs as [|ref refs IH]; intros st nodes st'; simpl.
  { intros [= <- <-]. split; [done|constructor]. }
  intros [(node & st1 & Er & E)|(e & _ & [=])]%mbind_inv.
  unfold read in Er. destruct (heap st !! ref) eqn:Href; [|done].
  injection Er as <- <-.
  apply mbind_inv in E as [(ns & st2 & Ea & [= <- <-])|(e & _ & [=])].
  apply IH in Ea as [-> Hall]. split; [done|]. by constructor.
Qed.

Lemma pv_loop_spec (remaining : nat) : forall ref (st : state) pv st',
  pv_loop remaining ref st = Some (Ok pv, st') ->
  st' = st /\ (length pv <= remaining)%nat.
Proof.
  induction remaining as [|n IH]; intros ref st pv st'; simpl.
  { intros [= <- <-]. split; [done|simpl; lia]. }
  intros [(node & st1 & Er & E)|(e & _ & [=])]%mbind_inv.
  unfold read in Er. destruct (heap st !! ref) eqn:Href; [|done].
  injection Er as <- <-.
  apply mbind_inv in E as [(nodes & st2 & Ea & E)|(e & _ & [=])].
  apply read_all_inv in Ea as [-> _].
  destruct (zip (children m) nodes) as [|first rest].
  { injection E as <- <-. split; [done|simpl; lia]. }
  apply mbind_inv in E as [(pv' & st3 & Ep & [= <- <-])|(e & _ & [=])].
  apply IH in Ep as [-> Hlen]. split; [done|simpl; lia].
Qed.

(** [get_principal_variation] leaves the tree as it is and lists at most
    [max_depth] entries.  For a positive [max_depth] the list is empty
    exactly when the root has no children, and otherwise its first entry is
    the move of the child [get_best_move] picks at temperature 0: whatever
    that child's [move] field holds, [get_best_move] answers the same. *)
Theorem principal_variation_starts_with_best_move (root : nat) (max_depth : Z)
    (st st' : state) (pv : list (option Move)) :
  0 < max_depth ->
  get_principal_variation root max_depth st = Some (Ok pv, st') ->
  st' = st /\ Z.of_nat (length pv) <= max_depth /\
  get_best_move np_random_choice np_power_normalized root 0%float st
    = Some (Ok (mjoin (head pv)), st) /\
  exists root_node, heap st !! root = Some root_node /\
    (pv = [] <-> children root_node = []) /\
    (forall first, head pv = Some first ->
       get_best_move np_random_choice np_power_normalized root 0%float st
         = Some (Ok first, st)).
Proof.
  intros Hpos E. unfold get_principal_variation in E.
  destruct (pv_loop_spec _ _ _ _ _ E) as [-> Hlen].
  split; [done|]. split; [lia|].
  assert (get_best_move np_random_choice np_power_normalized root 0%float st
            = Some (Ok (mjoin (head pv)), st) /\
          exists root_node, heap st !! root = Some root_node /\
            (pv = [] <-> children root_node = []))
    as (Hbest & root_node & Hroot & Hempty).
  { destruct (Z.to_nat max_depth) as [|n] eqn:En; [lia|]. simpl in E.
    apply mbind_inv in E as [(node & st1 & Er & E)|(e & _ & [=])].
    unfold read in Er. destruct (heap st !! root) eqn:Href; [|done].
    injection Er as <- <-.
    apply mbind_inv in E as [(nodes & st2 & Ea & E)|(e & _ & [=])].
    pose proof Ea as Ea'. apply read_all_inv in Ea' as [-> Hall].
    unfold get_best_move. unfold bind at 1. unfold read. rewrite Href.
    unfold bind at 1. rewrite Ea.
    pose proof (Forall2_length _ _ _ Hall) as Hl.
    destruct (children m) as [|r refs] eqn:Ech, nodes as [|first rest];
      simpl in *; try done.
    { injection E as <-. split; [done|]. exists m. by rewrite Ech. }
    apply mbind_inv in E as [(pv' & st3 & Ep & E)|(e & _ & [=])].
    injection E as <-. simpl.
    rewrite argmax_visits_snd by lia. split; [done|].
    exists m. by rewrite Ech. }
  split; [exact Hbest|]. exists root_node.
  split; [exact Hroot|]. split; [exact Hempty|].
  intros first Hfirst. rewrite Hbest, Hfirst. reflexivity.
Qed.

(** *** Selection *)

(** On a node that has children, all of them in the tree, [_select_child]
    answers one of these children (or raises when a score cannot be
    computed); it never answers the node itself and never changes the
    tree. *)
Theorem select_child_is_a_child (ref : nat) (node : MCTSNode) (st : state) :
  heap st !! ref = Some node -> children node <> [] ->
  (forall c, c ∈ children node -> (c < length (heap st))%nat) ->
  exists r st', _select_child c_puct ref st = Some (r, st') /\
    heap st' = heap st /\
    forall c, r = Ok c -> c ∈ children node.
Proof.
  intros Href Hne Hcs.
  destruct (select_child_total c_puct ref node st Href Hne Hcs)
    as (r & st' & E & Hr).
  exists r, st'. split; [done|]. split; [|done].
  by eapply reads_only_select_child.
Qed.

(** *** Expansion *)

(** Whenever the masked policy does not sum to more than 0, normalizing
    calls [.sum()] on the Python list of the mask and raises
    [AttributeError]; with a positive sum every prior is divided by it. *)
Lemma normalize_policy_cases (legal_policy : list float)
    (legal_mask : list bool) :
  ((0 <? np_sum legal_policy)%float = false ->
   normalize_policy np_sum legal_policy legal_mask = Raise AttributeError) /\
  ((0 <? np_sum legal_policy)%float = true ->
   normalize_policy np_sum legal_policy legal_mask
   = Ok (map (fun x => x / np_sum legal_policy)%float legal_policy)).
Proof.
  unfold normalize_policy, sum_method. simpl.
  split; intros ->; done.
Qed.

(** The uniform fallback of [_expand_node] is out of reach.  A search whose
    network answers, for the root position, a policy whose masked sum is not
    above 0 does not return at all: normalizing calls [.sum()] on the Python
    list of the mask, and expanding the root raises [AttributeError]. *)
Theorem search_raises_on_zero_policy fuel (board : Board) max_time max_nodes
    (st : state) policy value legal_mask legal_policy :
  is_game_over board = false ->
  legal_moves board <> [] ->
  predict_policy_value (draws st) board = Ok (policy, value) ->
  MoveIndex.get_legal_move_mask index board = Ok legal_mask ->
  np_mul_mask policy legal_mask = Ok legal_policy ->
  (0 <? np_sum legal_policy)%float = false ->
  exists st',
    search index predict_policy_value np_random_random random_choice np_sum
      now c_puct fuel board max_time max_nodes st
    = Some (Raise AttributeError, st').
Proof.
  intros Hover Hmoves Hpredict Hmask Hmul Hsum. unfold search.
  unfold bind at 1. unfold alloc.
  unfold bind at 1. unfold _expand_node.
  unfold bind at 1. unfold read. simpl heap.
  rewrite list_lookup_middle by done. simpl.
  rewrite Hover. destruct (legal_moves board) as [|m ms]; [done|].
  unfold bind at 1. unfold try_except, network_predict.
  unfold bind at 1. unfold draw. simpl draws. unfold lift at 1.
  rewrite Hpredict.
  unfold bind at 1. unfold lift at 1. rewrite Hmask.
  unfold bind at 1. unfold lift at 1. rewrite Hmul.
  unfold bind at 1. unfold lift at 1.
  rewrite (proj1 (normalize_policy_cases _ _) Hsum).
  eexists. reflexivity.
Qed.

(** *** The tree stays well formed *)

Lemma simulation_keeps_tree n (st : state) r st' :
  tree_inv n 0 st ->
  simulation index predict_policy_value np_random_random random_choice np_sum
    c_puct 0 st = Some (r, st') ->
  exists n', tree_inv n' 0 st'.
Proof.
  intros Hinv E.
  assert (forall ref s, tree_inv n ref s -> tree_inv n 0 s) as Hzero.
  { intros ref s (Hwf & Hroot & Hr). split_and!; [done..|].
    unfold root_visits in Hroot.
    destruct (heap s !! 0%nat) eqn:E0; [|done]. by eapply lookup_lt_Some. }
  destruct r as [[]|e].
  { exists (n + 1). by eapply simulation_spec. }
  exists n. revert E. unfold simulation.
  intros [(st0 & st1 & [= <- <-] & E)|(e' & [=] & _)]%mbind_inv.
  apply mbind_inv in E as [(ref & st2 & Ed & E)|(e' & Ed & _)].
  2:{ eapply keeps_reads_only; [apply reads_only_descend|exact Hinv|exact Ed]. }
  assert (tree_inv n ref st2) as Hinv2.
  { pose proof (descend_valid _ _ _ _ _ _ Ed) as Hlt.
    pose proof (reads_only_descend _ _ _ _ _ _ Ed) as Hh.
    destruct Hinv as (Hwf & Hroot & _). unfold tree_inv, root_visits in *.
    rewrite Hh. rewrite Hh in Hlt. done. }
  apply mbind_inv in E as [(node & st3 & Er & E)|(e' & Er & _)].
  2:{ eapply Hzero, keeps_reads_only; [apply reads_only_read|exact Hinv2|exact Er]. }
  assert (tree_inv n ref st3) as Hinv3.
  { eapply keeps_reads_only; [apply reads_only_read|exact Hinv2|exact Er]. }
  assert (keeps (tree_inv n ref)
    (if negb (is_expanded node) && negb (is_game_over (node_board node))
     then _expand_node index predict_policy_value np_random_random np_sum ref
     else ret tt)) as Hexp.
  { destruct (_ && _); [apply keeps_expand_node|apply keeps_ret]. }
  apply mbind_inv in E as [(u & st4 & Ee & E)|(e' & Ee & _)].
  2:{ eapply Hzero, Hexp; [exact Hinv3|exact Ee]. }
  pose proof (Hexp _ _ _ Hinv3 Ee) as Hinv4.
  apply mbind_inv in E as [(node' & st5 & Er' & E)|(e' & Er' & _)].
  2:{ eapply Hzero, keeps_reads_only; [apply reads_only_read|exact Hinv4|exact Er']. }
  assert (tree_inv n ref st5) as Hinv5.
  { eapply keeps_reads_only; [apply reads_only_read|exact Hinv4|exact Er']. }
  assert (reads_only
    (if is_leaf node'
     then if is_game_over (node_board node')
          then if is_checkmate (node_board node')
               then ret (terminal_value (node_board node'))
               else ret 0%float
          else _simulate predict_policy_value random_choice ref
     else try_except
            (bind (network_predict predict_policy_value (node_board node'))
                  (fun '(_, value) => ret value))
            (ret 0%float))) as Hread.
  { destruct (is_leaf node').
    - destruct (is_game_over (node_board node')).
      + destruct (is_checkmate (node_board node')); apply reads_only_ret.
      + apply reads_only_simulate.
    - apply reads_only_try_except; [|apply reads_only_ret].
      apply reads_only_bind; [apply reads_only_network_predict|].
      intros [? v]. apply reads_only_ret. }
  apply mbind_inv in E as [(value & st6 & Ev & E)|(e' & Ev & _)].
  2:{ eapply Hzero, keeps_reads_only; [exact Hread|exact Hinv5|exact Ev]. }
  assert (tree_inv n ref st6) as Hinv6.
  { eapply keeps_reads_only; [exact Hread|exact Hinv5|exact Ev]. }
  destruct (backup_spec (S ref) ref value st6 n Hinv6) as (st7 & Eb & _);
    [lia|].
  rewrite Eb in E. done.
Qed.

Lemma search_loop_keeps_tree fuel start_time max_time max_nodes :
  forall count n (st : state) r st',
    tree_inv n 0 st ->
    search_loop index predict_policy_value np_random_random random_choice
      np_sum now c_puct fuel 0 start_time max_time max_nodes count st
      = Some (r, st') ->
    exists n', tree_inv n' 0 st'.
Proof.
  induction fuel as [|fuel IH]; intros count n st r st' Hinv; simpl; [done|].
  intros [(t & st1 & Et & E)|(e & [=] & _)]%mbind_inv.
  assert (tree_inv n 0 st1) as Hinv1.
  { eapply keeps_reads_only; [apply reads_only_time_time|exact Hinv|exact Et]. }
  destruct (max_time <=? _)%float.
  { injection E as _ <-. by exists n. }
  destruct (match max_nodes with Some _ => _ | None => _ end).
  { injection E as _ <-. by exists n. }
  apply mbind_inv in E as [([] & st2 & Es & E)|(e & Es & _)].
  - destruct (simulation_keeps_tree _ _ _ _ Hinv1 Es) as (n' & Hinv2).
    eapply IH; [exact Hinv2|exact E].
  - eapply simulation_keeps_tree; [exact Hinv1|exact Es].
Qed.

(** However a search from an empty heap ends, the tree it leaves is well
    formed: the root sits at address 0 and alone has no parent, every other
    node points to a parent created before it, and children are created
    after their node. *)
Theorem search_tree_well_formed fuel board max_time max_nodes (st : state)
    r st' :
  heap st = [] ->
  search index predict_policy_value np_random_random random_choice np_sum now
    c_puct fuel board max_time max_nodes st = Some (r, st') ->
  wf (heap st') /\ is_Some (root_visits st').
Proof.
  intros Hempty. unfold search.
  assert (forall n s, tree_inv n 0 s -> wf (heap s) /\ is_Some (root_visits s))
    as Hdone.
  { intros n s (Hwf & Hroot & _). split; [done|]. by eexists. }
  intros [(root & st1 & Ea & E)|(e & [=] & _)]%mbind_inv.
  unfold alloc in Ea. rewrite Hempty in Ea. simpl in Ea.
  injection Ea as <- <-.
  set (st1 := mkState _ _ _) in E.
  assert (tree_inv 0 0 st1) as Hinv1.
  { split_and!; simpl; [|done|lia]. split.
    - intros [|ref] node; simpl; [by intros [= <-]|done].
    - intros [|ref] node c; simpl; [|done]. intros [= <-]. simpl.
      by intros ?%elem_of_nil. }
  apply mbind_inv in E as [(u & st2 & Ee & E)|(e & Ee & _)].
  2:{ eapply Hdone, keeps_expand_node; [exact Hinv1|exact Ee]. }
  pose proof (keeps_expand_node _ _ _ _ _ _ _ _ _ Hinv1 Ee) as Hinv2.
  apply mbind_inv in E as [(start_time & st3 & Et & E)|(e & [=] & _)].
  assert (tree_inv 0 0 st3) as Hinv3.
  { eapply keeps_reads_only; [apply reads_only_time_time|exact Hinv2|exact Et]. }
  apply mbind_inv in E as [(n & st4 & El & E)|(e & El & _)].
  - injection E as _ <-.
    destruct (search_loop_keeps_tree _ _ _ _ _ _ _ _ _ Hinv3 El) as (n' & H).
    by eapply Hdone.
  - destruct (search_loop_keeps_tree _ _ _ _ _ _ _ _ _ Hinv3 El) as (n' & H).
    by eapply Hdone.
Qed.

(** *** Backup *)

(** [_backup] from a node of a well-formed tree returns without an error,
    creates nothing, and adds exactly one visit to the root, wherever in the
    tree it starts. *)
Theorem backup_adds_one_root_visit (ref : nat) (value : float) (st : state)
    (n : Z) :
  tree_inv n ref st ->
  exists st', _backup (S ref) (Some ref) value st = Some (Ok tt, st') /\
    root_visits st' = Some (n + 1) /\
    length (heap st') = length (heap st) /\ wf (heap st').
Proof.
  intros Hinv.
  destruct (backup_spec (S ref) ref value st n Hinv) as (st' & E & ? & ? & ?);
    [lia|].
  exists st'. done.
Qed.

End WithRules.

(** ** Runs on the examples *)

Lemma result_get_Ok {A} (d : A) (r : result A) :
  match r with Ok _ => True | Raise _ => False end ->
  r = Ok (result_get d r).
Proof. destruct r; [reflexivity|intros []]. Qed.

Lemma three_children_wf : wf (heap three_children).
Proof.
  split.
  - intros [|[|[|[|ref]]]] node; simpl; intros [= <-]; simpl;
      try done; lia.
  - intros [|[|[|[|ref]]]] node c; simpl; intros [= <-]; simpl.
    + rewrite !elem_of_cons, elem_of_nil. intros [->|[->|[->|[]]]]; lia.
    + by intros ?%elem_of_nil.
    + by intros ?%elem_of_nil.
    + by intros ?%elem_of_nil.
Qed.

Lemma get_best_move_most_visited_witness :
  exists r,
    get_best_move (RE := example_rules) (fun _ _ => Ok 0%nat)
      (fun _ _ => []) 0 0%float three_children
      = Some (Ok r, three_children) /\
    r = Some (mkMove 6 21 None).
Proof.
  destruct (get_best_move_most_visited (RE := example_rules)
              (fun _ _ => Ok 0%nat) (fun _ _ => []) 0 three_children
              (mkNode (RE := example_rules) start_board None None
                 [1; 2; 3]%nat 12 0%float 0%float true)
              (drop 1 (heap three_children)))
    as (r & E & _ & Hbest).
  - reflexivity.
  - vm_compute. repeat constructor.
  - exists r. split; [exact E|].
    vm_compute in E. by injection E as <-.
Defined.

Lemma principal_variation_starts_with_best_move_witness :
  exists pv,
    get_principal_variation (RE := example_rules) 0 3 three_children
      = Some (Ok pv, three_children) /\
    pv = [Some (mkMove 6 21 None)] /\
    get_best_move (RE := example_rules) (fun _ _ => Ok 0%nat)
      (fun _ _ => []) 0 0%float three_children
      = Some (Ok (Some (mkMove 6 21 None)), three_children).
Proof.
  exists [Some (mkMove 6 21 None)]. split; [reflexivity|].
  split; [reflexivity|].
  destruct (principal_variation_starts_with_best_move (RE := example_rules)
              (fun _ _ => Ok 0%nat) (fun _ _ => []) 0 3 three_children
              three_children [Some (mkMove 6 21 None)])
    as (_ & _ & _ & root_node & _ & _ & Hfirst).
  - lia.
  - reflexivity.
  - apply Hfirst. reflexivity.
Defined.

Lemma select_child_is_a_child_witness :
  exists r st',
    _select_child (RE := example_rules) 1%float 0 three_children
      = Some (r, st') /\
    heap st' = heap three_children /\
    forall c, r = Ok c -> c ∈ [1; 2; 3]%nat.
Proof.
  apply (select_child_is_a_child (RE := example_rules) 1%float 0
           (mkNode (RE := example_rules) start_board None None
              [1; 2; 3]%nat 12 0%float 0%float true) three_children).
  - reflexivity.
  - simpl. discriminate.
  - simpl. intros c.
    rewrite !elem_of_cons, elem_of_nil. intros [->|[->|[->|[]]]]; lia.
Defined.

Lemma search_raises_on_zero_policy_witness :
  exists st', kqk_search 0 0 3 = Some (Raise AttributeError, st').
Proof.
  unfold kqk_search.
  apply (search_raises_on_zero_policy (RE := example_rules)
           MoveIndex.move_index (constant_network 0 0) no_random first_choice
           sum_seq AlphaBeta.clock0 1%float 10 kqk_board 1%float (Some 3)
           initial (replicate (Z.to_nat 20160) 0%float) 0%float
           (result_get []
              (MoveIndex.get_legal_move_mask (RE := example_rules)
                 MoveIndex.move_index kqk_board))
           (result_get []
              (np_mul_mask (replicate (Z.to_nat 20160) 0%float)
                 (result_get []
                    (MoveIndex.get_legal_move_mask (RE := example_rules)
                       MoveIndex.move_index kqk_board))))).
  - reflexivity.
  - simpl. discriminate.
  - reflexivity.
  - apply result_get_Ok. vm_compute. exact I.
  - apply result_get_Ok. vm_compute. exact I.
  - vm_compute. reflexivity.
Defined.

Lemma search_tree_well_formed_witness :
  exists r st', kqk_search 1 0 3 = Some (r, st') /\
    wf (heap st') /\ is_Some (root_visits st').
Proof.
  destruct (kqk_search 1 0 3) as [[r st']|] eqn:E;
    [|vm_compute in E; discriminate E].
  exists r, st'. split; [reflexivity|].
  apply (search_tree_well_formed (RE := example_rules) MoveIndex.move_index
           (constant_network 1 0) no_random first_choice sum_seq
           AlphaBeta.clock0 1%float 10 kqk_board 1%float (Some 3) initial
           r st').
  - reflexivity.
  - exact E.
Defined.

(** A child with -1 visits makes the divisor of the exploration term 0:
    selecting among the children raises. *)
Example select_child_zero_divisor :
  let st :=
    mkState
      [ mkNode (RE := example_rules) start_board None None [1%nat] 1 0%float
          0%float true;
        mkNode (RE := example_rules) start_board (Some 0%nat)
          (Some (mkMove 6 21 None)) [] (-1) 0%float 0.5%float false ] 0 0 in
  _select_child (RE := example_rules) 1%float 0 st
    = Some (Raise ZeroDivisionError, st).
Proof. vm_compute. reflexivity. Qed.

Lemma backup_adds_one_root_visit_witness :
  exists st',
    _backup (RE := example_rules) 3 (Some 2%nat) 1%float three_children
      = Some (Ok tt, st') /\
    root_visits st' = Some 13 /\
    length (heap st') = 4%nat /\ wf (heap st').
Proof.
  apply (backup_adds_one_root_visit (RE := example_rules) 2 1%float
           three_children 12).
  split; [exact three_children_wf|]. split; [reflexivity|]. simpl. lia.
Defined.

End MCTSProperties.
